(** * k2/csrc/array_ops_inl.h: array primitives and their specification

    A shallow embedding of the algorithms of [k2/csrc/array_ops_inl.h]
    (Transpose, ExclusiveSumDeref, ExclusiveSum on Array2, Append,
    MaxPerSublist, And, RandUniformArray1, Range, ToContiguous) together
    with the properties stated about them.

    Conventions of the embedding.
    - A fixed-width integer is a [Z]. Where the code computes with values
      (the sums of Append, the elements of Range and RandUniformArray1, the
      words of the index map of Append) the arithmetic of the type is
      written out with its two's-complement wrap-around ([int32], [uint32],
      [uint64], [sint]); a division or remainder by zero is undefined.
    - A pointer is a buffer together with a position in it ([ptr]); reading or
      writing outside the buffer is undefined behaviour ([Undefined]).
    - A function whose C++ body can abort ([K2_CHECK], [K2_LOG(FATAL)]) or
      run into undefined behaviour returns an [outcome].
    - A function that writes through a destination pointer returns the
      destination with the updated buffer. Source and destination never share
      a region (the producing algorithms write into regions distinct from
      their inputs). *)

From Stdlib Require Import ZArith String.
From stdpp Require Import prelude strings.

Local Open Scope Z_scope.

(** ** Outcomes of a call *)

Inductive outcome (A : Type) : Type :=
  | Ok (a : A)            (* the call returns [a] *)
  | Fatal (msg : string)  (* K2_CHECK failed or K2_LOG(FATAL): the process aborts *)
  | Undefined.            (* undefined behaviour *)
Global Arguments Ok {A} a.
Global Arguments Fatal {A} msg.
Global Arguments Undefined {A}.

Definition bind {A B : Type} (m : outcome A) (f : A → outcome B) : outcome B :=
  match m with
  | Ok a => f a
  | Fatal msg => Fatal msg
  | Undefined => Undefined
  end.

Declare Scope outcome_scope.
Delimit Scope outcome_scope with outcome.
Notation "x ← y ; z" := (bind y (λ x : _, z))
  (at level 20, y at level 100, z at level 200, only parsing) : outcome_scope.
Notation "' x ← y ; z" := (bind y (λ x : _, z))
  (at level 20, x pattern, y at level 100, z at level 200, only parsing)
  : outcome_scope.
Local Open Scope outcome_scope.

Definition K2_CHECK (b : bool) : outcome unit :=
  if b then Ok () else Fatal "Check failed".
Definition K2_CHECK_EQ (a b : Z) : outcome unit := K2_CHECK (a =? b).
Definition K2_CHECK_GT (a b : Z) : outcome unit := K2_CHECK (b <? a).
Definition K2_CHECK_GE (a b : Z) : outcome unit := K2_CHECK (b <=? a).
Definition K2_LOG_FATAL {A} (msg : string) : outcome A := Fatal msg.

(** [for_each idxs body s]: run [body] once per index, in the order of
    [idxs], threading the state. *)
Fixpoint for_each {I S : Type} (idxs : list I) (body : I → S → outcome S)
    (s : S) : outcome S :=
  match idxs with
  | [] => Ok s
  | i :: rest => s' ← body i s; for_each rest body s'
  end.

(** [for (i = lo; i < hi; i += step)] *)
Definition strided_range (lo hi step : Z) : list Z :=
  (λ k, lo + k * step) <$> seqZ 0 ((hi - lo + step - 1) / step).

(** The index space of a 2-D launch, row by row. *)
Definition index_pairs (m n : Z) : list (Z * Z) :=
  cprod (seqZ 0 m) (seqZ 0 n).

(** ** Execution contexts *)

Inductive DeviceType : Set := kCpu | kCuda.

Global Instance DeviceType_eq_dec : EqDecision DeviceType.
Proof. solve_decision. Defined.

(** Modelled from the spec: the Context class is not part of the sources. A
    context reports a device kind and denotes one device; on the parallel
    device the threads of a launch run in an order the program does not
    choose ([schedule], any rearrangement of the index space of the launch;
    a 1-D launch has the index space n x 1). *)
Record Context : Type := {
  GetDeviceType : DeviceType;
  device_id : Z;
  schedule : list (Z * Z) → list (Z * Z);
  schedule_perm : ∀ l : list (Z * Z), schedule l ≡ₚ l
}.

(** Modelled from the spec: IsCompatible is true only if both contexts denote
    the same device. *)
Definition IsCompatible (a b : Context) : bool :=
  bool_decide (GetDeviceType a = GetDeviceType b) && (device_id a =? device_id b).

Definition GetCpuContext : Context :=
  {| GetDeviceType := kCpu; device_id := 0;
     schedule := λ l, l; schedule_perm := @Permutation_refl (Z * Z) |}.

(** ** Element types, pointers, regions and array views *)

(** [sizeof(T)], and the indeterminate contents of freshly allocated storage
    of type [T]. *)
Class ElemType (T : Type) := {
  ElementSize : Z;
  ElementSize_pos : 0 < ElementSize;
  uninit : Z → T
}.

(** The arithmetic the templates use on their element type. *)
Class Numeric (T : Type) := {
  num_zero : T;
  num_add : T → T → T;
  num_gt : T → T → bool
}.

Record ptr (T : Type) : Type := Ptr { p_buf : list T; p_pos : Z }.
Global Arguments Ptr {T} p_buf p_pos.
Global Arguments p_buf {T} p.
Global Arguments p_pos {T} p.

Definition ptr_add {T} (p : ptr T) (n : Z) : ptr T := Ptr (p_buf p) (p_pos p + n).

Definition in_bounds {T} (buf : list T) (a : Z) : bool :=
  (0 <=? a) && (a <? Z.of_nat (length buf)).

(** [p[k]] as an rvalue *)
Definition load {T} (p : ptr T) (k : Z) : outcome T :=
  let a := p_pos p + k in
  if in_bounds (p_buf p) a then
    match p_buf p !! Z.to_nat a with Some v => Ok v | None => Undefined end
  else Undefined.

(** [p[k] = v] *)
Definition store {T} (p : ptr T) (k : Z) (v : T) : outcome (ptr T) :=
  let a := p_pos p + k in
  if in_bounds (p_buf p) a then Ok (Ptr (<[Z.to_nat a := v]> (p_buf p)) (p_pos p))
  else Undefined.

Record Region (T : Type) : Type := {
  region_context : Context;
  region_data : list T
}.
Global Arguments region_context {T} r.
Global Arguments region_data {T} r.

Definition num_bytes {T} `{ElemType T} (r : Region T) : Z :=
  Z.of_nat (length (region_data r)) * ElementSize.

Definition fresh {T} `{ElemType T} (n : Z) : list T := uninit <$> seqZ 0 n.

Definition NewRegion {T} `{ElemType T} (c : Context) (nbytes : Z) : Region T :=
  {| region_context := c; region_data := fresh (nbytes / ElementSize) |}.

(** Array1<T>: a view (dim, byte_offset, region) *)
Record Array1 (T : Type) : Type := {
  Dim : Z;
  a1_byte_offset : Z;
  a1_region : Region T
}.
Global Arguments Dim {T} a.
Global Arguments a1_byte_offset {T} a.
Global Arguments a1_region {T} a.

(** Array2<T>: a view (dim0, dim1, elem_stride0, byte_offset, region), as the
    five-argument constructor used by ExclusiveSum takes them. *)
Record Array2 (T : Type) : Type := {
  Dim0 : Z;
  Dim1 : Z;
  ElemStride0 : Z;
  a2_byte_offset : Z;
  a2_region : Region T
}.
Global Arguments Dim0 {T} a.
Global Arguments Dim1 {T} a.
Global Arguments ElemStride0 {T} a.
Global Arguments a2_byte_offset {T} a.
Global Arguments a2_region {T} a.

Section Views.
Context {T : Type} `{ElemType T}.

Definition Array1_Context (a : Array1 T) : Context := region_context (a1_region a).
Definition Array2_Context (a : Array2 T) : Context := region_context (a2_region a).

(** [Data()]: the address of the view's first element. *)
Definition Array1_Data (a : Array1 T) : ptr T :=
  Ptr (region_data (a1_region a)) (a1_byte_offset a / ElementSize).
Definition Array2_Data (a : Array2 T) : ptr T :=
  Ptr (region_data (a2_region a)) (a2_byte_offset a / ElementSize).

(** The view after its memory has been written through a pointer obtained
    from [Data()]. *)
Definition Array1_written (a : Array1 T) (p : ptr T) : Array1 T :=
  {| Dim := Dim a; a1_byte_offset := a1_byte_offset a;
     a1_region := {| region_context := Array1_Context a; region_data := p_buf p |} |}.
Definition Array2_written (a : Array2 T) (p : ptr T) : Array2 T :=
  {| Dim0 := Dim0 a; Dim1 := Dim1 a; ElemStride0 := ElemStride0 a;
     a2_byte_offset := a2_byte_offset a;
     a2_region := {| region_context := Array2_Context a; region_data := p_buf p |} |}.

(** Modelled from the spec: the allocating constructors Array1(ctx, size),
    Array1(ctx, vector) and Array2(ctx, dim0, dim1) are not part of the
    sources; they create a view at offset 0 of a fresh region, fully
    contiguous for Array2. *)
Definition Array1_new (c : Context) (size : Z) : Array1 T :=
  {| Dim := size; a1_byte_offset := 0; a1_region := NewRegion c (size * ElementSize) |}.
Definition Array1_of_vector (c : Context) (v : list T) : Array1 T :=
  {| Dim := Z.of_nat (length v); a1_byte_offset := 0;
     a1_region := {| region_context := c; region_data := v |} |}.
Definition Array2_new (c : Context) (dim0 dim1 : Z) : Array2 T :=
  {| Dim0 := dim0; Dim1 := dim1; ElemStride0 := dim1; a2_byte_offset := 0;
     a2_region := NewRegion c (dim0 * dim1 * ElementSize) |}.

(** Modelled from the spec: Array1::To(ctx) is not part of the sources; it
    transfers the array to the target context. *)
Definition Array1_To (a : Array1 T) (c : Context) : Array1 T :=
  {| Dim := Dim a; a1_byte_offset := a1_byte_offset a;
     a1_region := {| region_context := c; region_data := region_data (a1_region a) |} |}.

(** Element [i] of a 1-D view and element [(i, j)] of a 2-D view. *)
Definition Array1_get (a : Array1 T) (i : Z) : outcome T := load (Array1_Data a) i.
Definition Array2_get (a : Array2 T) (i j : Z) : outcome T :=
  load (Array2_Data a) (i * ElemStride0 a + j).

(** [Row(i)] of an accessor: data + i * elem_stride0 *)
Definition Row (data : ptr T) (elem_stride0 : Z) (i : Z) : ptr T :=
  ptr_add data (i * elem_stride0).

(** Modelled from the spec: Eval and Eval2 are not part of the sources. They
    invoke the index function once per element of a 1-D or 2-D index range:
    a (nested) sequential loop on the host, one thread per index on the
    parallel device. *)
Definition Eval {S : Type} (c : Context) (n : Z) (f : Z → S → outcome S) (s : S) : outcome S :=
  match GetDeviceType c with
  | kCpu => for_each (seqZ 0 n) f s
  | kCuda => for_each (schedule c (index_pairs n 1)) (λ ij, f ij.1) s
  end.

Definition Eval2 {S : Type} (c : Context) (m n : Z) (f : Z → Z → S → outcome S) (s : S)
    : outcome S :=
  match GetDeviceType c with
  | kCpu => for_each (seqZ 0 m) (λ i, for_each (seqZ 0 n) (f i)) s
  | kCuda => for_each (schedule c (index_pairs m n)) (λ ij, f ij.1 ij.2) s
  end.

(** memcpy(dst, src, nbytes), in whole elements *)
Definition memcpy (dst src : ptr T) (nbytes : Z) : outcome (ptr T) :=
  for_each (seqZ 0 (nbytes / ElementSize)) (λ k dst, v ← load src k; store dst k v) dst.

(** ** Transpose *)

Definition kTransTileDim : Z := 32.
Definition kTransBlockRows : Z := 8.

(** Modelled from the spec: NumBlocks is not part of the sources; one thread
    block handles one tile, so a dimension of [size] elements takes
    ceil(size / block_size) blocks. *)
Definition NumBlocks (size block_size : Z) : Z := (size + block_size - 1) / block_size.

(** [__shared__ T cache[kTransTileDim][kTransTileDim + 1]] *)
Definition cache_new : ptr T := Ptr (fresh (kTransTileDim * (kTransTileDim + 1))) 0.
Definition cache_index (a b : Z) : Z := a * (kTransTileDim + 1) + b.

(** TransposeKernel, one thread, up to [__syncthreads()]. *)
Definition TransposeKernel_read (rows cols input_elem_stride0 : Z) (input : ptr T)
    (blockIdx threadIdx : Z * Z) (cache : ptr T) : outcome (ptr T) :=
  let x := threadIdx.1 + blockIdx.1 * kTransTileDim in
  let y := threadIdx.2 + blockIdx.2 * kTransTileDim in
  for_each (strided_range 0 kTransTileDim kTransBlockRows) (λ i cache,
    if (x <? cols) && (y + i <? rows) then
      v ← load input ((y + i) * input_elem_stride0 + x);
      store cache (cache_index (threadIdx.2 + i) threadIdx.1) v
    else Ok cache) cache.

(** TransposeKernel, one thread, after [__syncthreads()]. *)
Definition TransposeKernel_write (rows cols output_elem_stride0 : Z) (cache : ptr T)
    (blockIdx threadIdx : Z * Z) (output : ptr T) : outcome (ptr T) :=
  let x := threadIdx.1 + blockIdx.2 * kTransTileDim in
  let y := threadIdx.2 + blockIdx.1 * kTransTileDim in
  for_each (strided_range 0 kTransTileDim kTransBlockRows) (λ i output,
    if (x <? rows) && (y + i <? cols) then
      v ← load cache (cache_index threadIdx.1 (threadIdx.2 + i));
      store output ((y + i) * output_elem_stride0 + x) v
    else Ok output) output.

(** TransposeKernel<<<grid_size, block_size>>>: every block has its own
    shared cache; its threads all reach the barrier before any goes on. *)
Definition TransposeKernel (c : Context) (grid_size block_size : Z * Z)
    (rows cols input_elem_stride0 output_elem_stride0 : Z) (input output : ptr T)
    : outcome (ptr T) :=
  let threads := index_pairs block_size.1 block_size.2 in
  for_each (schedule c (index_pairs grid_size.1 grid_size.2)) (λ blockIdx output,
    cache ← for_each (schedule c threads)
              (TransposeKernel_read rows cols input_elem_stride0 input blockIdx) cache_new;
    for_each (schedule c threads)
      (TransposeKernel_write rows cols output_elem_stride0 cache blockIdx) output) output.

Definition Transpose (c : Context) (src dest : Array2 T) : outcome (Array2 T) :=
  _ ← K2_CHECK (IsCompatible c (Array2_Context src));
  _ ← K2_CHECK (IsCompatible c (Array2_Context dest));
  let rows := Dim0 src in
  let cols := Dim1 src in
  _ ← K2_CHECK_EQ rows (Dim1 dest);
  _ ← K2_CHECK_EQ cols (Dim0 dest);
  let src_elem_stride0 := ElemStride0 src in
  let dest_elem_stride0 := ElemStride0 dest in
  let src_data := Array2_Data src in
  let dest_data := Array2_Data dest in
  let d := GetDeviceType c in
  match d with
  | kCpu =>
      out ← for_each (seqZ 0 cols) (λ i,
               for_each (seqZ 0 rows) (λ j dest_data,
                 v ← load src_data (j * src_elem_stride0 + i);
                 store dest_data (i * dest_elem_stride0 + j) v)) dest_data;
      Ok (Array2_written dest out)
  | kCuda =>
      let block_size := (kTransTileDim, kTransBlockRows) in
      let grid_size := (NumBlocks cols kTransTileDim, NumBlocks rows kTransTileDim) in
      out ← TransposeKernel c grid_size block_size rows cols
               src_elem_stride0 dest_elem_stride0 src_data dest_data;
      Ok (Array2_written dest out)
  end.

(** ** ToContiguous *)

Definition ToContiguous (src : Array2 T) : outcome (Array2 T) :=
  let dim0 := Dim0 src in
  let dim1 := Dim1 src in
  let elem_stride0 := ElemStride0 src in
  if dim1 =? elem_stride0 then Ok src else
  let ans := Array2_new (Array2_Context src) (Dim0 src) (Dim1 src) in
  let out := Array2_Data ans in
  let in_ := Array2_Data src in
  let lambda_copy_elems := λ (i j : Z) (out : ptr T),
    v ← load in_ (i * elem_stride0 + j);
    store out (i * dim1 + j) v in
  out ← Eval2 (Array2_Context src) dim0 dim1 lambda_copy_elems out;
  Ok (Array2_written ans out).

End Views.

(** ** ExclusiveSum *)

Section Sums.
Context {T : Type} `{ElemType T} `{Numeric T}.

(** Modelled from the spec: the 1-D ExclusiveSum(ctx, n, src, dest) that
    ExclusiveSumPerRow calls is not part of the sources. It computes
    dest[0] = 0, dest[i] = dest[i-1] + src[i-1] for the n elements of dest,
    accumulating in the element type, on either backend. *)
Definition ExclusiveSum (c : Context) (n : Z) (src dest : ptr T) : outcome (ptr T) :=
  if n <=? 0 then Ok dest else
  dest ← store dest 0 num_zero;
  for_each (seqZ 1 (n - 1)) (λ i dest,
    prev ← load dest (i - 1);
    s ← load src (i - 1);
    store dest i (num_add prev s)) dest.

Definition ExclusiveSumPerRow (src dest : Array2 T) : outcome (Array2 T) :=
  let rows := Dim0 dest in
  (* note there may be dest->Dim1() == src.Dim1() + 1 *)
  let cols := Dim1 dest in
  let ctx := Array2_Context src in
  let src_acc := Array2_Data src in
  let dest_acc := Array2_Data dest in
  out ← for_each (seqZ 0 rows) (λ i dest_acc,
           row ← ExclusiveSum ctx cols (Row src_acc (ElemStride0 src) i)
                              (Row dest_acc (ElemStride0 dest) i);
           Ok (Ptr (p_buf row) (p_pos dest_acc))) dest_acc;
  Ok (Array2_written dest out).

(** ExclusiveSum(Array2<T> &src, Array2<T> *dest, int32_t axis) *)
Definition ExclusiveSum_Array2 (src dest : Array2 T) (axis : Z) : outcome (Array2 T) :=
  _ ← K2_CHECK ((axis =? 0) || (axis =? 1));
  _ ← K2_CHECK (IsCompatible (Array2_Context src) (Array2_Context dest));
  let src_major_dim := Dim0 src in  (* the axis will be summed *)
  let src_minor_dim := Dim1 src in
  let dest_major_dim := Dim0 dest in
  let dest_minor_dim := Dim1 dest in
  let '(src_major_dim, src_minor_dim) :=
    if axis =? 1 then (src_minor_dim, src_major_dim) else (src_major_dim, src_minor_dim) in
  let '(dest_major_dim, dest_minor_dim) :=
    if axis =? 1 then (dest_minor_dim, dest_major_dim) else (dest_major_dim, dest_minor_dim) in
  _ ← K2_CHECK_EQ dest_minor_dim src_minor_dim;
  _ ← K2_CHECK ((dest_major_dim =? src_major_dim) || (dest_major_dim =? src_major_dim + 1));
  _ ← (if dest_major_dim =? src_major_dim + 1 then
         let region := a2_region src in
         let byte_offset := a2_byte_offset src in
         K2_CHECK_GE (num_bytes region - byte_offset)
                     ((src_major_dim * src_minor_dim + 1) * ElementSize)
       else Ok ());
  if axis =? 1 then ExclusiveSumPerRow src dest
  else
    let ctx := Array2_Context src in
    let elem_size := ElementSize in
    (* note here we always allocate an extra element for src_trans *)
    let src_trans_region : Region T :=
      NewRegion ctx ((src_major_dim * src_minor_dim + 1) * elem_size) in
    let src_trans :=
      {| Dim0 := src_minor_dim; Dim1 := src_major_dim; ElemStride0 := src_major_dim;
         a2_byte_offset := 0; a2_region := src_trans_region |} in
    src_trans ← Transpose ctx src src_trans;
    let dest_trans_region : Region T :=
      NewRegion ctx (dest_major_dim * dest_minor_dim * elem_size) in
    let dest_trans :=
      {| Dim0 := dest_minor_dim; Dim1 := dest_major_dim; ElemStride0 := dest_major_dim;
         a2_byte_offset := 0; a2_region := dest_trans_region |} in
    dest_trans ← ExclusiveSumPerRow src_trans dest_trans;
    Transpose ctx dest_trans dest.

End Sums.

(** ** ExclusiveSumDeref *)

(** internal::PtrPtr<T>: an iterator over a T** whose operator[] reads
    through the pointer it finds. *)
Record PtrPtr (T : Type) : Type := { pp_data : ptr (ptr T) }.
Global Arguments pp_data {T} p.

Section Deref.
Context {T : Type} `{ElemType T} `{ElemType (ptr T)} `{Numeric T}.

(** [T operator[](int32_t i) { return *(data[i]); }] *)
Definition PtrPtr_index (p : PtrPtr T) (i : Z) : outcome T :=
  q ← load (pp_data p) i;
  load q 0.

(** [PtrPtr operator+(int32_t n) const] *)
Definition PtrPtr_add (p : PtrPtr T) (n : Z) : PtrPtr T :=
  let tmp := p in
  {| pp_data := ptr_add (pp_data tmp) n |}.

(** Modelled from the spec: the 1-D ExclusiveSum is a template over the
    iterator it reads the source through; it computes dest[0] = 0,
    dest[i] = dest[i-1] + src[i-1] for the n elements of dest, reading
    src[i-1] with the iterator's operator[]. *)
Definition ExclusiveSum_iter (c : Context) (n : Z) (src : Z → outcome T) (dest : ptr T)
    : outcome (ptr T) :=
  if n <=? 0 then Ok dest else
  dest ← store dest 0 num_zero;
  for_each (seqZ 1 (n - 1)) (λ i dest,
    prev ← load dest (i - 1);
    s ← src (i - 1);
    store dest i (num_add prev s)) dest.

Definition ExclusiveSumDeref (src : Array1 (ptr T)) (dest : Array1 T) : outcome (Array1 T) :=
  _ ← K2_CHECK (IsCompatible (Array1_Context src) (Array1_Context dest));
  let src_dim := Dim src in
  let dest_dim := Dim dest in
  _ ← K2_CHECK ((dest_dim =? src_dim) || (dest_dim =? src_dim + 1));
  _ ← (if dest_dim =? src_dim + 1 then
         let region := a1_region src in
         let byte_offset := a1_byte_offset src in
         K2_CHECK_GE (num_bytes region - byte_offset) (dest_dim * ElementSize (T:=ptr T))
       else Ok ());
  let src_data := {| pp_data := Array1_Data src |} in
  out ← ExclusiveSum_iter (Array1_Context src) dest_dim (PtrPtr_index src_data)
          (Array1_Data dest);
  Ok (Array1_written dest out).

End Deref.

(** ** Append *)

(** Conversions to the fixed-width integer types used by the index map. *)
Definition uint32 (x : Z) : Z := x mod 2 ^ 32.
Definition uint64 (x : Z) : Z := x mod 2 ^ 64.
Definition int32 (x : Z) : Z := (x + 2 ^ 31) mod 2 ^ 32 - 2 ^ 31.

(** Conversion to the signed integer type of [w] bits (two's complement):
    what signed arithmetic of that width yields when the exact result is
    [x]. *)
Definition sint (w x : Z) : Z := (x + 2 ^ (w - 1)) mod 2 ^ w - 2 ^ (w - 1).

(** [while (block_dim * 4 < avg_input_size && block_dim < 8192) block_dim *= 2;]
    An [int32_t] cannot be doubled more than 31 times. *)
Fixpoint block_dim_loop (fuel : nat) (block_dim avg_input_size : Z) : outcome Z :=
  match fuel with
  | O => Undefined
  | S fuel =>
      if (block_dim * 4 <? avg_input_size) && (block_dim <? 8192)
      then block_dim_loop fuel (block_dim * 2) avg_input_size
      else Ok block_dim
  end.

(** std::vector<A> v(n) and v.reserve(n) with an int argument: the argument
    converts to a size_t, so a negative one becomes a size above
    max_size() and the call throws std::length_error, which nothing
    catches; the elements of a new vector are value-initialised. *)
Definition std_vector {A} (n : Z) (init : A) : outcome (ptr A) :=
  if 2 ^ 63 <=? uint64 n then Fatal "std::length_error"
  else Ok (Ptr (replicate (Z.to_nat (uint64 n)) init) 0).
Definition vector_reserve (n : Z) : outcome unit :=
  if 2 ^ 63 <=? uint64 n then Fatal "std::length_error" else Ok ().

Section Append.
Context {T : Type} `{ElemType T}.

(** The body of Append(int32_t num_arrays, const Array1<T> **src), up to its
    closing brace: the values of the locals [row_splits_vec] and [ans]
    there. The int32_t, uint32_t, uint64_t and size_t arithmetic is written
    with its wrap-around. In the device branch the source declares
    [src_ptrs] as an Array1<T> built from a std::vector<T *>; it is read
    here as what the kernels use it for, the array of the data pointers of
    the sources. *)
Definition Append_locals (num_arrays : Z) (src : list (Array1 T))
    : outcome (list Z * Array1 T) :=
  let src := Ptr src 0 in
  _ ← K2_CHECK_GT num_arrays 0;
  src0 ← load src 0;
  let c := Array1_Context src0 in
  row_splits_vec ← std_vector (int32 (num_arrays + 1)) 0;
  let sum := 0 in
  let max_dim := 0 in
  row_splits_vec ← store row_splits_vec 0 sum;
  '(row_splits_vec, sum, max_dim) ←
    for_each (seqZ 0 num_arrays) (λ i '(row_splits_vec, sum, max_dim),
      src_i ← load src i;
      let dim := Dim src_i in
      let max_dim := if max_dim <? dim then dim else max_dim in
      let sum := int32 (sum + dim) in
      row_splits_vec ← store row_splits_vec (i + 1) sum;
      Ok (row_splits_vec, sum, max_dim)) (row_splits_vec, sum, max_dim);
  let ans_size := sum in
  let ans := Array1_new c ans_size in
  let ans_data := Array1_Data ans in
  if decide (GetDeviceType c = kCpu) then
    (* a simple loop is faster, although the other branches should still
       work on CPU. *)
    ans_data ← for_each (seqZ 0 num_arrays) (λ i ans_data,
      offset ← load row_splits_vec i;
      src_i ← load src i;
      let this_dim := Dim src_i in
      let this_src_data := Array1_Data src_i in
      ans_data ← memcpy ans_data this_src_data (uint64 (ElementSize * uint64 this_dim));
      Ok (ptr_add ans_data this_dim)) ans_data;
    Ok (p_buf row_splits_vec, Array1_written ans ans_data)
  else
    _ ← K2_CHECK (bool_decide (GetDeviceType c = kCuda));
    (* Array1<int32_t> row_splits(c, row_splits_vec) *)
    let row_splits_data := Ptr (p_buf row_splits_vec) 0 in
    src_ptrs_vec ← std_vector num_arrays (Ptr [] 0);
    src_ptrs_vec ← for_each (seqZ 0 num_arrays) (λ i src_ptrs_vec,
      src_i ← load src i;
      store src_ptrs_vec i (Array1_Data src_i)) src_ptrs_vec;
    let src_ptrs_data := Ptr (p_buf src_ptrs_vec) 0 in
    let avg_input_size := ans_size `quot` num_arrays in
    if max_dim <? int32 (int32 (2 * avg_input_size) + 512) then
      let lambda_set_data := λ (i j : Z) (ans_data : ptr T),
        row_start ← load row_splits_data i;
        row_end ← load row_splits_data (i + 1);
        src_ptr ← load src_ptrs_data i;
        if j <? int32 (row_end - row_start) then
          v ← load src_ptr j;
          store ans_data (int32 (row_start + j)) v
        else Ok ans_data in
      ans_data ← Eval2 c num_arrays max_dim lambda_set_data ans_data;
      Ok (p_buf row_splits_vec, Array1_written ans ans_data)
    else
      block_dim ← block_dim_loop 32 256 avg_input_size;
      (* index_map: old_index + (block_of_this_array << 32) *)
      _ ← vector_reserve (int32 (2 * ans_size) `quot` block_dim);
      index_map ← for_each (seqZ 0 num_arrays) (λ i index_map,
        src_i ← load src i;
        let this_array_size := Dim src_i in
        let this_num_blocks :=
          int32 (int32 (this_array_size + block_dim) - 1) `quot` block_dim in
        for_each (seqZ 0 this_num_blocks) (λ j index_map,
          Ok (index_map ++ [uint64 (uint64 (Z.shiftl (uint64 j) 32) + uint64 i)]))
          index_map) [];
      let index_map_data := Ptr index_map 0 in
      let lambda_set_data_blocks := λ (i j : Z) (ans_data : ptr T),
        index ← load index_map_data i;
        let orig_i := uint32 index in
        let block_index := uint32 (Z.shiftr index 32) in
        row_start ← load row_splits_data orig_i;
        row_end ← load row_splits_data (uint32 (orig_i + 1));
        let orig_j := int32 (uint32 (uint32 (block_index * uint32 block_dim) + uint32 j)) in
        src_ptr ← load src_ptrs_data orig_i;
        if orig_j <? int32 (row_end - row_start) then
          v ← load src_ptr orig_j;
          store ans_data (int32 (row_start + orig_j)) v
        else Ok ans_data in
      ans_data ← Eval2 c (Z.of_nat (length index_map)) block_dim
                   lambda_set_data_blocks ans_data;
      Ok (p_buf row_splits_vec, Array1_written ans ans_data).

(** Append(int32_t num_arrays, const Array1<T> **src): control reaches the
    closing brace of the function, whose return type is Array1<T>, without
    passing a return statement. *)
Definition Append (num_arrays : Z) (src : list (Array1 T)) : outcome (Array1 T) :=
  _ ← Append_locals num_arrays src;
  Undefined.

(** Append(int32_t src_size, Array1<T> *src) *)
Definition Append_flat (src_size : Z) (src : list (Array1 T)) : outcome (Array1 T) :=
  let src := Ptr src 0 in
  _ ← K2_CHECK_GT src_size 0;
  let srcs := (λ i, ptr_add src i) <$> seqZ 0 src_size in
  _ ← @K2_LOG_FATAL unit "Not Implemented";
  load src 0.

(** And(Array1<T> &src, T default_value, Array1<T> *dest) *)
Definition And (src : Array1 T) (default_value : T) (dest : Array1 T)
    : outcome (Array1 T) :=
  K2_LOG_FATAL "Not implemented".

End Append.

(** ** Ragged arrays and MaxPerSublist *)

(** Modelled from the spec: RaggedShape and Ragged are not part of the
    sources. A shape is an ordered, non-empty list of row-splits arrays;
    Dim0 is the number of rows of the first one; a ragged array is a shape
    with a flat array of values. *)
Record RaggedShape : Type := {
  row_splits1 : Array1 Z;
  row_splits_more : list (Array1 Z)
}.

Record Ragged (T : Type) : Type := {
  shape : RaggedShape;
  values : Array1 T
}.
Global Arguments shape {T} r.
Global Arguments values {T} r.

Definition NumAxes (s : RaggedShape) : Z := 2 + Z.of_nat (length (row_splits_more s)).
Definition Shape_Dim0 (s : RaggedShape) : Z := Dim (row_splits1 s) - 1.
Definition RowSplits (s : RaggedShape) (axis : Z) : outcome (Array1 Z) :=
  load (Ptr (row_splits1 s :: row_splits_more s) 0) (axis - 1).
Definition Shape_Context (s : RaggedShape) : Context :=
  region_context (a1_region (row_splits1 s)).

(** MaxOp<T> (utils.h): the larger of two values. *)
Definition MaxOp {T} `{Numeric T} (a b : T) : T := if num_gt a b then a else b.

Global Instance Z_numeric : Numeric Z :=
  {| num_zero := 0; num_add := Z.add; num_gt := Z.gtb |}.

Section Reduce.
Context {T : Type} `{ElemType T} `{Numeric T} `{ElemType Z}.

(** cub::DeviceSegmentedReduce::Reduce with temporary storage supplied (with
    d_temp_storage == NULL the call only reports the size of the storage it
    needs): d_out[i] is the reduction with [op] of [initial_value] and the
    items of segment i, d_in[d_begin_offsets[i] .. d_end_offsets[i]); the
    segments are reduced independently by the threads of the device. *)
Definition cub_DeviceSegmentedReduce (c : Context) (d_in d_out : ptr T)
    (num_segments : Z) (d_begin_offsets d_end_offsets : ptr Z)
    (reduction_op : T → T → T) (initial_value : T) : outcome (ptr T) :=
  for_each (schedule c (index_pairs num_segments 1)) (λ seg d_out,
    let i := seg.1 in
    segment_begin ← load d_begin_offsets i;
    segment_end ← load d_end_offsets i;
    r ← for_each (seqZ segment_begin (segment_end - segment_begin))
          (λ k acc, v ← load d_in k; Ok (reduction_op acc v)) initial_value;
    store d_out i r) d_out.

Definition MaxPerSublist (src : Ragged T) (default_value : T) (max_values : Array1 T)
    : outcome (Array1 T) :=
  _ ← K2_CHECK_EQ (NumAxes (shape src)) 2;
  _ ← K2_CHECK_EQ (Shape_Dim0 (shape src)) (Dim max_values);
  _ ← K2_CHECK (IsCompatible (Shape_Context (shape src)) (Array1_Context max_values));
  let c := Shape_Context (shape src) in
  let num_rows := Shape_Dim0 (shape src) in
  row_splits_1 ← RowSplits (shape src) 1;
  let row_splits := Array1_Data row_splits_1 in
  let values_data := Array1_Data (values src) in
  let output_data := Array1_Data max_values in
  if decide (GetDeviceType c = kCpu) then
    j ← load row_splits 0;
    '(j, output_data) ←
      for_each (seqZ 0 num_rows) (λ i '(j, output_data),
        let max_val := default_value in
        row_end ← load row_splits (i + 1);
        max_val ← for_each (seqZ j (row_end - j)) (λ j max_val,
                     elem ← load values_data j;
                     Ok (if num_gt elem max_val then elem else max_val)) max_val;
        let j := Z.max j row_end in
        output_data ← store output_data i max_val;
        Ok (j, output_data)) (j, output_data);
    Ok (Array1_written max_values output_data)
  else
    _ ← K2_CHECK (bool_decide (GetDeviceType c = kCuda));
    let max_op := MaxOp in
    output_data ← cub_DeviceSegmentedReduce c values_data output_data num_rows
                     row_splits (ptr_add row_splits 1) max_op default_value;
    Ok (Array1_written max_values output_data).

End Reduce.

(** ** Generators over an integral element type *)

(** The C library's rand(): the values it returns, in the order of the
    calls, each in [0, RAND_MAX]. The state of the generator is the number
    of calls made so far. *)
Record RandGen : Type := {
  RAND_MAX : Z;
  RAND_MAX_min : 32767 ≤ RAND_MAX;
  rand_draw : nat → Z;
  rand_draw_range : ∀ k, 0 ≤ rand_draw k ≤ RAND_MAX
}.

Section Generators.
Context `{ElemType Z}.

(** std::is_floating_point<T>::value for the integral element types
    modelled here *)
Definition is_floating_point : bool := false.

(** The element type T is a signed integral type of 8 * sizeof(T) bits.
    An arithmetic expression over T and int operands is evaluated, by the
    usual arithmetic conversions, in the wider of T and int, and converted
    to T where it is stored in an element. *)
Definition T_bits : Z := 8 * ElementSize.
Definition common_bits : Z := Z.max 32 T_bits.
Definition to_T (x : Z) : Z := sint T_bits x.
Definition in_common (x : Z) : Z := sint common_bits x.

(** RandUniformArray1 for a signed integral T; the second component of the
    result is the state of rand() after the call. std::abs, the products,
    sums and differences are those of the type they are computed in, with
    its wrap-around; rand() % 0 is undefined. *)
Definition RandUniformArray1 (g : RandGen) (calls : nat) (c : Context)
    (dim min_value max_value : Z) : outcome (Array1 Z * nat) :=
  let temp := Array1_new GetCpuContext dim in
  let data := Array1_Data temp in
  _ ← K2_CHECK (min_value <=? max_value);
  '(data, calls) ←
    (if max_value =? min_value then
       data ← for_each (seqZ 0 dim) (λ i data, store data i 0) data;
       Ok (data, calls)
     else if is_floating_point || (RAND_MAX g <? in_common (Z.abs min_value))
                               || (RAND_MAX g <? in_common (Z.abs max_value)) then
       for_each (seqZ 0 dim) (λ i '(data, calls),
         data ← store data i
                  (to_T (in_common (min_value +
                     in_common (rand_draw g calls * in_common (max_value - min_value))
                       `quot` RAND_MAX g)));
         Ok (data, S calls)) (data, calls)
     else
       for_each (seqZ 0 dim) (λ i '(data, calls),
         let range := int32 (in_common (in_common (max_value + 1) - min_value)) in
         if range =? 0 then Undefined else
         data ← store data i (to_T (in_common (min_value + rand_draw g calls `rem` range)));
         Ok (data, S calls)) (data, calls));
  Ok (Array1_To (Array1_written temp data) c, calls).

Definition Range (c : Context) (dim first_value inc : Z) : outcome (Array1 Z) :=
  _ ← K2_CHECK (0 <=? dim);
  let d := GetDeviceType c in
  let ans := Array1_new c dim in
  let ans_data := Array1_Data ans in
  match d with
  | kCpu =>
      ans_data ← for_each (seqZ 0 dim) (λ i ans_data,
                    store ans_data i
                      (to_T (in_common (first_value + in_common (i * inc))))) ans_data;
      Ok (Array1_written ans ans_data)
  | kCuda =>
      let lambda_set_values := λ (i : Z) (ans_data : ptr Z),
        store ans_data i (to_T (in_common (first_value + in_common (i * inc)))) in
      ans_data ← Eval c dim lambda_set_values ans_data;
      Ok (Array1_written ans ans_data)
  end.

End Generators.

(** * Vocabulary of the properties *)

(** One guarded element copy, the body shared by the copying loops and
    kernels: [if (guard) out[wr] = rd]. *)
Definition copy_step {T I} (guard : I → bool) (rd : I → outcome T) (wr : I → Z)
    (idx : I) (out : ptr T) : outcome (ptr T) :=
  if guard idx then bind (rd idx) (store out (wr idx)) else Ok out.

Section ValidViews.
Context {T : Type} `{ElemType T}.

(** A 2-D view is valid when its rows do not overlap and all its elements
    lie inside its region. *)
Definition Array2_valid (a : Array2 T) : Prop :=
  0 ≤ Dim0 a ∧ 0 ≤ Dim1 a ∧ Dim1 a ≤ ElemStride0 a ∧ 0 ≤ a2_byte_offset a ∧
  (0 < Dim0 a → 0 < Dim1 a →
   a2_byte_offset a / ElementSize + (Dim0 a - 1) * ElemStride0 a + Dim1 a
     ≤ Z.of_nat (length (region_data (a2_region a)))).

(** [out] is the memory of [dest] after the elements of [src] have been
    written to it transposed: element (i, j) of [dest] is element (j, i) of
    [src], and the memory outside the view is as before. *)
Definition transposed (src dest : Array2 T) (out : ptr T) : Prop :=
  p_pos out = p_pos (Array2_Data dest) ∧
  length (p_buf out) = length (region_data (a2_region dest)) ∧
  (∀ i j, 0 ≤ i < Dim0 dest → 0 ≤ j < Dim1 dest →
     load out (i * ElemStride0 dest + j) = Array2_get src j i) ∧
  (∀ k, (∀ i j, 0 ≤ i < Dim0 dest → 0 ≤ j < Dim1 dest → i * ElemStride0 dest + j ≠ k) →
     load out k = load (Array2_Data dest) k).

(** A 1-D view is valid when all its elements lie inside its region. *)
Definition Array1_valid (a : Array1 T) : Prop :=
  0 ≤ Dim a ∧ 0 ≤ a1_byte_offset a ∧
  a1_byte_offset a / ElementSize + Dim a ≤ Z.of_nat (length (region_data (a1_region a))).

(** The view has exactly the elements of the list [l]. *)
Definition Array1_holds (a : Array1 T) (l : list T) : Prop :=
  Dim a = Z.of_nat (length l) ∧
  ∀ (k : nat) v, l !! k = Some v → Array1_get a (Z.of_nat k) = Ok v.

End ValidViews.

(** Row and column of the source element a thread of block [b] handles in
    iteration [ti.2] of its first loop, and of the destination element it
    writes in iteration [ti.2] of its second loop. *)
Definition read_col (b : Z * Z) (ti : Z * Z * Z) : Z := ti.1.1 + b.1 * kTransTileDim.
Definition read_row (b : Z * Z) (ti : Z * Z * Z) : Z := ti.1.2 + b.2 * kTransTileDim + ti.2.
Definition write_col (b : Z * Z) (ti : Z * Z * Z) : Z := ti.1.1 + b.2 * kTransTileDim.
Definition write_row (b : Z * Z) (ti : Z * Z * Z) : Z := ti.1.2 + b.1 * kTransTileDim + ti.2.

Section SumVocabulary.
Context {T : Type} `{ElemType T} `{Numeric T}.

(** The sum of a list in the element type, and the sum of the first [j]
    values of a sequence given by index. *)
Definition sum_of (l : list T) : T := foldl num_add num_zero l.
Definition sum_upto (f : Z → T) (j : Z) : T := sum_of (f <$> seqZ 0 j).


(** A value for every position of a valid view. *)
Definition Array2_elem (a : Array2 T) (i j : Z) : T :=
  match Array2_get a i j with Ok v => v | _ => num_zero end.

End SumVocabulary.

(** The values of an int32_t, and an integer element type whose addition is
    that of the integers whenever the operands and the result are values of
    an int32_t (int32_t itself and every wider integer type). *)
Definition in_int32 (x : Z) : Prop := - 2 ^ 31 ≤ x < 2 ^ 31.
Definition int32_arith (N : Numeric Z) : Prop :=
  @num_zero Z N = 0 ∧
  ∀ a b, in_int32 a → in_int32 b → in_int32 (a + b) → @num_add Z N a b = a + b.

(** The sum of a list of integers, as a number. *)
Definition Zsum (l : list Z) : Z := foldr Z.add 0 l.

(** The elements of the row that starts at [b] and ends before [e]. *)
Definition row_between {T} (vals : list T) (b e : Z) : list T :=
  take (Z.to_nat (e - b)) (drop (Z.to_nat b) vals).

(** The maximum of a non-empty list. *)
Definition max_of (l : list Z) : Z :=
  match l with [] => 0 | h :: t => foldl Z.max h t end.

(** A two-axis ragged array whose row-splits array holds [splits] and whose
    values array holds [vals]: the row splits start at 0, do not decrease
    and end at the number of values. *)
Definition Ragged_valid `{ElemType Z} (src : Ragged Z) (splits vals : list Z) : Prop :=
  row_splits_more (shape src) = [] ∧
  Array1_holds (row_splits1 (shape src)) splits ∧
  Array1_holds (values src) vals ∧
  splits !! 0%nat = Some 0 ∧
  (∀ (i : nat) b e, splits !! i = Some b → splits !! S i = Some e → b ≤ e) ∧
  last splits = Some (Z.of_nat (length vals)).

(** The number of elements of the first [k] lists: entry [k] of the row
    splits of their concatenation. *)
Definition sizes_upto {T} (contents : list (list T)) (k : nat) : Z :=
  Z.of_nat (length (concat (take k contents))).

(** The word of the index map for block [j] of source [i], and the number
    of blocks of a source. *)
Definition index_word (i j : Z) : Z := uint64 (uint64 (Z.shiftl (uint64 j) 32) + uint64 i).
Definition num_blocks_of {T} (block_dim : Z) (a : Array1 T) : Z :=
  (Dim a + block_dim - 1) `quot` block_dim.

(** What ExclusiveSumDeref checks of its arguments. *)
Definition ExclusiveSumDeref_pre {T} `{ElemType T} `{ElemType (ptr T)}
    (src : Array1 (ptr T)) (dest : Array1 T) : Prop :=
  IsCompatible (Array1_Context src) (Array1_Context dest) = true ∧
  (Dim dest = Dim src ∨
   Dim dest = Dim src + 1 ∧
   Dim dest * ElementSize (T:=ptr T) ≤ num_bytes (a1_region src) - a1_byte_offset src).

(** The view [a] with its region placed in the context [c]. *)
Definition Array2_at {T} (c : Context) (a : Array2 T) : Array2 T :=
  {| Dim0 := Dim0 a; Dim1 := Dim1 a; ElemStride0 := ElemStride0 a;
     a2_byte_offset := a2_byte_offset a;
     a2_region := {| region_context := c; region_data := region_data (a2_region a) |} |}.

(** What ExclusiveSum(Array2, Array2 *, axis) checks of its arguments before
    it sums: the axis, the contexts, the dimensions of the destination (those
    of the source, or one more along the summed axis) and, for the longer
    destination, the size of the region of the source. *)
Definition ExclusiveSum_Array2_pre {T} `{ElemType T} (src dest : Array2 T) (axis : Z) : Prop :=
  (axis = 0 ∨ axis = 1) ∧
  IsCompatible (Array2_Context src) (Array2_Context dest) = true ∧
  let src_major := if axis =? 1 then Dim1 src else Dim0 src in
  let src_minor := if axis =? 1 then Dim0 src else Dim1 src in
  let dest_major := if axis =? 1 then Dim1 dest else Dim0 dest in
  let dest_minor := if axis =? 1 then Dim0 dest else Dim1 dest in
  dest_minor = src_minor ∧
  (dest_major = src_major ∨
   dest_major = src_major + 1 ∧
   (src_major * src_minor + 1) * ElementSize ≤ num_bytes (a2_region src) - a2_byte_offset src).

(** The element RandUniformArray1 computes from one result [r] of rand()
    when the bounds differ: scaled by the width of the interval when a bound
    exceeds RAND_MAX in absolute value, reduced modulo the number of values
    of the interval otherwise. *)
Definition rand_value (g : RandGen) (min_value max_value r : Z) : Z :=
  if (RAND_MAX g <? Z.abs min_value) || (RAND_MAX g <? Z.abs max_value)
  then min_value + (r * (max_value - min_value)) `quot` RAND_MAX g
  else min_value + r `rem` (max_value + 1 - min_value).

(** Bounds for which no step of RandUniformArray1 leaves the values of the
    type it is computed in: rand() returns an int; the bounds are values of
    T and min_value is not the most negative value of the type std::abs is
    computed in; the largest product rand() * (max_value - min_value) fits
    that type in the scaling branch, and the number of values of the
    interval fits an int32_t in the modulo branch. *)
Definition rand_bounds_fit `{ElemType Z} (g : RandGen) (min_value max_value : Z) : Prop :=
  RAND_MAX g < 2 ^ 31 ∧
  - 2 ^ (T_bits - 1) ≤ min_value ∧ max_value < 2 ^ (T_bits - 1) ∧
  - 2 ^ (common_bits - 1) < min_value ∧
  if (RAND_MAX g <? Z.abs min_value) || (RAND_MAX g <? Z.abs max_value)
  then RAND_MAX g * (max_value - min_value) < 2 ^ (common_bits - 1)
  else max_value - min_value < 2 ^ 31 - 1.

(** ** Concrete inputs *)

(** int32_t elements; fresh storage holds some negative numbers. *)
Definition int32_elem : ElemType Z :=
  {| ElementSize := 4; ElementSize_pos := eq_refl; uninit := λ i, -1 - i |}.

(** The arithmetic of int32_t, with two's-complement wrap-around. *)
Definition int32_numeric : Numeric Z :=
  {| num_zero := 0; num_add := λ a b, int32 (a + b); num_gt := Z.gtb |}.

(** A device whose threads run in the reverse of the launch order. *)
Definition cuda_reversed : Context :=
  {| GetDeviceType := kCuda; device_id := 0;
     schedule := reverse; schedule_perm := @reverse_Permutation (Z * Z) |}.

Definition array2_of {T} (c : Context) (dim0 dim1 stride byte_offset : Z) (data : list T)
    : Array2 T :=
  {| Dim0 := dim0; Dim1 := dim1; ElemStride0 := stride; a2_byte_offset := byte_offset;
     a2_region := {| region_context := c; region_data := data |} |}.

Definition array1_of {T} (c : Context) (data : list T) : Array1 T :=
  {| Dim := Z.of_nat (length data); a1_byte_offset := 0;
     a1_region := {| region_context := c; region_data := data |} |}.

Definition ragged_of (c : Context) (splits vals : list Z) : Ragged Z :=
  {| shape := {| row_splits1 := array1_of c splits; row_splits_more := [] |};
     values := array1_of c vals |}.

(** A 2 x 3 view with row stride 4, one element into its region. *)
Definition strided_2x3 (c : Context) : Array2 Z :=
  array2_of c 2 3 4 4 [100; 1; 2; 3; 0; 4; 5; 6; 0; 0].

(** A linear congruential generator as an instance of rand(). *)
Definition lcg_rand : RandGen.
Proof.
  refine {| RAND_MAX := 2147483647;
            rand_draw := λ k, (Z.of_nat k * 1103515245 + 12345) mod 2147483648 |}.
  - lia.
  - intros k. pose proof (Z.mod_pos_bound (Z.of_nat k * 1103515245 + 12345) 2147483648). lia.
Defined.

(** T* elements: 8 bytes; fresh storage holds null pointers. *)
Definition ptr_elem {T} : ElemType (ptr T) :=
  {| ElementSize := 8; ElementSize_pos := eq_refl; uninit := λ _, Ptr [] 0 |}.

(** A 3 x 2 view with row stride 4, one element into a region it does not
    fill: the cells of the region outside the view hold 7. *)
Definition padded_3x2 (c : Context) : Array2 Z :=
  array2_of c 3 2 4 4 [7; 0; 0; 7; 7; 0; 0; 7; 7; 0; 0; 7].

(** Three pointers into one buffer, with a spare cell after them. *)
Definition three_pointers (c : Context) : Array1 (ptr Z) :=
  {| Dim := 3; a1_byte_offset := 0;
     a1_region := {| region_context := c;
                     region_data := [Ptr [5; 6; 7] 0; Ptr [5; 6; 7] 2; Ptr [5; 6; 7] 1;
                                     Ptr [] 0] |} |}.

(** Two elements in the middle of a region of four. *)
Definition middle_two (c : Context) : Array1 Z :=
  {| Dim := 2; a1_byte_offset := 4;
     a1_region := {| region_context := c; region_data := [7; 0; 0; 7] |} |}.

(** * Properties *)

(** ** Outcomes and loops *)

Lemma bind_Ok_inv {A B : Type} (m : outcome A) (f : A → outcome B) (b : B) :
  bind m f = Ok b → ∃ a, m = Ok a ∧ f a = Ok b.
Proof. destruct m as [a| |]; simpl; intros E; try discriminate. eauto. Qed.

Lemma K2_CHECK_true (b : bool) : b = true → K2_CHECK b = Ok ().
Proof. now intros ->. Qed.

Lemma K2_CHECK_false (b : bool) : b = false → K2_CHECK b = Fatal "Check failed".
Proof. now intros ->. Qed.

Section Loops.
Context {S : Type}.

Lemma for_each_app {I} (l1 l2 : list I) (body : I → S → outcome S) (s : S) :
  for_each (l1 ++ l2) body s = bind (for_each l1 body s) (for_each l2 body).
Proof.
  revert s. induction l1 as [|i l1 IH]; intros s; simpl; [done|].
  destruct (body i s) as [s'| |]; simpl; auto.
Qed.

Lemma for_each_ext {I} (l : list I) (f g : I → S → outcome S) (s : S) :
  (∀ i s, i ∈ l → f i s = g i s) → for_each l f s = for_each l g s.
Proof.
  revert s. induction l as [|i l IH]; intros s Hfg; simpl; [done|].
  rewrite (Hfg i s) by left.
  destruct (g i s) as [s'| |]; simpl; auto.
  apply IH. intros. apply Hfg. now right.
Qed.

Lemma for_each_fmap {I J} (g : J → I) (l : list J) (body : I → S → outcome S) (s : S) :
  for_each (g <$> l) body s = for_each l (λ j, body (g j)) s.
Proof.
  revert s. induction l as [|j l IH]; intros s; simpl; [done|].
  destruct (body (g j) s); simpl; auto.
Qed.

(** A loop nest is a loop over the product of the index ranges. *)
Lemma for_each_cprod {I J} (l1 : list I) (l2 : list J) (f : I → J → S → outcome S) (s : S) :
  for_each l1 (λ i, for_each l2 (f i)) s = for_each (cprod l1 l2) (λ ij, f ij.1 ij.2) s.
Proof.
  revert s. induction l1 as [|i l1 IH]; intros s; [done|].
  change (cprod (i :: l1) l2) with (((i,.) <$> l2) ++ cprod l1 l2).
  rewrite for_each_app, for_each_fmap. simpl.
  destruct (for_each l2 (f i) s) as [s'| |]; simpl; auto.
Qed.

(** A loop whose body keeps an invariant: it completes, and the invariant
    holds for the whole range. *)
Lemma for_each_inv {I} (P : list I → S → Prop) (l : list I) (body : I → S → outcome S) (s : S) :
  P [] s →
  (∀ done i s, P done s → (∃ rest, l = done ++ i :: rest) →
     ∃ s', body i s = Ok s' ∧ P (done ++ [i]) s') →
  ∃ s', for_each l body s = Ok s' ∧ P l s'.
Proof.
  intros H0 Hstep.
  assert (G : ∀ rest done s, l = done ++ rest → P done s →
            ∃ s', for_each rest body s = Ok s' ∧ P l s').
  { induction rest as [|i rest IH]; intros done s0 El HP.
    - rewrite app_nil_r in El. subst done. simpl. eauto.
    - destruct (Hstep done i s0 HP) as (s1 & E1 & HP1); [eauto|].
      simpl. rewrite E1. simpl. apply (IH (done ++ [i])); [|done].
      now rewrite <- app_assoc. }
  now apply (G l []).
Qed.

End Loops.

(** ** Loads and stores *)

Section Memory.
Context {T : Type}.
Implicit Types (p : ptr T) (k : Z) (v : T).

Lemma in_bounds_true (buf : list T) (a : Z) :
  in_bounds buf a = true ↔ 0 ≤ a < Z.of_nat (length buf).
Proof. unfold in_bounds. rewrite andb_true_iff, Z.leb_le, Z.ltb_lt. tauto. Qed.

Lemma load_Ok p k v :
  load p k = Ok v ↔ 0 ≤ p_pos p + k ∧ p_buf p !! Z.to_nat (p_pos p + k) = Some v.
Proof.
  unfold load. destruct (in_bounds _ _) eqn:E.
  - apply in_bounds_true in E.
    destruct (p_buf p !! _) eqn:L; split.
    + intros [= ->]. split; [lia|done].
    + intros [_ [= ->]]. done.
    + done.
    + intros [_ [=]].
  - split; [done|]. intros [? L]. apply lookup_lt_Some in L.
    assert (in_bounds (p_buf p) (p_pos p + k) = true); [|congruence].
    apply in_bounds_true. lia.
Qed.

Lemma load_in_bounds p k :
  0 ≤ p_pos p + k < Z.of_nat (length (p_buf p)) → ∃ v, load p k = Ok v.
Proof.
  intros Hb. destruct (lookup_lt_is_Some_2 (p_buf p) (Z.to_nat (p_pos p + k))) as [v Hv]; [lia|].
  exists v. apply load_Ok. split; [lia|done].
Qed.

Lemma load_Ok_bounds p k v :
  load p k = Ok v → 0 ≤ p_pos p + k < Z.of_nat (length (p_buf p)).
Proof. intros [? L]%load_Ok. apply lookup_lt_Some in L. lia. Qed.

(** A load sees the buffer and the absolute position only. *)
Lemma load_shift (buf : list T) (pos pos' k k' : Z) :
  pos + k = pos' + k' → load (Ptr buf pos) k = load (Ptr buf pos') k'.
Proof. unfold load. simpl. now intros ->. Qed.

Lemma load_ptr_add p n k : load (ptr_add p n) k = load p (n + k).
Proof. destruct p as [buf pos]. unfold ptr_add. simpl. apply load_shift. lia. Qed.

Lemma store_Ok p k v :
  0 ≤ p_pos p + k < Z.of_nat (length (p_buf p)) →
  store p k v = Ok (Ptr (<[Z.to_nat (p_pos p + k) := v]> (p_buf p)) (p_pos p)).
Proof. intros Hb. unfold store. apply in_bounds_true in Hb. now rewrite Hb. Qed.

Lemma store_inv p k v p' :
  store p k v = Ok p' →
  0 ≤ p_pos p + k < Z.of_nat (length (p_buf p)) ∧
  p' = Ptr (<[Z.to_nat (p_pos p + k) := v]> (p_buf p)) (p_pos p).
Proof.
  unfold store. destruct (in_bounds _ _) eqn:E; [|done].
  apply in_bounds_true in E. intros [= <-]. done.
Qed.

Lemma load_store_eq p k v :
  0 ≤ p_pos p + k < Z.of_nat (length (p_buf p)) →
  load (Ptr (<[Z.to_nat (p_pos p + k) := v]> (p_buf p)) (p_pos p)) k = Ok v.
Proof.
  intros Hb. apply load_Ok. simpl. split; [lia|].
  apply list_lookup_insert_eq. lia.
Qed.

Lemma load_store_ne p k k' v :
  0 ≤ p_pos p + k → k ≠ k' →
  load (Ptr (<[Z.to_nat (p_pos p + k) := v]> (p_buf p)) (p_pos p)) k' = load p k'.
Proof.
  intros Hb Hne. unfold load, in_bounds. simpl. rewrite length_insert.
  destruct (0 <=? p_pos p + k') eqn:E0; simpl; [|done].
  apply Z.leb_le in E0.
  rewrite list_lookup_insert_ne by lia. done.
Qed.


(** What a loop of guarded copies leaves in the destination, whatever the
    order of its iterations: positions no iteration writes keep their
    contents, and a position whose writers agree on a value holds it. *)
Lemma copy_loop {I} (guard : I → bool) (rd : I → outcome T) (wr : I → Z)
    (idxs : list I) (out : ptr T) :
  (∀ idx, idx ∈ idxs → guard idx = true →
     (∃ v, rd idx = Ok v) ∧ 0 ≤ p_pos out + wr idx < Z.of_nat (length (p_buf out))) →
  ∃ out', for_each idxs (copy_step guard rd wr) out = Ok out' ∧
    p_pos out' = p_pos out ∧ length (p_buf out') = length (p_buf out) ∧
    (∀ k, (∀ idx, idx ∈ idxs → guard idx = true → wr idx ≠ k) → load out' k = load out k) ∧
    (∀ k v, (∃ idx, idx ∈ idxs ∧ guard idx = true ∧ wr idx = k) →
            (∀ idx, idx ∈ idxs → guard idx = true → wr idx = k → rd idx = Ok v) →
            load out' k = Ok v).
Proof.
  revert out. induction idxs as [|a l IH]; intros out Hok.
  - exists out. simpl. repeat split; auto.
    intros k v (idx & Hin & _). inversion Hin.
  - assert (Hl : ∀ out1 : ptr T, p_pos out1 = p_pos out → length (p_buf out1) = length (p_buf out) →
        ∀ idx, idx ∈ l → guard idx = true →
          (∃ v, rd idx = Ok v) ∧ 0 ≤ p_pos out1 + wr idx < Z.of_nat (length (p_buf out1))).
    { intros out1 -> -> idx Hin Hg. apply Hok; [now right|done]. }
    simpl. unfold copy_step at 1. destruct (guard a) eqn:Hg.
    + destruct (Hok a) as [[va Hva] Hb]; [left|done|].
      rewrite Hva. simpl. rewrite store_Ok by done. simpl.
      set (out1 := Ptr _ _).
      destruct (IH out1) as (out' & E & Hpos & Hlen & Hsame & Hval).
      { apply Hl; [done|]. subst out1. simpl. apply length_insert. }
      exists out'. split; [done|]. split; [done|]. split.
      { rewrite Hlen. subst out1. simpl. apply length_insert. }
      split.
      * intros k Hno. rewrite Hsame by (intros; apply Hno; [now right|done]).
        subst out1. apply load_store_ne; [lia|]. apply Hno; [left|done].
      * intros k v Hex Hall.
        destruct (decide (Exists (λ idx, guard idx = true ∧ wr idx = k) l)) as [Hx|Hx].
        { apply Exists_exists in Hx as (idx & Hin & Hg' & Hw).
          apply Hval; [eauto|]. intros. apply Hall; [now right|done..]. }
        rewrite Hsame.
        2:{ intros idx Hin Hg' Hw. apply Hx, Exists_exists. eauto. }
        destruct Hex as (idx & Hin & Hg' & Hw).
        apply elem_of_cons in Hin as [->|Hin]; [|exfalso; apply Hx, Exists_exists; eauto].
        assert (va = v) as ->.
        { assert (rd a = Ok v) by (apply Hall; [left|done..]). congruence. }
        subst out1 k. now apply load_store_eq.
    + destruct (IH out) as (out' & E & Hpos & Hlen & Hsame & Hval).
      { now apply Hl. }
      exists out'. repeat split; auto.
      * intros k Hno. apply Hsame. intros. apply Hno; [now right|done].
      * intros k v (idx & Hin & Hg' & Hw) Hall.
        apply elem_of_cons in Hin as [->|Hin]; [congruence|].
        apply Hval; [eauto|]. intros. apply Hall; [now right|done..].
Qed.

End Memory.

(** ** Array2 views *)

Lemma stride_inj (s i1 j1 i2 j2 : Z) :
  0 ≤ j1 < s → 0 ≤ j2 < s → i1 * s + j1 = i2 * s + j2 → i1 = i2 ∧ j1 = j2.
Proof. intros H1 H2 E. assert (i1 = i2) by nia. subst. lia. Qed.

Lemma elem_of_index_pairs (m n : Z) (ij : Z * Z) :
  ij ∈ index_pairs m n ↔ (0 ≤ ij.1 < m) ∧ (0 ≤ ij.2 < n).
Proof.
  unfold index_pairs. rewrite list_elem_of_cprod, !elem_of_seqZ. lia.
Qed.

Lemma elem_of_schedule (c : Context) (l : list (Z * Z)) (x : Z * Z) :
  x ∈ schedule c l ↔ x ∈ l.
Proof. now rewrite (schedule_perm c l). Qed.

Section Array2Views.
Context {T : Type} `{ElemType T}.
Implicit Types (a src dest : Array2 T).


Lemma Array2_valid_cell a i j :
  Array2_valid a → 0 ≤ i < Dim0 a → 0 ≤ j < Dim1 a →
  0 ≤ p_pos (Array2_Data a) + (i * ElemStride0 a + j)
    < Z.of_nat (length (p_buf (Array2_Data a))).
Proof.
  intros (H0 & H1 & Hs & Ho & Hlen) Hi Hj. simpl.
  pose proof ElementSize_pos as Hes.
  assert (0 ≤ a2_byte_offset a / ElementSize) by (apply Z.div_pos; lia).
  specialize (Hlen ltac:(lia) ltac:(lia)). nia.
Qed.

Lemma Array2_get_valid a i j :
  Array2_valid a → 0 ≤ i < Dim0 a → 0 ≤ j < Dim1 a → ∃ v, Array2_get a i j = Ok v.
Proof. intros. apply load_in_bounds. now apply Array2_valid_cell. Qed.

Lemma Array2_valid_written a (out : ptr T) :
  Array2_valid a → length (p_buf out) = length (region_data (a2_region a)) →
  Array2_valid (Array2_written a out).
Proof. unfold Array2_valid. simpl. intros Hv ->. done. Qed.

Lemma Array2_get_written a (out : ptr T) i j :
  p_pos out = p_pos (Array2_Data a) →
  Array2_get (Array2_written a out) i j = load out (i * ElemStride0 a + j).
Proof.
  intros Hp. unfold Array2_get. simpl. destruct out as [buf pos]. simpl in *. now subst.
Qed.


(** The host loop nest of Transpose. *)
Lemma Transpose_host_loop src dest :
  Array2_valid src → Array2_valid dest →
  Dim0 src = Dim1 dest → Dim1 src = Dim0 dest →
  ∃ out,
    for_each (seqZ 0 (Dim1 src)) (λ i,
      for_each (seqZ 0 (Dim0 src)) (λ j dest_data,
        bind (load (Array2_Data src) (j * ElemStride0 src + i))
             (λ v, store dest_data (i * ElemStride0 dest + j) v)))
      (Array2_Data dest) = Ok out ∧ transposed src dest out.
Proof.
  intros Hs Hd E0 E1.
  rewrite for_each_cprod. fold (index_pairs (Dim1 src) (Dim0 src)).
  destruct (copy_loop (λ _ : Z * Z, true)
              (λ ij, load (Array2_Data src) (ij.2 * ElemStride0 src + ij.1))
              (λ ij, ij.1 * ElemStride0 dest + ij.2)
              (index_pairs (Dim1 src) (Dim0 src)) (Array2_Data dest))
    as (out & E & Hpos & Hlen & Hsame & Hval).
  { intros [i j] [Hi Hj]%elem_of_index_pairs _. simpl in *. split.
    - apply load_in_bounds, Array2_valid_cell; [done|lia..].
    - apply Array2_valid_cell; [done|lia..]. }
  exists out. split; [exact E|]. split; [done|]. split; [done|]. split.
  - intros i j Hi Hj.
    destruct (Array2_get_valid src j i) as [v Hv]; [done|lia|lia|].
    rewrite Hv. apply Hval.
    + exists (i, j). rewrite elem_of_index_pairs. simpl. split; [lia|done].
    + intros [i' j'] [Hi' Hj']%elem_of_index_pairs _ Hw. simpl in *.
      destruct Hd as (_ & _ & Hst & _).
      apply stride_inj in Hw as [-> ->]; [done|lia..].
  - intros k Hk. apply Hsame.
    intros [i j] [Hi Hj]%elem_of_index_pairs _. simpl in *. apply Hk; lia.
Qed.

End Array2Views.

(** ** The tiled transpose kernel *)

Lemma strided_range_tile :
  strided_range 0 kTransTileDim kTransBlockRows = [0; 8; 16; 24].
Proof. reflexivity. Qed.

Lemma elem_of_tile_rows (i : Z) :
  i ∈ strided_range 0 kTransTileDim kTransBlockRows ↔ i = 0 ∨ i = 8 ∨ i = 16 ∨ i = 24.
Proof.
  rewrite strided_range_tile. rewrite !elem_of_cons, elem_of_nil. tauto.
Qed.

Lemma NumBlocks_covers (size i : Z) :
  0 ≤ i < size → 0 ≤ i / kTransTileDim < NumBlocks size kTransTileDim.
Proof.
  unfold NumBlocks, kTransTileDim. intros Hi.
  Z.to_euclidean_division_equations. lia.
Qed.

Section Kernel.
Context {T : Type} `{ElemType T}.
Implicit Types (src dest : Array2 T) (b t : Z * Z).


Lemma length_fresh (n : Z) : length (fresh (T:=T) n) = Z.to_nat n.
Proof. unfold fresh. now rewrite length_fmap, length_seqZ. Qed.

Lemma cache_new_length : length (p_buf (cache_new (T:=T))) = 1056%nat.
Proof. unfold cache_new. cbn [p_buf]. now rewrite length_fresh. Qed.

(** The first phase of a block fills the cache with its tile of the input. *)
Lemma TransposeKernel_read_phase c src b :
  Array2_valid src → 0 ≤ b.1 → 0 ≤ b.2 →
  ∃ cache,
    for_each (schedule c (index_pairs kTransTileDim kTransBlockRows))
      (TransposeKernel_read (Dim0 src) (Dim1 src) (ElemStride0 src) (Array2_Data src) b)
      cache_new = Ok cache ∧
    p_pos cache = 0 ∧
    ∀ r q, 0 ≤ r < kTransTileDim → 0 ≤ q < kTransTileDim →
      r + b.2 * kTransTileDim < Dim0 src → q + b.1 * kTransTileDim < Dim1 src →
      load cache (cache_index r q) =
        Array2_get src (r + b.2 * kTransTileDim) (q + b.1 * kTransTileDim).
Proof.
  intros Hs Hb1 Hb2.
  set (threads := schedule c (index_pairs kTransTileDim kTransBlockRows)).
  set (tile := strided_range 0 kTransTileDim kTransBlockRows).
  pose (g := λ ti : Z * Z * Z, (read_col b ti <? Dim1 src) && (read_row b ti <? Dim0 src)).
  pose (rd := λ ti : Z * Z * Z,
          load (Array2_Data src) (read_row b ti * ElemStride0 src + read_col b ti)).
  pose (wr := λ ti : Z * Z * Z, cache_index (ti.1.2 + ti.2) ti.1.1).
  assert (Hmem : ∀ ti, ti ∈ cprod threads tile →
            (0 ≤ ti.1.1 < 32 ∧ 0 ≤ ti.1.2 < 8) ∧
            (ti.2 = 0 ∨ ti.2 = 8 ∨ ti.2 = 16 ∨ ti.2 = 24)).
  { intros ti [Ht Hi]%list_elem_of_cprod. subst threads tile.
    apply elem_of_schedule, elem_of_index_pairs in Ht.
    apply elem_of_tile_rows in Hi. unfold kTransTileDim, kTransBlockRows in Ht. done. }
  destruct (copy_loop g rd wr (cprod threads tile) cache_new)
    as (cache & E & Hpos & Hlen & _ & Hval).
  { intros ti [Ht Hi]%Hmem Hg. subst g rd wr. cbv beta in *.
    apply andb_true_iff in Hg as [Hc%Z.ltb_lt Hr%Z.ltb_lt].
    unfold read_col, read_row, kTransTileDim in *. split.
    - apply load_in_bounds, Array2_valid_cell; [done|lia..].
    - rewrite cache_new_length. change (p_pos cache_new) with 0.
      unfold cache_index, kTransTileDim. lia. }
  exists cache. split; [|split; [done|]].
  - rewrite <- E. unfold TransposeKernel_read.
    exact (for_each_cprod threads tile (λ t i, copy_step g rd wr (t, i)) cache_new).
  - intros r q Hr Hq Hrow Hcol. unfold kTransTileDim in *.
    destruct (Array2_get_valid src (r + b.2 * 32) (q + b.1 * 32)) as [v Hv];
      [done|lia|lia|].
    rewrite Hv. apply Hval.
    + exists ((q, r mod 8), r - r mod 8). split; [|split].
      * apply list_elem_of_cprod. simpl. split.
        -- apply elem_of_schedule, elem_of_index_pairs. simpl.
           unfold kTransTileDim, kTransBlockRows.
           Z.to_euclidean_division_equations. lia.
        -- apply elem_of_tile_rows. Z.to_euclidean_division_equations. lia.
      * subst g. simpl. unfold read_col, read_row, kTransTileDim. simpl.
        apply andb_true_iff. rewrite !Z.ltb_lt. lia.
      * subst wr. simpl. f_equal. lia.
    + intros ti [Ht Hi]%Hmem Hg Hw. subst g rd wr. simpl in *.
      unfold cache_index, kTransTileDim in Hw.
      apply stride_inj in Hw as [Er Eq]; [|lia|lia].
      rewrite <- Hv. unfold Array2_get, read_row, read_col, kTransTileDim.
      f_equal. rewrite <- Er, <- Eq. lia.
Qed.

(** A whole block copies its tile: after the barrier every thread finds in
    the cache the input elements it is to write. *)
Lemma TransposeKernel_block c src (os : Z) b (output : ptr T) :
  Array2_valid src → 0 ≤ b.1 → 0 ≤ b.2 →
  bind (for_each (schedule c (index_pairs kTransTileDim kTransBlockRows))
          (TransposeKernel_read (Dim0 src) (Dim1 src) (ElemStride0 src) (Array2_Data src) b)
          cache_new)
       (λ cache, for_each (schedule c (index_pairs kTransTileDim kTransBlockRows))
          (TransposeKernel_write (Dim0 src) (Dim1 src) os cache b) output)
  = for_each (cprod (schedule c (index_pairs kTransTileDim kTransBlockRows))
                    (strided_range 0 kTransTileDim kTransBlockRows))
      (copy_step
         (λ ti, (write_col b ti <? Dim0 src) && (write_row b ti <? Dim1 src))
         (λ ti, load (Array2_Data src) (write_col b ti * ElemStride0 src + write_row b ti))
         (λ ti, write_row b ti * os + write_col b ti))
      output.
Proof.
  intros Hs Hb1 Hb2.
  destruct (TransposeKernel_read_phase c src b Hs Hb1 Hb2) as (cache & E & Hpos & Hcells).
  rewrite E. cbn [bind].
  set (threads := schedule c (index_pairs kTransTileDim kTransBlockRows)).
  set (tile := strided_range 0 kTransTileDim kTransBlockRows).
  set (g := λ ti : Z * Z * Z, (write_col b ti <? Dim0 src) && (write_row b ti <? Dim1 src)).
  set (wr := λ ti : Z * Z * Z, write_row b ti * os + write_col b ti).
  etrans.
  { exact (for_each_cprod threads tile
             (λ t i, copy_step g
                (λ ti, load cache (cache_index ti.1.1 (ti.1.2 + ti.2))) wr (t, i)) output). }
  apply for_each_ext. intros ti out [Ht Hi]%list_elem_of_cprod.
  subst threads tile.
  apply elem_of_schedule, elem_of_index_pairs in Ht. apply elem_of_tile_rows in Hi.
  destruct ti as [[tx ty] i]. unfold copy_step. cbn [fst snd] in *.
  destruct (g (tx, ty, i)) eqn:Hg; [|done].
  subst g. cbv beta in Hg. unfold write_col, write_row in *. cbn [fst snd] in *.
  apply andb_true_iff in Hg as [Hc%Z.ltb_lt Hr%Z.ltb_lt].
  unfold kTransTileDim, kTransBlockRows in *.
  rewrite Hcells by (unfold kTransTileDim; lia).
  unfold Array2_get, kTransTileDim. do 2 f_equal. lia.
Qed.

(** The kernel launched by Transpose writes the transposed source. *)
Lemma TransposeKernel_spec c src dest :
  Array2_valid src → Array2_valid dest →
  Dim0 src = Dim1 dest → Dim1 src = Dim0 dest →
  ∃ out,
    TransposeKernel c
      (NumBlocks (Dim1 src) kTransTileDim, NumBlocks (Dim0 src) kTransTileDim)
      (kTransTileDim, kTransBlockRows) (Dim0 src) (Dim1 src)
      (ElemStride0 src) (ElemStride0 dest) (Array2_Data src) (Array2_Data dest) = Ok out ∧
    transposed src dest out.
Proof.
  intros Hs Hd E0 E1. unfold TransposeKernel. cbn [fst snd].
  set (blocks := schedule c (index_pairs _ _)).
  set (threads := schedule c (index_pairs kTransTileDim kTransBlockRows)).
  set (tile := strided_range 0 kTransTileDim kTransBlockRows).
  pose (g := λ bt : Z * Z * (Z * Z * Z),
          (write_col bt.1 bt.2 <? Dim0 src) && (write_row bt.1 bt.2 <? Dim1 src)).
  pose (rd := λ bt : Z * Z * (Z * Z * Z),
          load (Array2_Data src)
               (write_col bt.1 bt.2 * ElemStride0 src + write_row bt.1 bt.2)).
  pose (wr := λ bt : Z * Z * (Z * Z * Z),
          write_row bt.1 bt.2 * ElemStride0 dest + write_col bt.1 bt.2).
  assert (Hmem : ∀ bt, bt ∈ cprod blocks (cprod threads tile) →
            (0 ≤ bt.1.1 < NumBlocks (Dim1 src) kTransTileDim ∧
             0 ≤ bt.1.2 < NumBlocks (Dim0 src) kTransTileDim) ∧
            (0 ≤ bt.2.1.1 < 32 ∧ 0 ≤ bt.2.1.2 < 8) ∧
            (bt.2.2 = 0 ∨ bt.2.2 = 8 ∨ bt.2.2 = 16 ∨ bt.2.2 = 24)).
  { intros bt [Hb [Ht Hi]%list_elem_of_cprod]%list_elem_of_cprod. subst blocks threads tile.
    apply elem_of_schedule, elem_of_index_pairs in Hb.
    apply elem_of_schedule, elem_of_index_pairs in Ht.
    apply elem_of_tile_rows in Hi. done. }
  destruct (copy_loop g rd wr (cprod blocks (cprod threads tile)) (Array2_Data dest))
    as (out & E & Hpos & Hlen & Hsame & Hval).
  { intros bt (Hb & Ht & Hi)%Hmem Hg. subst g rd wr. cbv beta in *.
    apply andb_true_iff in Hg as [Hc%Z.ltb_lt Hr%Z.ltb_lt].
    unfold write_col, write_row, kTransTileDim in *. split.
    - apply load_in_bounds, Array2_valid_cell; [done|lia..].
    - apply Array2_valid_cell; [done|lia..]. }
  exists out. split; [|split; [done|split; [done|split]]].
  - rewrite <- E. etrans; [|exact (for_each_cprod blocks (cprod threads tile)
                                     (λ b ti, copy_step g rd wr (b, ti)) (Array2_Data dest))].
    apply for_each_ext. intros b output Hb. subst blocks.
    apply elem_of_schedule, elem_of_index_pairs in Hb.
    apply TransposeKernel_block; [done|lia..].
  - intros i j Hi Hj.
    destruct (Array2_get_valid src j i) as [v Hv]; [done|lia|lia|].
    rewrite Hv. apply Hval.
    + exists ((i / 32, j / 32), ((j mod 32, (i mod 32) mod 8), i mod 32 - (i mod 32) mod 8)).
      split; [|split].
      * apply list_elem_of_cprod. cbn [fst snd]. split; [|apply list_elem_of_cprod; split].
        -- apply elem_of_schedule, elem_of_index_pairs. cbn [fst snd].
           split; apply (NumBlocks_covers _ _); lia.
        -- apply elem_of_schedule, elem_of_index_pairs. cbn [fst snd].
           unfold kTransTileDim, kTransBlockRows.
           Z.to_euclidean_division_equations. lia.
        -- apply elem_of_tile_rows. cbn [fst snd]. Z.to_euclidean_division_equations. lia.
      * subst g. cbv beta. unfold write_col, write_row, kTransTileDim. cbn [fst snd].
        apply andb_true_iff. rewrite !Z.ltb_lt.
        Z.to_euclidean_division_equations. lia.
      * subst wr. cbv beta. unfold write_col, write_row, kTransTileDim. cbn [fst snd].
        f_equal; Z.to_euclidean_division_equations; lia.
    + intros bt (Hb & Ht & Hti)%Hmem Hg Hw. subst g rd wr. cbv beta in *.
      apply andb_true_iff in Hg as [Hc%Z.ltb_lt Hr%Z.ltb_lt].
      destruct Hd as (_ & _ & Hst & _).
      unfold write_col, write_row, kTransTileDim in *.
      apply stride_inj in Hw as [Er Eq]; [|lia|lia].
      rewrite <- Hv. unfold Array2_get. f_equal. lia.
  - intros k Hk. apply Hsame.
    intros bt (Hb & Ht & Hti)%Hmem Hg. subst g rd wr. cbv beta in *.
    apply andb_true_iff in Hg as [Hc%Z.ltb_lt Hr%Z.ltb_lt].
    unfold write_col, write_row, kTransTileDim in *. apply Hk; lia.
Qed.

(** Transpose on either backend: with compatible contexts and matching
    dimensions it completes and leaves the transposed source in [dest]. *)
Lemma Transpose_spec c src dest :
  IsCompatible c (Array2_Context src) = true →
  IsCompatible c (Array2_Context dest) = true →
  Array2_valid src → Array2_valid dest →
  Dim0 src = Dim1 dest → Dim1 src = Dim0 dest →
  ∃ out, Transpose c src dest = Ok (Array2_written dest out) ∧ transposed src dest out.
Proof.
  intros Hc1 Hc2 Hs Hd E0 E1. unfold Transpose.
  rewrite Hc1, Hc2. cbn [K2_CHECK bind].
  unfold K2_CHECK_EQ. rewrite !K2_CHECK_true by (apply Z.eqb_eq; lia). cbn [bind].
  destruct (GetDeviceType c).
  - destruct (Transpose_host_loop src dest Hs Hd E0 E1) as (out & E & Ht).
    exists out. split; [|done]. unfold bind at 1. now rewrite E.
  - destruct (TransposeKernel_spec c src dest Hs Hd E0 E1) as (out & E & Ht).
    exists out. split; [|done]. now rewrite E.
Qed.

End Kernel.

(** ** Transpose: the round trip *)

Section TransposeRoundTrip.
Context {T : Type} `{ElemType T}.

(** C3. Transposing a valid (possibly strided) view [M] into a destination
    with the dimensions swapped, and transposing the result back into a
    destination with the dimensions of [M], completes on either backend and
    yields an array whose element (i, j) is element (i, j) of [M]. *)
Theorem Transpose_round_trip (c : Context) (M D1 D2 : Array2 T) :
  IsCompatible c (Array2_Context M) = true →
  IsCompatible c (Array2_Context D1) = true →
  IsCompatible c (Array2_Context D2) = true →
  Array2_valid M → Array2_valid D1 → Array2_valid D2 →
  Dim0 D1 = Dim1 M → Dim1 D1 = Dim0 M →
  Dim0 D2 = Dim0 M → Dim1 D2 = Dim1 M →
  ∃ D1' D2',
    Transpose c M D1 = Ok D1' ∧ Transpose c D1' D2 = Ok D2' ∧
    Dim0 D2' = Dim0 M ∧ Dim1 D2' = Dim1 M ∧
    ∀ i j, 0 ≤ i < Dim0 M → 0 ≤ j < Dim1 M →
      ∃ v, Array2_get M i j = Ok v ∧ Array2_get D2' i j = Ok v.
Proof.
  intros HcM Hc1 Hc2 HvM Hv1 Hv2 E10 E11 E20 E21.
  destruct (Transpose_spec c M D1) as (out1 & Et1 & Hp1 & Hl1 & Hc1' & _); [done..|lia|lia|].
  set (D1' := Array2_written D1 out1) in *.
  assert (Hv1' : Array2_valid D1') by now apply Array2_valid_written.
  destruct (Transpose_spec c D1' D2) as (out2 & Et2 & Hp2 & Hl2 & Hc2' & _);
    [done..|simpl; lia|simpl; lia|].
  exists D1', (Array2_written D2 out2). split; [done|]. split; [done|].
  split; [done|]. split; [done|].
  intros i j Hi Hj.
  destruct (Array2_get_valid M i j) as [v Hv]; [done..|].
  exists v. split; [done|].
  rewrite Array2_get_written by done. rewrite Hc2' by lia.
  subst D1'. rewrite Array2_get_written by done. rewrite Hc1' by lia. done.
Qed.

End TransposeRoundTrip.

(** ** ToContiguous *)

Section Contiguous.
Context {T : Type} `{ElemType T}.
Implicit Types (src x : Array2 T).

(** A 2-D launch of guarded copies, on either backend. *)
Lemma Eval2_copy (c : Context) (m n : Z) (guard : Z * Z → bool) (rd : Z * Z → outcome T)
    (wr : Z * Z → Z) (out : ptr T) :
  (∀ ij, ij ∈ index_pairs m n → guard ij = true →
     (∃ v, rd ij = Ok v) ∧ 0 ≤ p_pos out + wr ij < Z.of_nat (length (p_buf out))) →
  ∃ out', Eval2 c m n (λ i j, copy_step guard rd wr (i, j)) out = Ok out' ∧
    p_pos out' = p_pos out ∧ length (p_buf out') = length (p_buf out) ∧
    (∀ k, (∀ ij, ij ∈ index_pairs m n → guard ij = true → wr ij ≠ k) →
          load out' k = load out k) ∧
    (∀ k v, (∃ ij, ij ∈ index_pairs m n ∧ guard ij = true ∧ wr ij = k) →
            (∀ ij, ij ∈ index_pairs m n → guard ij = true → wr ij = k → rd ij = Ok v) →
            load out' k = Ok v).
Proof.
  intros Hok. unfold Eval2. destruct (GetDeviceType c).
  - rewrite (for_each_cprod (seqZ 0 m) (seqZ 0 n) (λ i j, copy_step guard rd wr (i, j))).
    fold (index_pairs m n).
    rewrite (for_each_ext _ _ (copy_step guard rd wr)) by (now intros [i j]).
    now apply copy_loop.
  - rewrite (for_each_ext _ _ (copy_step guard rd wr)) by (now intros [i j]).
    destruct (copy_loop guard rd wr (schedule c (index_pairs m n)) out)
      as (out' & E & Hpos & Hlen & Hsame & Hval).
    { intros ij Hin%elem_of_schedule. now apply Hok. }
    exists out'. repeat split; auto.
    + intros k Hk. apply Hsame. intros ij Hin%elem_of_schedule. now apply Hk.
    + intros k v (ij & Hin & Hg & Hw) Hall. apply Hval.
      * exists ij. now rewrite elem_of_schedule.
      * intros ij' Hin'%elem_of_schedule. now apply Hall.
Qed.

Lemma Array2_new_length (c : Context) (dim0 dim1 : Z) :
  length (region_data (a2_region (Array2_new (T:=T) c dim0 dim1))) = Z.to_nat (dim0 * dim1).
Proof.
  unfold Array2_new, NewRegion. cbn [a2_region region_data].
  rewrite length_fresh, Z.div_mul; [done|]. pose proof ElementSize_pos. lia.
Qed.

Lemma ToContiguous_noncontiguous (src : Array2 T) :
  Array2_valid src → ElemStride0 src ≠ Dim1 src →
  ∃ ans,
    ToContiguous src = Ok ans ∧
    Array2_Context ans = Array2_Context src ∧
    Dim0 ans = Dim0 src ∧ Dim1 ans = Dim1 src ∧ ElemStride0 ans = Dim1 src ∧
    a2_byte_offset ans = 0 ∧
    length (region_data (a2_region ans)) = Z.to_nat (Dim0 src * Dim1 src) ∧
    ∀ i j, 0 ≤ i < Dim0 src → 0 ≤ j < Dim1 src →
      ∃ v, Array2_get src i j = Ok v ∧ Array2_get ans i j = Ok v.
Proof.
  intros Hv Hne. unfold ToContiguous.
  destruct (Z.eqb_spec (Dim1 src) (ElemStride0 src)) as [Heq|_]; [congruence|].
  set (ans := Array2_new (Array2_Context src) (Dim0 src) (Dim1 src)).
  destruct (Eval2_copy (Array2_Context src) (Dim0 src) (Dim1 src) (λ _, true)
              (λ ij, load (Array2_Data src) (ij.1 * ElemStride0 src + ij.2))
              (λ ij, ij.1 * Dim1 src + ij.2) (Array2_Data ans))
    as (out & E & Hpos & Hlen & _ & Hval).
  { intros [i j] [Hi Hj]%elem_of_index_pairs _. cbn [fst snd] in *. split.
    - apply load_in_bounds. now apply Array2_valid_cell.
    - subst ans. cbn [Array2_Data p_buf p_pos]. rewrite Array2_new_length.
      cbn [Array2_new a2_byte_offset]. rewrite Z.div_0_l by (pose proof ElementSize_pos; lia).
      nia. }
  exists (Array2_written ans out). split.
  { etrans; [|exact (f_equal (λ o, bind o (λ out, Ok (Array2_written ans out))) E)].
    reflexivity. }
  cbn [Array2_written Array2_Context a2_region region_context region_data
       Dim0 Dim1 ElemStride0 a2_byte_offset].
  split; [done|]. split; [done|]. split; [done|]. split; [done|]. split; [done|].
  split. { rewrite Hlen. cbn [Array2_Data p_buf]. apply Array2_new_length. }
  intros i j Hi Hj.
  destruct (Array2_get_valid src i j) as [v Hg]; [done..|].
  exists v. split; [done|].
  rewrite Array2_get_written by done. apply Hval.
  - exists (i, j). rewrite elem_of_index_pairs. cbn [fst snd]. done.
  - intros [i' j'] [Hi' Hj']%elem_of_index_pairs _ Hw. cbn [fst snd] in *.
    subst ans. cbn [Array2_new ElemStride0] in Hw.
    apply stride_inj in Hw as [-> ->]; [done|lia..].
Qed.

(** C6. ToContiguous is idempotent: applying it to its own result returns
    that result; for a valid view it completes, so that the second
    application returns the very array the first one returned; and a view
    that is already contiguous (ElemStride0 = Dim1) is returned unchanged. *)
Theorem ToContiguous_idempotent :
  (∀ x : Array2 T, bind (ToContiguous x) ToContiguous = ToContiguous x) ∧
  (∀ x : Array2 T, Array2_valid x →
     ∃ y, ToContiguous x = Ok y ∧ ToContiguous y = Ok y) ∧
  (∀ x : Array2 T, ElemStride0 x = Dim1 x → ToContiguous x = Ok x).
Proof.
  assert (Hc : ∀ x : Array2 T, ElemStride0 x = Dim1 x → ToContiguous x = Ok x).
  { intros x Hx. unfold ToContiguous. now rewrite Hx, Z.eqb_refl. }
  assert (Hr : ∀ x y : Array2 T, ToContiguous x = Ok y → ToContiguous y = Ok y).
  { intros x y. unfold ToContiguous at 1.
    destruct (Z.eqb_spec (Dim1 x) (ElemStride0 x)) as [Heq|_].
    - intros [= <-]. now apply Hc.
    - intros (out & _ & [= <-])%bind_Ok_inv. now apply Hc. }
  split; [|split; [|done]].
  - intros x. destruct (ToContiguous x) as [y| |] eqn:E; [|done..].
    simpl. eauto.
  - intros x Hv. destruct (decide (ElemStride0 x = Dim1 x)) as [Heq|Hne].
    + exists x. split; now apply Hc.
    + destruct (ToContiguous_noncontiguous x Hv Hne) as (y & E & _). eauto.
Qed.

(** C10. For a valid view that is not contiguous, ToContiguous returns the
    array it allocated in the context of the source (offset 0 of a region of
    exactly Dim0 * Dim1 elements), with the dimensions of the source, row
    stride Dim1, and at every position (i, j) the element of the source. *)
Theorem ToContiguous_copies (src : Array2 T) :
  Array2_valid src → ElemStride0 src ≠ Dim1 src →
  ∃ ans,
    ToContiguous src = Ok ans ∧
    Array2_Context ans = Array2_Context src ∧
    Dim0 ans = Dim0 src ∧ Dim1 ans = Dim1 src ∧ ElemStride0 ans = Dim1 src ∧
    a2_byte_offset ans = 0 ∧
    length (region_data (a2_region ans)) = Z.to_nat (Dim0 src * Dim1 src) ∧
    ∀ i j, 0 ≤ i < Dim0 src → 0 ≤ j < Dim1 src →
      ∃ v, Array2_get src i j = Ok v ∧ Array2_get ans i j = Ok v.
Proof. apply ToContiguous_noncontiguous. Qed.

End Contiguous.

(** ** ExclusiveSum *)

Lemma seqZ_split (m n : Z) (done rest : list Z) (i : Z) :
  seqZ m n = done ++ i :: rest →
  i = m + Z.of_nat (length done) ∧ Z.of_nat (length done) < n.
Proof.
  intros E. assert (L : seqZ m n !! length done = Some i).
  { rewrite E. now apply list_lookup_middle. }
  now apply lookup_seqZ in L.
Qed.

Section SumProps.
Context {T : Type} `{ElemType T} `{Numeric T}.


Lemma sum_upto_0 (f : Z → T) : sum_upto f 0 = num_zero.
Proof. reflexivity. Qed.

Lemma sum_upto_succ (f : Z → T) (j : Z) :
  0 ≤ j → sum_upto f (j + 1) = num_add (sum_upto f j) (f j).
Proof.
  intros Hj. unfold sum_upto, sum_of.
  rewrite seqZ_app, fmap_app, foldl_app by lia.
  rewrite (seqZ_cons (0 + j) 1) by lia. rewrite (seqZ_nil _ (Z.pred 1)) by lia.
  simpl. f_equal.
Qed.

(** The 1-D exclusive sum: dest[j] is the sum of src[0..j). *)
Lemma ExclusiveSum_spec (c : Context) (n : Z) (src dest : ptr T) (f : Z → T) :
  (∀ k, 0 ≤ k < n - 1 → load src k = Ok (f k)) →
  (∀ k, 0 ≤ k < n → 0 ≤ p_pos dest + k < Z.of_nat (length (p_buf dest))) →
  ∃ dest', ExclusiveSum c n src dest = Ok dest' ∧
    p_pos dest' = p_pos dest ∧ length (p_buf dest') = length (p_buf dest) ∧
    (∀ j, 0 ≤ j < n → load dest' j = Ok (sum_upto f j)) ∧
    (∀ k, ¬ (0 ≤ k < n) → load dest' k = load dest k).
Proof.
  intros Hsrc Hdest. unfold ExclusiveSum.
  destruct (Z.leb_spec n 0) as [Hn|Hn].
  { exists dest. repeat split; auto. intros; lia. }
  rewrite store_Ok by (apply Hdest; lia). cbn [bind].
  set (d0 := Ptr _ _).
  destruct (for_each_inv
    (λ done d, p_pos d = p_pos dest ∧ length (p_buf d) = length (p_buf dest) ∧
       (∀ j, 0 ≤ j < 1 + Z.of_nat (length done) → load d j = Ok (sum_upto f j)) ∧
       (∀ k, ¬ (0 ≤ k < 1 + Z.of_nat (length done)) → load d k = load dest k))
    (seqZ 1 (n - 1))
    (λ i d, bind (load d (i - 1)) (λ prev,
            bind (load src (i - 1)) (λ s, store d i (num_add prev s)))) d0)
    as (d & E & Hpos & Hlen & Hval & Hframe).
  - subst d0. cbn [p_pos p_buf length]. rewrite length_insert.
    repeat split; auto.
    + intros j Hj. assert (j = 0) as -> by lia. rewrite sum_upto_0.
      apply load_store_eq. apply Hdest. lia.
    + intros k Hk. apply load_store_ne; [|lia]. specialize (Hdest 0). lia.
  - intros done i d (Hpos & Hlen & Hval & Hframe) [rest [-> Hlt]%seqZ_split].
    rewrite Hval by lia. cbn [bind].
    rewrite Hsrc by lia. cbn [bind].
    assert (Hb : 0 ≤ p_pos d + (1 + Z.of_nat (length done)) < Z.of_nat (length (p_buf d))).
    { rewrite Hpos, Hlen. apply Hdest. lia. }
    rewrite store_Ok by done. eexists. split; [done|].
    cbn [p_pos p_buf]. rewrite length_insert, length_app. cbn [length].
    repeat split; auto.
    + intros j Hj. destruct (decide (j = 1 + Z.of_nat (length done))) as [->|Hne].
      * rewrite load_store_eq by done. f_equal.
        replace (1 + Z.of_nat (length done)) with (Z.of_nat (length done) + 1) by lia.
        rewrite sum_upto_succ by lia. do 2 f_equal; lia.
      * rewrite load_store_ne by lia. apply Hval. lia.
    + intros k Hk. rewrite load_store_ne by lia. apply Hframe. lia.
  - exists d. split; [done|]. rewrite length_seqZ in Hval, Hframe.
    repeat split; auto.
    + intros j Hj. apply Hval. lia.
    + intros k Hk. apply Hframe. lia.
Qed.

(** ExclusiveSumPerRow: row i of the destination holds the exclusive sums
    of row i of the source [m]. *)
Lemma ExclusiveSumPerRow_spec (src dest : Array2 T) (m : Z → Z → T) :
  Array2_valid dest →
  (∀ i j, 0 ≤ i < Dim0 dest → 0 ≤ j < Dim1 dest - 1 → Array2_get src i j = Ok (m i j)) →
  ∃ out, ExclusiveSumPerRow src dest = Ok (Array2_written dest out) ∧
    p_pos out = p_pos (Array2_Data dest) ∧
    length (p_buf out) = length (region_data (a2_region dest)) ∧
    ∀ i j, 0 ≤ i < Dim0 dest → 0 ≤ j < Dim1 dest →
      load out (i * ElemStride0 dest + j) = Ok (sum_upto (m i) j).
Proof.
  intros Hd Hsrc. unfold ExclusiveSumPerRow.
  destruct (for_each_inv
    (λ done d, p_pos d = p_pos (Array2_Data dest) ∧
       length (p_buf d) = length (region_data (a2_region dest)) ∧
       ∀ i j, 0 ≤ i < Z.of_nat (length done) → 0 ≤ j < Dim1 dest →
         load d (i * ElemStride0 dest + j) = Ok (sum_upto (m i) j))
    (seqZ 0 (Dim0 dest))
    (λ i dest_acc,
       bind (ExclusiveSum (Array2_Context src) (Dim1 dest)
               (Row (Array2_Data src) (ElemStride0 src) i)
               (Row dest_acc (ElemStride0 dest) i))
            (λ row, Ok (Ptr (p_buf row) (p_pos dest_acc))))
    (Array2_Data dest)) as (out & E & Hpos & Hlen & Hval).
  - repeat split; auto. cbn [length]. intros; lia.
  - intros done i d (Hpos & Hlen & Hval) [rest [-> Hlt]%seqZ_split].
    set (r := 0 + Z.of_nat (length done)) in *.
    destruct (ExclusiveSum_spec (Array2_Context src) (Dim1 dest)
                (Row (Array2_Data src) (ElemStride0 src) r)
                (Row d (ElemStride0 dest) r) (m r))
      as (row & Er & Hrp & Hrl & Hrv & Hrf).
    { intros k Hk. unfold Row. rewrite load_ptr_add. apply Hsrc; lia. }
    { intros k Hk. unfold Row, ptr_add. cbn [p_pos p_buf].
      rewrite Hpos, Hlen, <- Z.add_assoc. apply (Array2_valid_cell dest r k Hd); lia. }
    rewrite Er. cbn [bind]. eexists. split; [done|].
    cbn [p_pos p_buf]. split; [done|]. split.
    { rewrite Hrl. unfold Row, ptr_add. cbn [p_buf]. done. }
    intros i j Hi Hj. rewrite length_app in Hi. cbn [length] in Hi.
    assert (Hsh : ∀ k, load (Ptr (p_buf row) (p_pos d)) k = load row (k - r * ElemStride0 dest)).
    { intros k. destruct row as [rb rp]. cbn [p_buf p_pos] in *. apply load_shift.
      rewrite Hrp. unfold Row, ptr_add. cbn [p_pos]. lia. }
    rewrite Hsh. destruct (decide (i = r)) as [->|Hne].
    + replace (r * ElemStride0 dest + j - r * ElemStride0 dest) with j by lia.
      apply Hrv. lia.
    + rewrite Hrf.
      * unfold Row. rewrite load_ptr_add.
        replace (r * ElemStride0 dest + (i * ElemStride0 dest + j - r * ElemStride0 dest))
          with (i * ElemStride0 dest + j) by lia.
        apply Hval; lia.
      * destruct Hd as (_ & _ & Hst & _). intros Hk.
        assert (i * ElemStride0 dest + j
                = r * ElemStride0 dest + (i * ElemStride0 dest + j - r * ElemStride0 dest)) as Eq
          by lia.
        apply stride_inj in Eq as [? _]; lia.
  - exists out. split.
    { etrans; [|exact (f_equal (λ o, bind o (λ out, Ok (Array2_written dest out))) E)].
      reflexivity. }
    split; [done|]. split; [done|].
    intros i j Hi Hj. apply Hval; [|done]. rewrite length_seqZ. lia.
Qed.

End SumProps.

Lemma IsCompatible_refl (c : Context) : IsCompatible c c = true.
Proof.
  unfold IsCompatible. rewrite bool_decide_eq_true_2 by done. apply Z.eqb_refl.
Qed.

Section SumArray2.
Context {T : Type} `{ElemType T} `{Numeric T}.
Implicit Types (src dest : Array2 T) (m : Z → Z → T).



Lemma sum_upto_take (f : Z → T) (s : list T) (j : nat) :
  (∀ k v, s !! k = Some v → f (Z.of_nat k) = v) → (j ≤ length s)%nat →
  sum_upto f (Z.of_nat j) = sum_of (take j s).
Proof.
  intros Hf Hj. unfold sum_upto. f_equal. apply list_eq. intros k.
  rewrite list_lookup_fmap. destruct (decide (k < j)%nat) as [Hk|Hk].
  - rewrite lookup_seqZ_lt, lookup_take_lt by lia. simpl.
    destruct (lookup_lt_is_Some_2 s k) as [v Hv]; [lia|].
    rewrite Hv. f_equal. now apply Hf.
  - rewrite lookup_seqZ_ge, lookup_take_ge by lia. done.
Qed.


Lemma Array2_get_elem (a : Array2 T) i j :
  Array2_valid a → 0 ≤ i < Dim0 a → 0 ≤ j < Dim1 a →
  Array2_get a i j = Ok (Array2_elem a i j).
Proof.
  intros Hv Hi Hj. unfold Array2_elem.
  destruct (Array2_get_valid a i j Hv Hi Hj) as [v ->]. done.
Qed.


(** ExclusiveSum along axis 1 (across the columns of every row). *)
Lemma ExclusiveSum_Array2_rows src dest m :
  IsCompatible (Array2_Context src) (Array2_Context dest) = true →
  Array2_valid src → Array2_valid dest →
  Dim0 dest = Dim0 src →
  (Dim1 dest = Dim1 src ∨
   Dim1 dest = Dim1 src + 1 ∧
   (Dim1 src * Dim0 src + 1) * ElementSize ≤ num_bytes (a2_region src) - a2_byte_offset src) →
  (∀ i j, 0 ≤ i < Dim0 src → 0 ≤ j < Dim1 src → Array2_get src i j = Ok (m i j)) →
  ∃ out, ExclusiveSum_Array2 src dest 1 = Ok (Array2_written dest out) ∧
    p_pos out = p_pos (Array2_Data dest) ∧
    length (p_buf out) = length (region_data (a2_region dest)) ∧
    ∀ i j, 0 ≤ i < Dim0 dest → 0 ≤ j < Dim1 dest →
      load out (i * ElemStride0 dest + j) = Ok (sum_upto (m i) j).
Proof.
  intros Hc Hs Hd E0 E1 Hm. unfold ExclusiveSum_Array2.
  change (1 =? 0) with false. change (1 =? 1) with true. cbv beta iota zeta.
  cbn [orb K2_CHECK bind]. rewrite Hc. cbn [K2_CHECK bind].
  unfold K2_CHECK_EQ. rewrite (K2_CHECK_true (Dim0 dest =? Dim0 src)) by (apply Z.eqb_eq; lia).
  cbn [bind].
  rewrite K2_CHECK_true by (apply orb_true_iff; rewrite !Z.eqb_eq; lia). cbn [bind].
  assert (Hchk : (if Dim1 dest =? Dim1 src + 1
                  then K2_CHECK_GE (num_bytes (a2_region src) - a2_byte_offset src)
                         ((Dim1 src * Dim0 src + 1) * ElementSize)
                  else Ok ()) = Ok ()).
  { destruct (Z.eqb_spec (Dim1 dest) (Dim1 src + 1)) as [Heq|Hne]; [|done].
    apply K2_CHECK_true, Z.leb_le. lia. }
  rewrite Hchk. cbn [bind].
  apply ExclusiveSumPerRow_spec; [done|].
  intros i j Hi Hj. apply Hm; lia.
Qed.


End SumArray2.


Lemma Zsum_take_le (l : list Z) (j : nat) :
  Forall (λ x, 0 ≤ x) l → 0 ≤ Zsum (take j l) ≤ Zsum l.
Proof.
  intros Hl. revert j. induction Hl as [|x l Hx Hl IH]; intros j.
  - now rewrite take_nil.
  - destruct j as [|j]; cbn [take Zsum foldr].
    + specialize (IH 0%nat). rewrite take_0 in IH. cbn in IH. fold (Zsum l). lia.
    + specialize (IH j). fold (Zsum (take j l)) (Zsum l). lia.
Qed.

(** Where no sum leaves the values of an int32_t, the sum in the element
    type is the sum of the integers. *)
Lemma sum_of_Zsum (N : Numeric Z) (l : list Z) :
  int32_arith N → Forall (λ x, 0 ≤ x) l → Zsum l < 2 ^ 31 →
  @sum_of Z N l = Zsum l.
Proof.
  intros [H0 Hadd] Hl Hs. unfold sum_of. rewrite H0.
  assert (G : ∀ acc, 0 ≤ acc → acc + Zsum l < 2 ^ 31 →
            foldl (@num_add Z N) acc l = acc + Zsum l).
  { clear Hs. induction Hl as [|x l Hx Hl IH]; intros acc Ha Hs; cbn [foldl Zsum foldr].
    - lia.
    - fold (Zsum l) in *. cbn [Zsum foldr] in Hs. fold (Zsum l) in Hs.
      assert (0 ≤ Zsum l) by (pose proof (Zsum_take_le l 0 Hl) as Hz; rewrite take_0 in Hz;
                              pose proof (Zsum_take_le l (length l) Hl) as Hz';
                              rewrite firstn_all in Hz'; lia).
      rewrite Hadd by (unfold in_int32; lia). rewrite IH by lia. lia. }
  rewrite G by lia. lia.
Qed.

Section SumClaims.
Context {T : Type} `{ElemType T} `{Numeric T}.

(** C1. Exclusive sums, accumulated in the element type. For every row of
    a source whose elements are the sequence [s], the destination row
    written by ExclusiveSumPerRow starts with zero and holds at every index
    j the sum of s[0..j); when the destination is one column wider than the
    source, its last element is the sum of [s]. For an integer element type
    and a non-negative integer sequence whose sum is a value of the type,
    these sums are the sums of the integers. In such a type the 1-D
    exclusive sum of [1,2,3,4] into a 5-element destination is
    [0,1,3,6,10], and so is the row-axis ExclusiveSum of the 1 x 4 array
    [1,2,3,4] into a 1 x 5 destination, on either backend. *)
Theorem ExclusiveSum_prefix_sums :
  (∀ (src dest : Array2 T) (r : Z) (s : list T),
     Array2_valid src → Array2_valid dest →
     Dim0 dest = Dim0 src → (Dim1 dest = Dim1 src ∨ Dim1 dest = Dim1 src + 1) →
     0 ≤ r < Dim0 src → Z.of_nat (length s) = Dim1 src →
     (∀ (k : nat) v, s !! k = Some v → Array2_get src r (Z.of_nat k) = Ok v) →
     ∃ dest', ExclusiveSumPerRow src dest = Ok dest' ∧
       (0 < Dim1 dest → Array2_get dest' r 0 = Ok num_zero) ∧
       (∀ j : nat, Z.of_nat j < Dim1 dest →
          Array2_get dest' r (Z.of_nat j) = Ok (sum_of (take j s))) ∧
       (Dim1 dest = Dim1 src + 1 → Array2_get dest' r (Dim1 src) = Ok (sum_of s))) ∧
  (∀ (N : Numeric Z) (s : list Z) (j : nat),
     int32_arith N → Forall (λ x, 0 ≤ x) s → Zsum s < 2 ^ 31 →
     @sum_of Z N (take j s) = Zsum (take j s)) ∧
  (∀ (N : Numeric Z) (c : Context) (d0 d1 d2 d3 d4 : Z),
     int32_arith N →
     @ExclusiveSum Z N c 5 (Ptr [1; 2; 3; 4] 0) (Ptr [d0; d1; d2; d3; d4] 0)
     = Ok (Ptr [0; 1; 3; 6; 10] 0)) ∧
  (∀ (N : Numeric Z),
     int32_arith N →
     Forall (λ c,
       @ExclusiveSum_Array2 Z int32_elem N
         (array2_of c 1 4 4 0 [1; 2; 3; 4; 0]) (array2_of c 1 5 5 0 [7; 7; 7; 7; 7]) 1
       = Ok (array2_of c 1 5 5 0 [0; 1; 3; 6; 10]))
       [GetCpuContext; cuda_reversed]).
Proof.
  split; [|split; [|split]].
  - intros src dest r s Hs Hd E0 E1 Hr Hlen Hrow.
    destruct (ExclusiveSumPerRow_spec src dest (Array2_elem src)) as (out & E & Hp & Hl & Hv).
    { done. }
    { intros i j Hi Hj. apply Array2_get_elem; [done|lia..]. }
    assert (Hpre : ∀ j : nat, Z.of_nat j < Dim1 dest →
              Array2_get (Array2_written dest out) r (Z.of_nat j) = Ok (sum_of (take j s))).
    { intros j Hj. rewrite Array2_get_written by done. rewrite Hv by lia. f_equal.
      apply sum_upto_take; [|lia].
      intros k v Hk. unfold Array2_elem. now rewrite (Hrow k v Hk). }
    exists (Array2_written dest out). split; [done|]. split; [|split].
    + intros Hpos. apply (Hpre 0%nat). lia.
    + done.
    + intros Ew. rewrite <- Hlen, (Hpre (length s)) by lia. now rewrite firstn_all.
  - intros N s j HN Hs Hsum. apply sum_of_Zsum; [done| |].
    + now apply Forall_take.
    + pose proof (Zsum_take_le s j Hs). lia.
  - intros [z add gt] c d0 d1 d2 d3 d4 [Hz Hadd]. cbn in Hz, Hadd. subst z.
    assert (E1 : add 0 1 = 1) by (rewrite Hadd; [done|unfold in_int32; lia..]).
    assert (E2 : add 1 2 = 3) by (rewrite Hadd; [done|unfold in_int32; lia..]).
    assert (E3 : add 3 3 = 6) by (rewrite Hadd; [done|unfold in_int32; lia..]).
    assert (E4 : add 6 4 = 10) by (rewrite Hadd; [done|unfold in_int32; lia..]).
    vm_compute. now rewrite E1, E2, E3, E4.
  - intros [z add gt] [Hz Hadd]. cbn in Hz, Hadd. subst z.
    assert (E1 : add 0 1 = 1) by (rewrite Hadd; [done|unfold in_int32; lia..]).
    assert (E2 : add 1 2 = 3) by (rewrite Hadd; [done|unfold in_int32; lia..]).
    assert (E3 : add 3 3 = 6) by (rewrite Hadd; [done|unfold in_int32; lia..]).
    assert (E4 : add 6 4 = 10) by (rewrite Hadd; [done|unfold in_int32; lia..]).
    repeat constructor; vm_compute; now rewrite E1, E2, E3, E4.
Qed.

End SumClaims.

Section ColumnSumClaim.
Context {T : Type} `{ElemType T} `{Numeric T}.


End ColumnSumClaim.

(** ** MaxPerSublist *)

Section Array1Views.
Context {T : Type} `{ElemType T}.


Lemma Array1_valid_cell (a : Array1 T) (i : Z) :
  Array1_valid a → 0 ≤ i < Dim a →
  0 ≤ p_pos (Array1_Data a) + i < Z.of_nat (length (p_buf (Array1_Data a))).
Proof.
  intros (H0 & Ho & Hlen) Hi. cbn [Array1_Data p_pos p_buf].
  pose proof ElementSize_pos.
  assert (0 ≤ a1_byte_offset a / ElementSize) by (apply Z.div_pos; lia). lia.
Qed.

Lemma Array1_get_written (a : Array1 T) (out : ptr T) (i : Z) :
  p_pos out = p_pos (Array1_Data a) → Array1_get (Array1_written a out) i = load out i.
Proof.
  intros Hp. unfold Array1_get. destruct out as [buf pos]. cbn in *. now subst.
Qed.

Lemma Array1_holds_lookup (a : Array1 T) (l : list T) (i : Z) (v : T) :
  Array1_holds a l → 0 ≤ i → l !! Z.to_nat i = Some v → load (Array1_Data a) i = Ok v.
Proof.
  intros [_ Hl] Hi Hv. apply Hl in Hv. now rewrite Z2Nat.id in Hv.
Qed.

(** Folding over the elements read from [p[b .. b + length l)]. *)
Lemma for_each_loads {A} (g : A → T → A) (p : ptr T) (l : list T) (b : Z) (acc : A) :
  (∀ (k : nat) v, l !! k = Some v → load p (b + Z.of_nat k) = Ok v) →
  for_each (seqZ b (Z.of_nat (length l))) (λ k acc, bind (load p k) (λ v, Ok (g acc v))) acc
  = Ok (foldl g acc l).
Proof.
  revert b acc. induction l as [|x l IH]; intros b acc Hl; [done|].
  cbn [length]. rewrite seqZ_cons by lia. cbn [for_each].
  specialize (Hl 0%nat x eq_refl) as Hx. rewrite Z.add_0_r in Hx. rewrite Hx. cbn [bind foldl].
  replace (Z.pred (Z.of_nat (S (length l)))) with (Z.of_nat (length l)) by lia.
  apply IH. intros k v Hk. replace (Z.succ b + Z.of_nat k) with (b + Z.of_nat (S k)) by lia.
  now apply Hl.
Qed.

End Array1Views.


Lemma foldl_max_le (l : list Z) (x : Z) : x ≤ foldl Z.max x l.
Proof. revert x. induction l as [|h t IH]; intros x; simpl; [lia|]. specialize (IH (Z.max x h)). lia. Qed.

Lemma foldl_max_comm (l : list Z) (x y : Z) :
  foldl Z.max (Z.max x y) l = Z.max x (foldl Z.max y l).
Proof.
  revert y. induction l as [|h t IH]; intros y; simpl; [done|].
  now rewrite <- Z.max_assoc, IH.
Qed.

(** [max_of] is the true maximum: an element of the list that no element
    exceeds. *)
Lemma max_of_spec (l : list Z) :
  l ≠ [] → max_of l ∈ l ∧ ∀ x, x ∈ l → x ≤ max_of l.
Proof.
  destruct l as [|h t]; [done|]. intros _. simpl. revert h.
  induction t as [|y t IH]; intros h; simpl.
  - split; [left|]. intros x ->%list_elem_of_singleton. lia.
  - destruct (IH (Z.max h y)) as [Hin Hub]. split.
    + apply elem_of_cons in Hin as [Heq|Hin]; [|right; now right].
      rewrite Heq. destruct (Z.max_spec h y) as [[_ ->]|[_ ->]]; [right|]; left.
    + intros x Hx. apply elem_of_cons in Hx as [->|Hx].
      * etrans; [|apply Hub; left]. lia.
      * apply elem_of_cons in Hx as [->|Hx].
        -- etrans; [|apply Hub; left]. lia.
        -- apply Hub. now right.
Qed.

Section MaxProps.
Context `{ElemType Z}.

Lemma row_between_lookup (vals : list Z) (b e : Z) (k : nat) (v : Z) :
  0 ≤ b → row_between vals b e !! k = Some v → vals !! Z.to_nat (b + Z.of_nat k) = Some v.
Proof.
  intros Hb. unfold row_between. intros [Hv Hk]%lookup_take_Some.
  rewrite lookup_drop in Hv. rewrite <- Hv. f_equal. lia.
Qed.

Lemma row_between_length (vals : list Z) (b e : Z) :
  0 ≤ b ≤ e → e ≤ Z.of_nat (length vals) → Z.of_nat (length (row_between vals b e)) = e - b.
Proof. intros Hb He. unfold row_between. rewrite length_take, length_drop. lia. Qed.


Lemma Ragged_valid_bounds (src : Ragged Z) (splits vals : list Z) (i : nat) (b : Z) :
  Ragged_valid src splits vals → splits !! i = Some b → 0 ≤ b ≤ Z.of_nat (length vals).
Proof.
  intros (_ & _ & _ & H0 & Hmono & Hlast) Hb.
  assert (Hle : ∀ (i j : nat) x y, splits !! i = Some x → splits !! (i + j)%nat = Some y → x ≤ y).
  { intros i0 j. revert i0. induction j as [|j IH]; intros i0 x y Hx Hy.
    - rewrite Nat.add_0_r in Hy. assert (x = y) by congruence. lia.
    - destruct (lookup_lt_is_Some_2 splits (S i0)) as [z Hz].
      { apply lookup_lt_Some in Hy. lia. }
      specialize (Hmono i0 x z Hx Hz).
      replace (i0 + S j)%nat with (S i0 + j)%nat in Hy by lia.
      specialize (IH (S i0) z y Hz Hy). lia. }
  split.
  - apply (Hle 0%nat i 0 b); [done|]. now rewrite Nat.add_0_l.
  - rewrite last_lookup in Hlast. pose proof (lookup_lt_Some _ _ _ Hb) as Hi.
    apply (Hle i (Nat.pred (length splits) - i)%nat b _ Hb).
    replace (i + (Nat.pred (length splits) - i))%nat with (Nat.pred (length splits)) by lia.
    done.
Qed.

Lemma MaxOp_Z (a b : Z) : MaxOp a b = Z.max a b.
Proof.
  unfold MaxOp. cbn [num_gt Z_numeric]. destruct (Z.gtb_spec a b); lia.
Qed.

Lemma host_max_Z (elem max_val : Z) :
  (if num_gt elem max_val then elem else max_val) = Z.max max_val elem.
Proof. cbn [num_gt Z_numeric]. destruct (Z.gtb_spec elem max_val); lia. Qed.

Lemma foldl_ext_Z (g1 g2 : Z → Z → Z) (l : list Z) (x : Z) :
  (∀ a b, g1 a b = g2 a b) → foldl g1 x l = foldl g2 x l.
Proof. intros Hg. revert x. induction l as [|h t IH]; intros x; simpl; [done|]. now rewrite Hg, IH. Qed.

(** Reducing one row with an operation that computes the larger of its
    arguments. *)
Lemma row_reduce (g : Z → Z → Z) (src : Ragged Z) (splits vals : list Z) (i : nat)
    (b e default : Z) :
  Ragged_valid src splits vals → (∀ a x, g a x = Z.max a x) →
  splits !! i = Some b → splits !! S i = Some e →
  for_each (seqZ b (e - b))
    (λ k acc, bind (load (Array1_Data (values src)) k) (λ v, Ok (g acc v))) default
  = Ok (foldl Z.max default (row_between vals b e)).
Proof.
  intros Hv Hg Hb He.
  pose proof (Ragged_valid_bounds _ _ _ _ _ Hv Hb) as Hbb.
  pose proof (Ragged_valid_bounds _ _ _ _ _ Hv He) as Hbe.
  pose proof Hv as (_ & _ & Hvals & _ & Hmono & _).
  specialize (Hmono i b e Hb He).
  rewrite <- (row_between_length vals b e) by lia.
  rewrite for_each_loads.
  - f_equal. now apply foldl_ext_Z.
  - intros k v Hk%row_between_lookup; [|lia].
    eapply Array1_holds_lookup; [done|lia|done].
Qed.

Lemma MaxPerSublist_spec (src : Ragged Z) (default : Z) (max_values : Array1 Z)
    (splits vals : list Z) :
  Ragged_valid src splits vals → Array1_valid max_values →
  Dim max_values = Z.of_nat (length splits) - 1 →
  IsCompatible (Shape_Context (shape src)) (Array1_Context max_values) = true →
  ∃ out, MaxPerSublist src default max_values = Ok (Array1_written max_values out) ∧
    p_pos out = p_pos (Array1_Data max_values) ∧
    ∀ (i : nat) b e, splits !! i = Some b → splits !! S i = Some e →
      load out (Z.of_nat i) = Ok (foldl Z.max default (row_between vals b e)).
Proof.
  intros Hv Hmv Hdim Hc.
  pose proof Hv as (Hmore & Hsp & Hvals & H0 & Hmono & Hlast).
  pose proof Hsp as [Hsplen _].
  unfold MaxPerSublist, NumAxes, Shape_Dim0, RowSplits. rewrite Hmore, Hc.
  cbn [length K2_CHECK bind]. unfold K2_CHECK_EQ.
  rewrite (K2_CHECK_true (2 + Z.of_nat 0 =? 2)) by done. cbn [bind].
  rewrite K2_CHECK_true by (apply Z.eqb_eq; lia).
  cbn [bind]. change (load _ (1 - 1)) with (Ok (row_splits1 (shape src))). cbn [bind].
  set (rs := Array1_Data (row_splits1 (shape src))).
  set (num_rows := Dim (row_splits1 (shape src)) - 1).
  assert (Hrow : ∀ (i : nat), Z.of_nat i < num_rows →
            ∃ b e, splits !! i = Some b ∧ splits !! S i = Some e ∧
                   load rs (Z.of_nat i) = Ok b ∧ load rs (Z.of_nat i + 1) = Ok e).
  { intros i Hi.
    destruct (lookup_lt_is_Some_2 splits i) as [b Hb]; [lia|].
    destruct (lookup_lt_is_Some_2 splits (S i)) as [e He]; [lia|].
    exists b, e. split; [done|]. split; [done|]. split.
    - eapply Array1_holds_lookup; [done|lia|]. now rewrite Nat2Z.id.
    - eapply Array1_holds_lookup; [done|lia|].
      now replace (Z.to_nat (Z.of_nat i + 1)) with (S i) by lia. }
  destruct (decide (GetDeviceType (Shape_Context (shape src)) = kCpu)) as [Hcpu|Hcuda].
  - (* the host loop *)
    assert (Hj0 : load rs 0 = Ok 0).
    { eapply Array1_holds_lookup; [done|lia|done]. }
    rewrite Hj0. cbn [bind].
    match goal with |- context [for_each ?l ?body ?s0] =>
      destruct (for_each_inv
        (λ done (st : Z * ptr Z),
           splits !! length done = Some st.1 ∧
           p_pos st.2 = p_pos (Array1_Data max_values) ∧
           length (p_buf st.2) = length (p_buf (Array1_Data max_values)) ∧
           ∀ (i : nat) b e, (i < length done)%nat →
             splits !! i = Some b → splits !! S i = Some e →
             load st.2 (Z.of_nat i) = Ok (foldl Z.max default (row_between vals b e)))
        l body s0) as ([j out] & E & Hj & Hpos & Hlen & Hval)
    end.
    + cbn [fst snd length]. repeat split; auto. intros; lia.
    + intros done i [j od] (Hj & Hpos & Hlen & Hval) [rest [-> Hlt]%seqZ_split].
      cbn [fst snd] in *. rewrite Z.add_0_l.
      destruct (Hrow (length done)) as (b & e & Hb & He & _ & Hle); [lia|].
      assert (b = j) as -> by congruence.
      rewrite Hle. cbn [bind].
      rewrite (row_reduce (λ max_val elem, if num_gt elem max_val then elem else max_val)
                 src splits vals (length done) j e default Hv) by (auto using host_max_Z).
      cbn [bind].
      rewrite store_Ok by (rewrite Hpos, Hlen; apply Array1_valid_cell; [done|lia]).
      cbn [bind]. eexists. split; [done|]. cbn [fst snd p_pos p_buf].
      rewrite length_app, length_insert. cbn [length].
      specialize (Hmono _ _ _ Hb He).
      split. { rewrite Z.max_r by lia. now rewrite Nat.add_1_r. }
      split; [done|]. split; [done|].
      intros i b' e' Hi Hb' He'.
      destruct (decide (i = length done)) as [->|Hne].
      * assert (b' = j) as -> by congruence. assert (e' = e) as -> by congruence.
        apply load_store_eq. rewrite Hpos, Hlen.
        apply Array1_valid_cell; [done|lia].
      * rewrite load_store_ne; [apply Hval; [lia|done..]| |lia].
        rewrite Hpos. apply (Array1_valid_cell max_values); [done|lia].
    + rewrite E. cbn [bind]. exists out. cbn [fst snd] in *. split; [done|]. split; [done|].
      intros i b e Hb He. apply Hval; [|done..].
      rewrite length_seqZ. apply lookup_lt_Some in He. lia.
  - (* the segmented reduction on the device *)
    assert (Hk : GetDeviceType (Shape_Context (shape src)) = kCuda)
      by (destruct (GetDeviceType _); done).
    rewrite K2_CHECK_true by (now apply bool_decide_eq_true_2). cbn [bind].
    unfold cub_DeviceSegmentedReduce.
    set (c := Shape_Context (shape src)).
    pose (rd := λ seg : Z * Z,
      bind (load rs seg.1) (λ segment_begin,
      bind (load (ptr_add rs 1) seg.1) (λ segment_end,
        for_each (seqZ segment_begin (segment_end - segment_begin))
          (λ k acc, bind (load (Array1_Data (values src)) k) (λ v, Ok (MaxOp acc v)))
          default))).
    assert (Hrd : ∀ seg, seg ∈ schedule c (index_pairs num_rows 1) →
              ∃ (i : nat) b e, seg.1 = Z.of_nat i ∧ Z.of_nat i < num_rows ∧
                splits !! i = Some b ∧ splits !! S i = Some e ∧
                rd seg = Ok (foldl Z.max default (row_between vals b e))).
    { intros seg [Hs1 _]%elem_of_schedule%elem_of_index_pairs.
      destruct (Hrow (Z.to_nat seg.1)) as (b & e & Hb & He & Hlb & Hle); [lia|].
      rewrite Z2Nat.id in Hlb, Hle by lia.
      exists (Z.to_nat seg.1), b, e. rewrite Z2Nat.id by lia.
      split; [done|]. split; [lia|]. split; [done|]. split; [done|].
      subst rd. cbv beta. rewrite Hlb. cbn [bind].
      rewrite load_ptr_add, Z.add_comm, Hle. cbn [bind].
      apply (row_reduce MaxOp src splits vals (Z.to_nat seg.1)); auto using MaxOp_Z. }
    destruct (copy_loop (λ _, true) rd (λ seg : Z * Z, seg.1)
                (schedule c (index_pairs num_rows 1)) (Array1_Data max_values))
      as (out & E & Hpos & Hlen & _ & Hval).
    { intros seg Hin _. destruct (Hrd seg Hin) as (i & b & e & Hi & Hlt & _ & _ & Hr).
      split; [eauto|]. apply Array1_valid_cell; [done|lia]. }
    exists out. split.
    { etrans; [|exact (f_equal (λ o, bind o (λ out, Ok (Array1_written max_values out))) E)].
      f_equal. apply for_each_ext. intros seg d_out _. unfold copy_step. subst rd. cbv beta.
      destruct (load rs seg.1) as [b| |]; cbn [bind]; [|done..].
      destruct (load (ptr_add rs 1) seg.1) as [e| |]; cbn [bind]; done. }
    split; [done|].
    intros i b e Hb He. apply Hval.
    + exists (Z.of_nat i, 0). split; [|done].
      apply elem_of_schedule, elem_of_index_pairs. cbn [fst snd].
      apply lookup_lt_Some in He. lia.
    + intros seg Hin _ Hw. destruct (Hrd seg Hin) as (i' & b' & e' & Hi & _ & Hb' & He' & Hr).
      cbv beta in Hw. assert (i' = i) as -> by lia.
      rewrite Hr. do 3 f_equal; congruence.
Qed.

End MaxProps.


Section MaxClaims.
Context `{ElemType Z}.

Lemma array1_of_holds {T} `{ElemType T} (c : Context) (l : list T) :
  Array1_holds (array1_of c l) l.
Proof.
  split; [done|]. intros k v Hk. apply load_Ok.
  cbn [array1_of Array1_Data a1_byte_offset a1_region region_data p_pos p_buf].
  rewrite Z.div_0_l by (pose proof (ElementSize_pos (T:=T)); lia).
  rewrite Z.add_0_l, Nat2Z.id. split; [lia|done].
Qed.

Lemma array1_of_valid {T} `{ElemType T} (c : Context) (l : list T) :
  Array1_valid (array1_of c l).
Proof.
  unfold Array1_valid. cbn [array1_of Dim a1_byte_offset a1_region region_data].
  rewrite Z.div_0_l by (pose proof (ElementSize_pos (T:=T)); lia). lia.
Qed.

(** C4, as the code has it. For a valid two-axis ragged array and any
    default value, MaxPerSublist completes on either backend and writes for
    every row: the default value if the row is empty; otherwise the larger
    of the default value and the maximum of the row's elements, which is the
    maximum of the row whenever the default value does not exceed it. *)
Theorem MaxPerSublist_rows (src : Ragged Z) (default : Z) (max_values : Array1 Z)
    (splits vals : list Z) :
  Ragged_valid src splits vals → Array1_valid max_values →
  Dim max_values = Z.of_nat (length splits) - 1 →
  IsCompatible (Shape_Context (shape src)) (Array1_Context max_values) = true →
  ∃ res, MaxPerSublist src default max_values = Ok res ∧
    Dim res = Dim max_values ∧
    ∀ (i : nat) b e, splits !! i = Some b → splits !! S i = Some e →
      let row := row_between vals b e in
      (row = [] → Array1_get res (Z.of_nat i) = Ok default) ∧
      (row ≠ [] → Array1_get res (Z.of_nat i) = Ok (Z.max default (max_of row))) ∧
      (row ≠ [] → default ≤ max_of row → Array1_get res (Z.of_nat i) = Ok (max_of row)).
Proof.
  intros Hv Hmv Hdim Hc.
  destruct (MaxPerSublist_spec src default max_values splits vals Hv Hmv Hdim Hc)
    as (out & E & Hpos & Hval).
  exists (Array1_written max_values out). split; [done|]. split; [done|].
  intros i b e Hb He row. rewrite Array1_get_written by done.
  rewrite (Hval i b e Hb He). fold row.
  assert (Hne : row ≠ [] → foldl Z.max default row = Z.max default (max_of row)).
  { destruct row as [|h t]; [done|]. intros _. cbn [foldl max_of]. apply foldl_max_comm. }
  split; [|split].
  - now intros ->.
  - intros Hr. now rewrite Hne.
  - intros Hr Hle. rewrite Hne by done. f_equal. lia.
Qed.

End MaxClaims.

(** C4, as stated, fails: on the non-empty row [1, 2] with default value 5
    both backends write 5, which is not the maximum 2 of the row. *)
Lemma MaxPerSublist_default_above_row :
  @MaxPerSublist Z int32_elem Z_numeric int32_elem
     (ragged_of GetCpuContext [0; 2] [1; 2]) 5 (array1_of GetCpuContext [0])
    = Ok (array1_of GetCpuContext [5]) ∧
  @MaxPerSublist Z int32_elem Z_numeric int32_elem
     (ragged_of cuda_reversed [0; 2] [1; 2]) 5 (array1_of cuda_reversed [0])
    = Ok (array1_of cuda_reversed [5]) ∧
  row_between [1; 2] 0 2 = [1; 2] ∧ max_of [1; 2] = 2.
Proof. repeat split; reflexivity. Qed.

(** ** Fixed-width integers *)

Lemma sint_small (w x : Z) :
  0 < w → - 2 ^ (w - 1) ≤ x < 2 ^ (w - 1) → sint w x = x.
Proof.
  intros Hw Hx. unfold sint.
  assert (E : 2 ^ w = 2 * 2 ^ (w - 1)).
  { rewrite <- Z.pow_succ_r by lia. f_equal. lia. }
  rewrite Z.mod_small; lia.
Qed.

Lemma sint_range (w x : Z) : 0 < w → - 2 ^ (w - 1) ≤ sint w x < 2 ^ (w - 1).
Proof.
  intros Hw. unfold sint.
  assert (E : 2 ^ w = 2 * 2 ^ (w - 1)).
  { rewrite <- Z.pow_succ_r by lia. f_equal. lia. }
  assert (0 < 2 ^ (w - 1)) by (apply Z.pow_pos_nonneg; lia).
  pose proof (Z.mod_pos_bound (x + 2 ^ (w - 1)) (2 ^ w)). lia.
Qed.

Lemma sint_eqm (w x : Z) : 0 < w → sint w x mod 2 ^ w = x mod 2 ^ w.
Proof.
  intros Hw. unfold sint. rewrite Zminus_mod_idemp_l. f_equal. lia.
Qed.

Lemma sint_congr (w x y : Z) : x mod 2 ^ w = y mod 2 ^ w → sint w x = sint w y.
Proof.
  intros E. unfold sint. f_equal.
  rewrite <- (Zplus_mod_idemp_l x), E, Zplus_mod_idemp_l. done.
Qed.

Lemma mod_pow2_narrow (w w' x y : Z) :
  0 < w ≤ w' → x mod 2 ^ w' = y mod 2 ^ w' → x mod 2 ^ w = y mod 2 ^ w.
Proof.
  intros Hw E.
  assert (Hdiv : (2 ^ w | 2 ^ w')).
  { exists (2 ^ (w' - w)). rewrite <- Z.pow_add_r by lia. f_equal. lia. }
  rewrite <- (Z.mod_mod_divide x _ _ Hdiv), <- (Z.mod_mod_divide y _ _ Hdiv).
  now rewrite E.
Qed.

Lemma sint_narrow (w w' x : Z) : 0 < w ≤ w' → sint w (sint w' x) = sint w x.
Proof.
  intros Hw. apply sint_congr. apply (mod_pow2_narrow w w'); [done|].
  apply sint_eqm. lia.
Qed.

Lemma sint_add_r (w a b : Z) : 0 < w → sint w (a + sint w b) = sint w (a + b).
Proof.
  intros Hw. apply sint_congr.
  rewrite <- Zplus_mod_idemp_r, sint_eqm, Zplus_mod_idemp_r by done. done.
Qed.

Lemma sint_add_l (w a b : Z) : 0 < w → sint w (sint w a + b) = sint w (a + b).
Proof. intros Hw. rewrite (Z.add_comm (sint w a)), sint_add_r, Z.add_comm; done. Qed.

Lemma sint_sub_l (w a b : Z) : 0 < w → sint w (sint w a - b) = sint w (a - b).
Proof. intros Hw. unfold Z.sub. now apply sint_add_l. Qed.

Lemma sint_32 (x : Z) : sint 32 x = int32 x.
Proof. reflexivity. Qed.

Lemma int32_small (x : Z) : - 2 ^ 31 ≤ x < 2 ^ 31 → int32 x = x.
Proof. intros Hx. rewrite <- sint_32. apply sint_small; [lia|done]. Qed.

Lemma uint64_small (x : Z) : 0 ≤ x < 2 ^ 64 → uint64 x = x.
Proof. intros Hx. unfold uint64. now apply Z.mod_small. Qed.

Lemma std_vector_Ok {A} (n : Z) (init : A) :
  0 ≤ n < 2 ^ 63 → std_vector n init = Ok (Ptr (replicate (Z.to_nat n) init) 0).
Proof.
  intros Hn. unfold std_vector. rewrite uint64_small by lia.
  destruct (Z.leb_spec (2 ^ 63) n); [lia|done].
Qed.

Lemma vector_reserve_Ok (n : Z) : 0 ≤ n < 2 ^ 63 → vector_reserve n = Ok ().
Proof.
  intros Hn. unfold vector_reserve. rewrite uint64_small by lia.
  destruct (Z.leb_spec (2 ^ 63) n); [lia|done].
Qed.

(** ** Range, and the checks on counts *)

Section RangeProps.
Context `{ElemType Z}.

Lemma Array1_new_length {T} `{ElemType T} (c : Context) (size : Z) :
  length (region_data (a1_region (Array1_new (T:=T) c size))) = Z.to_nat size.
Proof.
  unfold Array1_new, NewRegion. cbn [a1_region region_data].
  rewrite length_fresh, Z.div_mul; [done|]. pose proof (ElementSize_pos (T:=T)). lia.
Qed.

Lemma Array1_new_valid {T} `{ElemType T} (c : Context) (size : Z) :
  0 ≤ size → Array1_valid (Array1_new (T:=T) c size).
Proof.
  intros Hs. unfold Array1_valid. rewrite Array1_new_length.
  cbn [Array1_new Dim a1_byte_offset].
  rewrite Z.div_0_l by (pose proof (ElementSize_pos (T:=T)); lia). lia.
Qed.

(** A 1-D launch that writes [val i] to position [i], on either backend. *)
Lemma Eval_fill (c : Context) (n : Z) (val : Z → Z) (out : ptr Z) :
  (∀ i, 0 ≤ i < n → 0 ≤ p_pos out + i < Z.of_nat (length (p_buf out))) →
  ∃ out', Eval c n (λ i ans_data, store ans_data i (val i)) out = Ok out' ∧
    p_pos out' = p_pos out ∧ length (p_buf out') = length (p_buf out) ∧
    ∀ i, 0 ≤ i < n → load out' i = Ok (val i).
Proof.
  intros Hb. unfold Eval.
  destruct (GetDeviceType c).
  - destruct (copy_loop (λ _, true) (λ i, Ok (val i)) (λ i : Z, i) (seqZ 0 n) out)
      as (out' & E & Hpos & Hlen & _ & Hval).
    { intros i Hi%elem_of_seqZ _. split; [eauto|]. apply Hb. lia. }
    exists out'. split; [exact E|]. split; [done|]. split; [done|].
    intros i Hi. apply Hval.
    + exists i. rewrite elem_of_seqZ. split; [lia|done].
    + now intros i' _ _ ->.
  - destruct (copy_loop (λ _, true) (λ ij : Z * Z, Ok (val ij.1)) (λ ij : Z * Z, ij.1)
                (schedule c (index_pairs n 1)) out)
      as (out' & E & Hpos & Hlen & _ & Hval).
    { intros ij [Hi _]%elem_of_schedule%elem_of_index_pairs _. split; [eauto|]. now apply Hb. }
    exists out'. split; [exact E|]. split; [done|]. split; [done|].
    intros i Hi. apply Hval.
    + exists (i, 0). split; [|done].
      apply elem_of_schedule, elem_of_index_pairs. cbn [fst snd]. lia.
    + now intros ij _ _ ->.
Qed.

(** Range with a non-negative length: an arithmetic sequence of that
    length, on either backend. *)
Lemma Range_spec (c : Context) (dim first_value inc : Z) :
  0 ≤ dim →
  ∃ ans, Range c dim first_value inc = Ok ans ∧ Dim ans = dim ∧
    Array1_Context ans = c ∧
    ∀ i, 0 ≤ i < dim →
      Array1_get ans i = Ok (to_T (in_common (first_value + in_common (i * inc)))).
Proof.
  intros Hdim. unfold Range. rewrite K2_CHECK_true by (now apply Z.leb_le). cbn [bind].
  set (ans := Array1_new c dim).
  assert (Hb : ∀ i, 0 ≤ i < dim →
            0 ≤ p_pos (Array1_Data ans) + i < Z.of_nat (length (p_buf (Array1_Data ans)))).
  { intros i Hi. apply Array1_valid_cell; [now apply Array1_new_valid|done]. }
  destruct (Eval_fill c dim (λ i, to_T (in_common (first_value + in_common (i * inc))))
              (Array1_Data ans) Hb)
    as (out & E & Hpos & Hlen & Hval).
  exists (Array1_written ans out). split.
  - cbv zeta. destruct (GetDeviceType c) eqn:Hdev.
    + unfold Eval in E. rewrite Hdev in E. fold ans. now rewrite E.
    + fold ans. now rewrite E.
  - split; [done|]. split; [done|].
    intros i Hi. rewrite Array1_get_written by done. now apply Hval.
Qed.

End RangeProps.

Section CountClaims.
Context {T : Type} `{ElemType T} `{ElemType Z}.

(** C8, as the code has it. Range aborts on a negative length and accepts
    every non-negative one, zero included, returning an array of that
    length; both overloads of Append abort on a non-positive number of
    source arrays. *)
Theorem count_checks :
  (∀ (c : Context) (dim first_value inc : Z), dim < 0 →
     Range c dim first_value inc = Fatal "Check failed") ∧
  (∀ (c : Context) (dim first_value inc : Z), 0 ≤ dim →
     ∃ ans, Range c dim first_value inc = Ok ans ∧ Dim ans = dim) ∧
  (∀ (num_arrays : Z) (src : list (Array1 T)), num_arrays ≤ 0 →
     Append num_arrays src = Fatal "Check failed") ∧
  (∀ (src_size : Z) (src : list (Array1 T)), src_size ≤ 0 →
     Append_flat src_size src = Fatal "Check failed").
Proof.
  split; [|split; [|split]].
  - intros c dim f i Hd. unfold Range. now rewrite K2_CHECK_false by (apply Z.leb_gt; lia).
  - intros c dim f i Hd. destruct (Range_spec c dim f i Hd) as (ans & E & Hdim & _). eauto.
  - intros n src Hn. unfold Append, Append_locals, K2_CHECK_GT.
    now rewrite K2_CHECK_false by (apply Z.ltb_ge; lia).
  - intros n src Hn. unfold Append_flat, K2_CHECK_GT.
    now rewrite K2_CHECK_false by (apply Z.ltb_ge; lia).
Qed.

(** C9. The by-value overload of Append, called with a positive number of
    arrays, and the And reduction, called with anything, abort with the
    message that they are not implemented and return no result. *)
Theorem unimplemented_calls_abort :
  (∀ (src_size : Z) (src : list (Array1 T)), 0 < src_size →
     Append_flat src_size src = Fatal "Not Implemented" ∧
     ∀ r, Append_flat src_size src ≠ Ok r) ∧
  (∀ (src : Array1 T) (default_value : T) (dest : Array1 T),
     And src default_value dest = Fatal "Not implemented" ∧
     ∀ r, And src default_value dest ≠ Ok r).
Proof.
  split.
  - intros n src Hn.
    assert (E : Append_flat n src = Fatal "Not Implemented").
    { unfold Append_flat, K2_CHECK_GT. now rewrite K2_CHECK_true by (apply Z.ltb_lt; lia). }
    split; [done|]. intros r. now rewrite E.
  - intros src d dest. split; [done|]. intros r. done.
Qed.

End CountClaims.

(** C8, as stated, fails: Range with length 0 is not a precondition
    violation; it returns the empty array, on either backend. *)
Lemma Range_accepts_zero_length :
  @Range int32_elem GetCpuContext 0 7 1 = Ok (array1_of GetCpuContext []) ∧
  @Range int32_elem cuda_reversed 0 7 1 = Ok (array1_of cuda_reversed []).
Proof. split; reflexivity. Qed.

(** ** RandUniformArray1 *)


Section RandProps.
Context `{ElemType Z}.

(** With equal bounds every element is written as 0, whatever the bound. *)
Lemma RandUniformArray1_equal_bounds (g : RandGen) (calls : nat) (c : Context)
    (dim bound : Z) :
  0 ≤ dim →
  ∃ a, RandUniformArray1 g calls c dim bound bound = Ok (a, calls) ∧
    Dim a = dim ∧ Array1_Context a = c ∧
    ∀ i, 0 ≤ i < dim → Array1_get a i = Ok 0.
Proof.
  intros Hdim. unfold RandUniformArray1.
  rewrite K2_CHECK_true by (apply Z.leb_le; lia). cbn [bind]. rewrite Z.eqb_refl.
  set (temp := Array1_new GetCpuContext dim).
  destruct (copy_loop (λ _, true) (λ _ : Z, Ok 0) (λ i : Z, i) (seqZ 0 dim) (Array1_Data temp))
    as (out & E & Hpos & Hlen & _ & Hval).
  { intros i Hi%elem_of_seqZ _. split; [eauto|].
    apply Array1_valid_cell; [now apply Array1_new_valid|change (Dim temp) with dim; lia]. }
  eexists. split.
  { etrans; [|exact (f_equal (λ o, bind (bind o (λ data, Ok (data, calls)))
                       (λ '(data, calls), Ok (Array1_To (Array1_written temp data) c, calls))) E)].
    reflexivity. }
  cbn [bind Array1_To Array1_written Dim Array1_Context a1_region region_context].
  split; [done|]. split; [done|].
  intros i Hi. change (Array1_get (Array1_written temp out) i = Ok 0).
  rewrite Array1_get_written by done. apply Hval.
  - exists i. rewrite elem_of_seqZ. split; [lia|done].
  - now intros.
Qed.

(** The element computed from one result of rand() lies between the
    bounds. *)
Lemma rand_value_bounds (g : RandGen) (min_value max_value r : Z) :
  min_value < max_value → 0 ≤ r ≤ RAND_MAX g →
  min_value ≤ rand_value g min_value max_value r ≤ max_value.
Proof.
  intros Hlt Hr. pose proof (RAND_MAX_min g) as Hrm. unfold rand_value.
  destruct ((RAND_MAX g <? Z.abs min_value) || (RAND_MAX g <? Z.abs max_value)).
  - rewrite Z.quot_div_nonneg by nia.
    assert (0 ≤ (r * (max_value - min_value)) `div` RAND_MAX g) by (apply Z.div_pos; nia).
    assert ((r * (max_value - min_value)) `div` RAND_MAX g ≤ max_value - min_value)
      by (apply Z.div_le_upper_bound; nia).
    lia.
  - pose proof (Z.rem_bound_pos r (max_value + 1 - min_value)). lia.
Qed.

(** The two generating loops, for bounds that fit: one call of rand() per
    element, in index order. *)
Lemma RandUniformArray1_spec (g : RandGen) (calls : nat) (c : Context)
    (dim min_value max_value : Z) :
  0 ≤ dim → min_value < max_value → rand_bounds_fit g min_value max_value →
  ∃ a, RandUniformArray1 g calls c dim min_value max_value
       = Ok (a, (calls + Z.to_nat dim)%nat) ∧
    Dim a = dim ∧ Array1_Context a = c ∧
    ∀ i : nat, Z.of_nat i < dim →
      Array1_get a (Z.of_nat i)
      = Ok (rand_value g min_value max_value (rand_draw g (calls + i))).
Proof.
  intros Hdim Hlt (Hrmax & HminT & HmaxT & HminC & Hfit). unfold RandUniformArray1.
  rewrite K2_CHECK_true by (apply Z.leb_le; lia). cbn [bind].
  destruct (Z.eqb_spec max_value min_value) as [Heq|_]; [lia|].
  set (temp := Array1_new GetCpuContext dim).
  pose proof (RAND_MAX_min g) as Hrm.
  assert (Hbits : 0 < T_bits ∧ T_bits ≤ common_bits ∧ 32 ≤ common_bits).
  { unfold common_bits, T_bits. pose proof ElementSize_pos. lia. }
  assert (HpT : 2 ^ (T_bits - 1) ≤ 2 ^ (common_bits - 1))
    by (apply Z.pow_le_mono_r; lia).
  assert (Hp31 : 2 ^ 31 ≤ 2 ^ (common_bits - 1))
    by (apply Z.pow_le_mono_r; lia).
  assert (Hc : ∀ v, - 2 ^ (common_bits - 1) ≤ v < 2 ^ (common_bits - 1) → in_common v = v).
  { intros v Hv. apply sint_small; lia. }
  assert (Hin : ∀ v, min_value ≤ v ≤ max_value → to_T (in_common v) = v).
  { intros v Hv. rewrite Hc by lia. apply sint_small; lia. }
  rewrite (Hc (Z.abs min_value)), (Hc (Z.abs max_value)) by lia.
  assert (Hcell : ∀ i, 0 ≤ i < dim →
            0 ≤ p_pos (Array1_Data temp) + i < Z.of_nat (length (p_buf (Array1_Data temp)))).
  { intros i Hi. apply Array1_valid_cell; [now apply Array1_new_valid|done]. }
  pose (P := λ (done : list Z) (st : ptr Z * nat),
          st.2 = (calls + length done)%nat ∧
          p_pos st.1 = p_pos (Array1_Data temp) ∧
          length (p_buf st.1) = length (p_buf (Array1_Data temp)) ∧
          ∀ i : nat, (i < length done)%nat →
            load st.1 (Z.of_nat i)
            = Ok (rand_value g min_value max_value (rand_draw g (calls + i)))).
  assert (Hfin : ∀ body,
            (∀ done i st, P done st → (∃ rest, seqZ 0 dim = done ++ i :: rest) →
               ∃ st', body i st = Ok st' ∧ P (done ++ [i]) st') →
            ∃ a,
              bind (for_each (seqZ 0 dim) body (Array1_Data temp, calls))
                   (λ '(data, calls), Ok (Array1_To (Array1_written temp data) c, calls))
              = Ok (a, (calls + Z.to_nat dim)%nat) ∧
              Dim a = dim ∧ Array1_Context a = c ∧
              ∀ i : nat, Z.of_nat i < dim →
                Array1_get a (Z.of_nat i)
                = Ok (rand_value g min_value max_value (rand_draw g (calls + i)))).
  { intros body Hstep.
    destruct (for_each_inv P (seqZ 0 dim) body (Array1_Data temp, calls))
      as ([out calls'] & E & Hcalls & Hpos & Hlen & Hval).
    - subst P. cbn [fst snd length]. repeat split; auto. intros; lia.
    - exact Hstep.
    - rewrite E. cbn [bind fst snd] in *. rewrite length_seqZ in Hcalls, Hval. subst calls'.
      eexists. split; [done|]. split; [done|]. split; [done|].
      intros i Hi. rewrite <- Hval by lia.
      change (Array1_get (Array1_written temp out) (Z.of_nat i) = load out (Z.of_nat i)).
      now apply Array1_get_written. }
  assert (Hstore : ∀ done i (data : ptr Z) (k : nat) v,
            P done (data, k) → (∃ rest, seqZ 0 dim = done ++ i :: rest) →
            v = rand_value g min_value max_value (rand_draw g k) →
            ∃ st', bind (store data i v) (λ data, Ok (data, S k)) = Ok st' ∧ P (done ++ [i]) st').
  { intros done i data k v (Hk & Hpos & Hlen & Hval) [rest [-> Hi]%seqZ_split] ->.
    cbn [fst snd] in *.
    rewrite store_Ok by (rewrite Hpos, Hlen; apply Hcell; lia).
    cbn [bind]. eexists. split; [done|]. subst P. cbn [fst snd p_pos p_buf].
    rewrite length_insert, length_app. cbn [length]. split; [lia|]. split; [done|].
    split; [done|].
    intros j Hj. destruct (decide (j = length done)) as [->|Hne].
    - rewrite Z.add_0_l. rewrite load_store_eq.
      + now subst k.
      + rewrite Hpos, Hlen. apply Hcell; lia.
    - rewrite load_store_ne; [apply Hval; lia| |lia].
      rewrite Hpos. specialize (Hcell (0 + Z.of_nat (length done))). lia. }
  assert (Hbnd : ∀ k, min_value ≤ rand_value g min_value max_value (rand_draw g k) ≤ max_value).
  { intros k. apply rand_value_bounds; [done|]. apply rand_draw_range. }
  unfold rand_value in Hstore, Hbnd. unfold rand_value at 1 in Hfin. unfold rand_value.
  cbn [is_floating_point orb].
  destruct ((RAND_MAX g <? Z.abs min_value) || (RAND_MAX g <? Z.abs max_value)) eqn:Hbig.
  - apply Hfin. intros done i [data k] HP Hi. apply Hstore; [done..|].
    pose proof (rand_draw_range g k) as Hr.
    rewrite (Hc (max_value - min_value)) by nia.
    rewrite (Hc (rand_draw g k * (max_value - min_value))) by nia.
    apply Hin, Hbnd.
  - apply orb_false_iff in Hbig as [Hmin%Z.ltb_ge Hmax%Z.ltb_ge].
    assert (Hrange : int32 (in_common (in_common (max_value + 1) - min_value))
                     = max_value + 1 - min_value).
    { unfold in_common at 1 2. rewrite sint_sub_l by lia. fold (in_common (max_value + 1 - min_value)).
      rewrite Hc by lia. rewrite <- sint_32. apply sint_small; lia. }
    apply Hfin. intros done i [data k] HP Hi. rewrite Hrange.
    destruct (Z.eqb_spec (max_value + 1 - min_value) 0) as [Hz|_]; [lia|].
    apply Hstore; [done..|]. apply Hin, Hbnd.
Qed.

(** X2. With distinct bounds that fit the types the code computes in, both
    generating loops of RandUniformArray1 stay inside
    [min_value, max_value]. *)
Theorem RandUniformArray1_distinct_bounds (g : RandGen) (calls : nat) (c : Context)
    (dim min_value max_value : Z) :
  0 ≤ dim → min_value < max_value → rand_bounds_fit g min_value max_value →
  ∃ a calls', RandUniformArray1 g calls c dim min_value max_value = Ok (a, calls') ∧
    ∀ i, 0 ≤ i < dim → ∃ v, Array1_get a i = Ok v ∧ min_value ≤ v ≤ max_value.
Proof.
  intros Hdim Hlt Hfit.
  destruct (RandUniformArray1_spec g calls c dim min_value max_value Hdim Hlt Hfit)
    as (a & E & _ & _ & Hv).
  exists a, (calls + Z.to_nat dim)%nat. split; [done|].
  intros i Hi.
  exists (rand_value g min_value max_value (rand_draw g (calls + Z.to_nat i))). split.
  - rewrite <- (Z2Nat.id i) at 1 by lia. apply Hv. lia.
  - apply rand_value_bounds; [done|]. apply rand_draw_range.
Qed.

End RandProps.

(** C7 fails on equal bounds: RandUniformArray1 with dim = 3 and
    min_value = max_value = 5 returns [0, 0, 0] for any target context and
    any state of rand(), and 0 is not in [5, 5]. *)
Theorem RandUniformArray1_equal_bounds_outside (c : Context) (calls : nat) :
  @RandUniformArray1 int32_elem lcg_rand calls c 3 5 5 = Ok (array1_of c [0; 0; 0], calls) ∧
  ¬ (5 ≤ 0 ≤ 5).
Proof. split; [reflexivity|lia]. Qed.

(** ** Append *)


Section ConcatFacts.
Context {T : Type}.
Implicit Types (contents : list (list T)) (l : list T).

Lemma sizes_upto_0 contents : sizes_upto contents 0 = 0.
Proof. reflexivity. Qed.

Lemma sizes_upto_S contents (k : nat) l :
  contents !! k = Some l →
  sizes_upto contents (S k) = sizes_upto contents k + Z.of_nat (length l).
Proof.
  intros Hk. unfold sizes_upto. rewrite (take_S_r _ _ _ Hk), concat_app, length_app.
  simpl. rewrite app_nil_r. lia.
Qed.

Lemma sizes_upto_all contents (k : nat) :
  (length contents ≤ k)%nat → sizes_upto contents k = Z.of_nat (length (concat contents)).
Proof. intros Hk. unfold sizes_upto. now rewrite take_ge. Qed.

Lemma sizes_upto_nonneg contents (k : nat) : 0 ≤ sizes_upto contents k.
Proof. unfold sizes_upto. lia. Qed.

Lemma lookup_concat_at contents (i j : nat) l v :
  contents !! i = Some l → l !! j = Some v →
  concat contents !! (length (concat (take i contents)) + j)%nat = Some v.
Proof.
  intros Hi Hj. remember (concat (take i contents)) as pre eqn:Epre.
  rewrite <- (take_drop_middle contents i l Hi).
  rewrite concat_app, <- Epre, lookup_app_r by lia.
  replace (length pre + j - length pre)%nat with j by lia.
  simpl. rewrite lookup_app_l; [done|]. now apply lookup_lt_Some in Hj.
Qed.

Lemma sizes_upto_succ_le contents (i : nat) l :
  contents !! i = Some l →
  sizes_upto contents i + Z.of_nat (length l) ≤ Z.of_nat (length (concat contents)).
Proof.
  intros Hi. unfold sizes_upto. remember (concat (take i contents)) as pre eqn:Epre.
  rewrite <- (take_drop_middle contents i l Hi).
  rewrite concat_app, <- Epre, length_app. simpl. rewrite length_app. lia.
Qed.

(** Every position of the concatenation lies in one of the lists. *)
Lemma concat_locate contents (p : nat) v :
  concat contents !! p = Some v →
  ∃ (i j : nat) l, contents !! i = Some l ∧ l !! j = Some v ∧
                   Z.of_nat p = sizes_upto contents i + Z.of_nat j.
Proof.
  revert p. induction contents as [|l0 contents IH]; intros p Hp; [done|].
  simpl in Hp. destruct (decide (p < length l0)%nat) as [Hlt|Hge].
  - rewrite lookup_app_l in Hp by done. exists 0%nat, p, l0.
    split; [done|]. split; [done|]. rewrite sizes_upto_0. lia.
  - rewrite lookup_app_r in Hp by lia.
    destruct (IH _ Hp) as (i & j & l & Hi & Hj & Hpos).
    exists (S i), j, l. split; [done|]. split; [done|].
    unfold sizes_upto in *. cbn [take concat]. rewrite length_app. lia.
Qed.

End ConcatFacts.

Section AppendBody.
Context {T : Type} `{ElemType T}.
Variables (srcs : list (Array1 T)) (contents : list (list T)).
Hypothesis Hholds : Forall2 Array1_holds srcs contents.

Lemma Append_src_lookup (i : nat) :
  (i < length srcs)%nat →
  ∃ a l, srcs !! i = Some a ∧ contents !! i = Some l ∧ Array1_holds a l ∧
         load (Ptr srcs 0) (Z.of_nat i) = Ok a.
Proof.
  intros Hi. destruct (lookup_lt_is_Some_2 srcs i Hi) as [a Ha].
  destruct (Forall2_lookup_l _ _ _ _ _ Hholds Ha) as (l & Hl & Hal).
  exists a, l. split; [done|]. split; [done|]. split; [done|].
  apply load_Ok. cbn [p_pos p_buf]. rewrite Z.add_0_l, Nat2Z.id. split; [lia|done].
Qed.

(** The first loop of Append: the row splits, the total size and a bound on
    the sizes of the sources. *)
Lemma Append_sizes_loop :
  Z.of_nat (length (concat contents)) < 2 ^ 31 →
  ∃ rsv max_dim,
    for_each (seqZ 0 (Z.of_nat (length srcs)))
      (λ i '(row_splits_vec, sum, max_dim),
         bind (load (Ptr srcs 0) i) (λ src_i,
           let dim := Dim src_i in
           let max_dim := if max_dim <? dim then dim else max_dim in
           let sum := int32 (sum + dim) in
           bind (store row_splits_vec (i + 1) sum) (λ row_splits_vec,
             Ok (row_splits_vec, sum, max_dim))))
      (Ptr (<[Z.to_nat (0 + 0) := 0]> (replicate (Z.to_nat (Z.of_nat (length srcs) + 1)) 0)) 0,
       0, 0)
    = Ok (rsv, Z.of_nat (length (concat contents)), max_dim) ∧
    p_pos rsv = 0 ∧ length (p_buf rsv) = S (length srcs) ∧
    (∀ k : nat, (k ≤ length srcs)%nat → load rsv (Z.of_nat k) = Ok (sizes_upto contents k)) ∧
    (∀ (i : nat) a, srcs !! i = Some a → Dim a ≤ max_dim).
Proof.
  intros Htot.
  match goal with |- context [for_each ?l ?body ?s0] =>
    destruct (for_each_inv
      (λ done (st : ptr Z * Z * Z),
         p_pos st.1.1 = 0 ∧
         length (p_buf st.1.1) = S (length srcs) ∧
         st.1.2 = sizes_upto contents (length done) ∧
         (∀ k : nat, (k ≤ length done)%nat →
            load st.1.1 (Z.of_nat k) = Ok (sizes_upto contents k)) ∧
         (∀ (i : nat) a, (i < length done)%nat → srcs !! i = Some a → Dim a ≤ st.2) ∧
         0 ≤ st.2)
      l body s0) as ([[rsv sum] md] & E & Hpos & Hlen & Hsum & Hval & Hmax & _)
  end.
  - cbn [fst snd p_pos p_buf length]. rewrite length_insert, length_replicate.
    split; [done|]. split; [lia|]. split; [done|]. split; [|split; [intros; lia|done]].
    intros k Hk. assert (k = 0%nat) as -> by lia.
    apply load_Ok. cbn [p_pos p_buf]. split; [lia|].
    apply list_lookup_insert_eq. rewrite length_replicate. lia.
  - intros done i [[rsv sum] md] (Hpos & Hlen & Hsum & Hval & Hmax & Hmd)
      [rest [-> Hlt]%seqZ_split].
    cbn [fst snd] in *. rewrite Z.add_0_l.
    destruct (Append_src_lookup (length done)) as (a & l & Ha & Hl & [Hdim _] & Hload); [lia|].
    rewrite Hload. cbn [bind]. cbv zeta.
    assert (Hfit : int32 (sum + Dim a) = sum + Dim a).
    { apply int32_small. pose proof (sizes_upto_succ_le contents _ _ Hl).
      pose proof (sizes_upto_nonneg contents (length done)). lia. }
    rewrite Hfit.
    rewrite store_Ok by (rewrite Hpos, Hlen; lia). cbn [bind].
    eexists. split; [done|]. cbn [fst snd p_pos p_buf].
    rewrite length_insert, length_app. cbn [length].
    split; [done|]. split; [done|]. split.
    { rewrite Nat.add_1_r, (sizes_upto_S _ _ _ Hl), Hsum. lia. }
    split; [|split].
    + intros k Hk. destruct (decide (k = S (length done))) as [->|Hne].
      * replace (Z.of_nat (S (length done))) with (Z.of_nat (length done) + 1) by lia.
        rewrite load_store_eq by (rewrite Hpos, Hlen; lia).
        f_equal. rewrite (sizes_upto_S _ _ _ Hl), Hsum. lia.
      * rewrite load_store_ne by lia. apply Hval. lia.
    + intros i a' Hi Ha'. destruct (decide (i = length done)) as [->|Hne].
      * assert (a' = a) as -> by congruence. destruct (Z.ltb_spec md (Dim a)); lia.
      * specialize (Hmax i a' ltac:(lia) Ha'). destruct (Z.ltb_spec md (Dim a)); lia.
    + destruct (Z.ltb_spec md (Dim a)); lia.
  - cbn [fst snd] in *. rewrite length_seqZ, Nat2Z.id in *.
    pose proof (Forall2_length _ _ _ Hholds) as Hlen2.
    exists rsv, md. rewrite sizes_upto_all in Hsum by lia. subst sum.
    split; [done|]. split; [done|]. split; [done|]. split; [done|].
    intros i a Ha. apply (Hmax i a); [|done]. now apply lookup_lt_Some in Ha.
Qed.

Lemma memcpy_spec (dst src : ptr T) (d : Z) :
  0 ≤ d →
  (∀ k, 0 ≤ k < d → ∃ v, load src k = Ok v) →
  (∀ k, 0 ≤ k < d → 0 ≤ p_pos dst + k < Z.of_nat (length (p_buf dst))) →
  ∃ dst', memcpy dst src (ElementSize * d) = Ok dst' ∧
    p_pos dst' = p_pos dst ∧ length (p_buf dst') = length (p_buf dst) ∧
    (∀ k, 0 ≤ k < d → load dst' k = load src k) ∧
    (∀ k, ¬ (0 ≤ k < d) → load dst' k = load dst k).
Proof.
  intros Hd Hsrc Hdst. unfold memcpy.
  rewrite Z.mul_comm, Z.div_mul by (pose proof (ElementSize_pos (T:=T)); lia).
  destruct (copy_loop (λ _, true) (λ k, load src k) (λ k : Z, k) (seqZ 0 d) dst)
    as (dst' & E & Hpos & Hlen & Hsame & Hval).
  { intros k Hk%elem_of_seqZ _. split; [apply Hsrc|apply Hdst]; lia. }
  exists dst'. split; [exact E|]. split; [done|]. split; [done|]. split.
  - intros k Hk. destruct (Hsrc k Hk) as [v Hv]. rewrite Hv. apply Hval.
    + exists k. rewrite elem_of_seqZ. split; [lia|done].
    + now intros k' _ _ ->.
  - intros k Hk. apply Hsame. intros k' Hk'%elem_of_seqZ _ ->. lia.
Qed.

(** The host branch: one memcpy per source, the destination pointer
    advancing by the size of the source. *)
Lemma Append_host_loop (ans_data : ptr T) (row_splits_vec : ptr Z) :
  Z.of_nat (length (concat contents)) < 2 ^ 31 →
  Z.of_nat (length (concat contents)) * ElementSize < 2 ^ 64 →
  p_pos ans_data = 0 →
  Z.of_nat (length (p_buf ans_data)) = Z.of_nat (length (concat contents)) →
  (∀ k : nat, (k ≤ length srcs)%nat →
     load row_splits_vec (Z.of_nat k) = Ok (sizes_upto contents k)) →
  ∃ out,
    for_each (seqZ 0 (Z.of_nat (length srcs)))
      (λ i ans_data,
         bind (load row_splits_vec i) (λ offset,
         bind (load (Ptr srcs 0) i) (λ src_i,
           let this_dim := Dim src_i in
           let this_src_data := Array1_Data src_i in
           bind (memcpy ans_data this_src_data (uint64 (ElementSize * uint64 this_dim)))
             (λ ans_data, Ok (ptr_add ans_data this_dim))))) ans_data = Ok out ∧
    length (p_buf out) = length (p_buf ans_data) ∧
    ∀ (k : nat) v, concat contents !! k = Some v → load (Ptr (p_buf out) 0) (Z.of_nat k) = Ok v.
Proof.
  intros Htot Hbytes Hp0 Hl0 Hrs.
  match goal with |- context [for_each ?l ?body ?s0] =>
    destruct (for_each_inv
      (λ done (p : ptr T),
         p_pos p = sizes_upto contents (length done) ∧
         length (p_buf p) = length (p_buf ans_data) ∧
         ∀ (k : nat) v, concat (take (length done) contents) !! k = Some v →
           load (Ptr (p_buf p) 0) (Z.of_nat k) = Ok v)
      l body s0) as (out & E & Hpos & Hlen & Hval)
  end.
  - cbn [length take concat]. split; [done|]. split; [done|]. intros k v Hk. done.
  - intros done i p (Hpos & Hlen & Hval) [rest [-> Hlt]%seqZ_split]. rewrite Z.add_0_l.
    destruct (Append_src_lookup (length done)) as (a & l & Ha & Hl & [Hdim Hget] & Hload);
      [lia|].
    rewrite Hrs by lia. cbn [bind]. rewrite Hload. cbn [bind]. cbv zeta.
    pose proof (sizes_upto_succ_le contents _ _ Hl) as Hfit.
    pose proof (sizes_upto_nonneg contents (length done)) as Hnn.
    assert (Hsz : uint64 (ElementSize * uint64 (Dim a)) = ElementSize * Dim a).
    { pose proof (ElementSize_pos (T:=T)).
      rewrite (uint64_small (Dim a)) by lia. apply uint64_small. nia. }
    rewrite Hsz.
    destruct (memcpy_spec p (Array1_Data a) (Dim a)) as (p' & Em & Hp' & Hl' & Hcp & Hfr).
    { lia. }
    { intros k Hk. destruct (lookup_lt_is_Some_2 l (Z.to_nat k)) as [v Hv]; [lia|].
      exists v. apply Hget in Hv. now rewrite Z2Nat.id in Hv by lia. }
    { intros k Hk. rewrite Hpos, Hlen. lia. }
    rewrite Em. cbn [bind]. eexists. split; [done|].
    unfold ptr_add. cbn [p_pos p_buf]. rewrite length_app. cbn [length].
    rewrite Nat.add_1_r. split; [|split].
    + rewrite Hp', Hpos, (sizes_upto_S _ _ _ Hl). lia.
    + now rewrite Hl'.
    + intros k v. rewrite (take_S_r _ _ _ Hl), concat_app. simpl. rewrite app_nil_r.
      intros Hk.
      assert (Hsh : load (Ptr (p_buf p') 0) (Z.of_nat k)
                    = load p' (Z.of_nat k - sizes_upto contents (length done))).
      { destruct p' as [b' q']. cbn [p_buf p_pos] in *. apply load_shift. lia. }
      rewrite Hsh.
      destruct (decide (k < length (concat (take (length done) contents)))%nat) as [Hlt'|Hge].
      * rewrite lookup_app_l in Hk by done.
        rewrite Hfr by (unfold sizes_upto; lia).
        rewrite <- (Hval k v Hk). destruct p as [b q]. cbn [p_buf p_pos] in *.
        apply load_shift. lia.
      * rewrite lookup_app_r in Hk by lia.
        rewrite Hcp.
        2:{ apply lookup_lt_Some in Hk. unfold sizes_upto. lia. }
        apply Hget in Hk. rewrite <- Hk. unfold Array1_get. f_equal.
        unfold sizes_upto. lia.
  - exists out. split; [done|]. split; [done|]. intros k v Hk. apply Hval.
    rewrite length_seqZ, Nat2Z.id, take_ge; [done|].
    rewrite (Forall2_length _ _ _ Hholds). lia.
Qed.

Lemma Eval2_ext {S} (c : Context) (m n : Z) (f g : Z → Z → S → outcome S) (s : S) :
  (∀ i j s, 0 ≤ i < m → 0 ≤ j < n → f i j s = g i j s) →
  Eval2 c m n f s = Eval2 c m n g s.
Proof.
  intros Hfg. unfold Eval2. destruct (GetDeviceType c).
  - apply for_each_ext. intros i s1 Hi%elem_of_seqZ.
    apply for_each_ext. intros j s2 Hj%elem_of_seqZ. apply Hfg; lia.
  - apply for_each_ext. intros ij s1 [Hi Hj]%elem_of_schedule%elem_of_index_pairs.
    now apply Hfg.
Qed.

(** A launch whose threads each copy one element of one source to its place
    in the concatenation, and which covers every element of every source,
    fills the destination with the concatenation. *)
Lemma Append_scatter (c : Context) (m n : Z) (guard : Z * Z → bool)
    (rd : Z * Z → outcome T) (wr : Z * Z → Z) (ans_data : ptr T) :
  p_pos ans_data = 0 →
  Z.of_nat (length (p_buf ans_data)) = Z.of_nat (length (concat contents)) →
  (∀ ij, ij ∈ index_pairs m n → guard ij = true →
     ∃ (i j : nat) l v, contents !! i = Some l ∧ l !! j = Some v ∧
       rd ij = Ok v ∧ wr ij = sizes_upto contents i + Z.of_nat j) →
  (∀ (i j : nat) l v, contents !! i = Some l → l !! j = Some v →
     ∃ ij, ij ∈ index_pairs m n ∧ guard ij = true ∧
           wr ij = sizes_upto contents i + Z.of_nat j) →
  ∃ out, Eval2 c m n (λ i j, copy_step guard rd wr (i, j)) ans_data = Ok out ∧
    length (p_buf out) = length (p_buf ans_data) ∧
    ∀ (k : nat) v, concat contents !! k = Some v → load (Ptr (p_buf out) 0) (Z.of_nat k) = Ok v.
Proof.
  intros Hp0 Hl0 Hsound Hcover.
  destruct (Eval2_copy c m n guard rd wr ans_data) as (out & E & Hpos & Hlen & _ & Hval).
  { intros ij Hin Hg. destruct (Hsound ij Hin Hg) as (i & j & l & v & Hi & Hj & Hrd & Hwr).
    split; [eauto|]. rewrite Hp0, Hwr, Hl0.
    pose proof (sizes_upto_succ_le contents _ _ Hi). pose proof (sizes_upto_nonneg contents i).
    apply lookup_lt_Some in Hj. lia. }
  exists out. split; [done|]. split; [done|].
  intros k v Hk. destruct (concat_locate _ _ _ Hk) as (i & j & l & Hi & Hj & Hkp).
  replace (load (Ptr (p_buf out) 0) (Z.of_nat k)) with (load out (Z.of_nat k)).
  2:{ destruct out as [b q]. cbn [p_buf p_pos] in *. apply load_shift. lia. }
  apply Hval.
  - destruct (Hcover i j l v Hi Hj) as (ij & Hin & Hg & Hw). exists ij. rewrite Hw. auto.
  - intros ij Hin Hg Hw.
    destruct (Hsound ij Hin Hg) as (i' & j' & l' & v' & Hi' & Hj' & Hrd & Hwr).
    rewrite Hrd. f_equal.
    pose proof (lookup_concat_at contents i' j' l' v' Hi' Hj') as Hc.
    replace (length (concat (take i' contents)) + j')%nat with k in Hc; [congruence|].
    unfold sizes_upto in Hwr. lia.
Qed.

(** The vector of source data pointers built by the device branch. *)
Lemma Append_src_ptrs_loop :
  ∃ spv,
    for_each (seqZ 0 (Z.of_nat (length srcs)))
      (λ i src_ptrs_vec,
         bind (load (Ptr srcs 0) i) (λ src_i, store src_ptrs_vec i (Array1_Data src_i)))
      (Ptr (replicate (Z.to_nat (Z.of_nat (length srcs))) (Ptr [] 0)) 0) = Ok spv ∧
    ∀ (i : nat) a, srcs !! i = Some a → load (Ptr (p_buf spv) 0) (Z.of_nat i) = Ok (Array1_Data a).
Proof.
  set (spv0 := Ptr (replicate _ _) 0).
  destruct (copy_loop (λ _, true)
              (λ i, bind (load (Ptr srcs 0) i) (λ src_i, Ok (Array1_Data src_i)))
              (λ i : Z, i) (seqZ 0 (Z.of_nat (length srcs))) spv0)
    as (spv & E & Hpos & Hlen & _ & Hval).
  { intros i Hi%elem_of_seqZ _.
    destruct (Append_src_lookup (Z.to_nat i)) as (a & l & Ha & Hl & Hal & Hload); [lia|].
    rewrite Z2Nat.id in Hload by lia. rewrite Hload. cbn [bind]. split; [eauto|].
    subst spv0. cbn [p_pos p_buf]. rewrite length_replicate. lia. }
  exists spv. split.
  - rewrite <- E. apply for_each_ext. intros i s _. unfold copy_step.
    destruct (load (Ptr srcs 0) i); done.
  - intros i a Ha.
    replace (load (Ptr (p_buf spv) 0) (Z.of_nat i)) with (load spv (Z.of_nat i)).
    2:{ destruct spv as [b q]. cbn [p_buf p_pos] in *. subst q. done. }
    pose proof (lookup_lt_Some _ _ _ Ha) as Hi.
    destruct (Append_src_lookup i Hi) as (a' & l & Ha' & Hl & Hal & Hload).
    assert (a' = a) as -> by congruence.
    apply Hval.
    + exists (Z.of_nat i). rewrite elem_of_seqZ. split; [lia|done].
    + intros i' _ _ ->. now rewrite Hload.
Qed.

(** The rectangular strategy. *)
Lemma Append_rectangular (c : Context) (max_dim : Z) (row_splits_data : ptr Z)
    (src_ptrs_data : ptr (ptr T)) (ans_data : ptr T) :
  Z.of_nat (length (concat contents)) < 2 ^ 31 →
  p_pos ans_data = 0 →
  Z.of_nat (length (p_buf ans_data)) = Z.of_nat (length (concat contents)) →
  (∀ k : nat, (k ≤ length srcs)%nat →
     load row_splits_data (Z.of_nat k) = Ok (sizes_upto contents k)) →
  (∀ (i : nat) a, srcs !! i = Some a → load src_ptrs_data (Z.of_nat i) = Ok (Array1_Data a)) →
  (∀ (i : nat) a, srcs !! i = Some a → Dim a ≤ max_dim) →
  ∃ out,
    Eval2 c (Z.of_nat (length srcs)) max_dim
      (λ (i j : Z) (ans_data : ptr T),
         bind (load row_splits_data i) (λ row_start,
         bind (load row_splits_data (i + 1)) (λ row_end,
         bind (load src_ptrs_data i) (λ src_ptr,
           if j <? int32 (row_end - row_start) then
             bind (load src_ptr j) (λ v, store ans_data (int32 (row_start + j)) v)
           else Ok ans_data)))) ans_data = Ok out ∧
    length (p_buf out) = length (p_buf ans_data) ∧
    ∀ (k : nat) v, concat contents !! k = Some v → load (Ptr (p_buf out) 0) (Z.of_nat k) = Ok v.
Proof.
  intros Htot Hp0 Hl0 Hrs Hsp Hmax.
  pose (arr := λ i : Z, from_option id (Array1_new GetCpuContext 0) (srcs !! Z.to_nat i)).
  pose (guard := λ ij : Z * Z, ij.2 <? Dim (arr ij.1)).
  pose (rd := λ ij : Z * Z, load (Array1_Data (arr ij.1)) ij.2).
  pose (wr := λ ij : Z * Z, sizes_upto contents (Z.to_nat ij.1) + ij.2).
  assert (Harr : ∀ (i : nat) a, srcs !! i = Some a → arr (Z.of_nat i) = a).
  { intros i a Ha. subst arr. cbv beta. now rewrite Nat2Z.id, Ha. }
  erewrite Eval2_ext; [apply (Append_scatter c _ _ guard rd wr); [done|done| |]|].
  - intros [i j] [Hi Hj]%elem_of_index_pairs Hg. cbn [fst snd] in *.
    destruct (Append_src_lookup (Z.to_nat i)) as (a & l & Ha & Hl & [Hdim Hget] & _); [lia|].
    subst guard rd wr. cbv beta in *. cbn [fst snd] in *.
    rewrite <- (Z2Nat.id i) in Hg by lia. rewrite (Harr _ _ Ha) in Hg.
    apply Z.ltb_lt in Hg.
    destruct (lookup_lt_is_Some_2 l (Z.to_nat j)) as [v Hv]; [lia|].
    exists (Z.to_nat i), (Z.to_nat j), l, v. split; [done|]. split; [done|]. split.
    + rewrite <- (Z2Nat.id i) by lia. rewrite (Harr _ _ Ha).
      apply Hget in Hv. now rewrite Z2Nat.id in Hv by lia.
    + now rewrite Z2Nat.id by lia.
  - intros i j l v Hi Hj.
    pose proof (lookup_lt_Some _ _ _ Hi) as Hil.
    rewrite <- (Forall2_length _ _ _ Hholds) in Hil.
    destruct (Append_src_lookup i Hil) as (a & l' & Ha & Hl' & [Hdim Hget] & _).
    assert (l' = l) as -> by congruence.
    apply lookup_lt_Some in Hj. specialize (Hmax _ _ Ha).
    exists (Z.of_nat i, Z.of_nat j). split; [|split].
    + apply elem_of_index_pairs. cbn [fst snd]. lia.
    + subst guard. cbv beta. cbn [fst snd]. rewrite (Harr _ _ Ha). apply Z.ltb_lt. lia.
    + subst wr. cbv beta. cbn [fst snd]. now rewrite Nat2Z.id.
  - intros i j s Hi Hj. cbv beta.
    assert (∃ i' : nat, i = Z.of_nat i') as [i' ->] by (exists (Z.to_nat i); lia).
    destruct (Append_src_lookup i') as (a & l & Ha & Hl & [Hdim Hget] & _); [lia|].
    rewrite (Hrs i') by lia. cbn [bind].
    replace (Z.of_nat i' + 1) with (Z.of_nat (S i')) by lia.
    rewrite (Hrs (S i')) by lia. cbn [bind].
    rewrite (Hsp _ _ Ha). cbn [bind].
    rewrite (sizes_upto_S _ _ _ Hl).
    replace (sizes_upto contents i' + Z.of_nat (length l) - sizes_upto contents i')
      with (Dim a) by lia.
    pose proof (sizes_upto_succ_le contents _ _ Hl) as Hfit.
    pose proof (sizes_upto_nonneg contents i') as Hnn.
    rewrite (int32_small (Dim a)) by lia.
    unfold copy_step. subst guard rd wr. cbv beta. cbn [fst snd].
    rewrite (Harr _ _ Ha), Nat2Z.id.
    destruct (Z.ltb_spec j (Dim a)) as [Hjd|_]; [|done].
    rewrite (int32_small (sizes_upto contents i' + j)) by lia. done.
Qed.

End AppendBody.

(** The loop that chooses the block size ends, within its fuel, with a
    block size between 256 and 8192. *)
Lemma block_dim_loop_spec (avg_input_size : Z) :
  ∃ block_dim, block_dim_loop 32 256 avg_input_size = Ok block_dim ∧ 256 ≤ block_dim ≤ 8192.
Proof.
  assert (G : ∀ (fuel k : nat) bd, bd * 2 ^ Z.of_nat k = 8192 → (k < fuel)%nat → 0 < bd →
            ∃ r, block_dim_loop fuel bd avg_input_size = Ok r ∧ bd ≤ r ≤ 8192).
  { induction fuel as [|fuel IH]; intros k bd Hk Hf Hbd; [lia|].
    cbn [block_dim_loop].
    destruct ((bd * 4 <? avg_input_size) && (bd <? 8192)) eqn:Hc.
    - apply andb_true_iff in Hc as [_ Hlt%Z.ltb_lt].
      destruct k as [|k]; [cbn in Hk; lia|].
      destruct (IH k (bd * 2)) as (r & Er & Hr); [|lia|lia|].
      + rewrite Nat2Z.inj_succ, Z.pow_succ_r in Hk by lia. lia.
      + exists r. split; [done|lia].
    - exists bd. split; [done|]. assert (0 < 2 ^ Z.of_nat k) by (apply Z.pow_pos_nonneg; lia).
      nia. }
  apply (G 32%nat 5%nat 256); [reflexivity|lia|lia].
Qed.

(** Packing a source index and a block number into a 64-bit word, and
    taking them out again. *)
Lemma index_map_decode (i j : Z) :
  0 ≤ i < 2 ^ 32 → 0 ≤ j < 2 ^ 32 →
  let index := uint64 (uint64 (Z.shiftl (uint64 j) 32) + uint64 i) in
  uint32 index = i ∧ uint32 (Z.shiftr index 32) = j.
Proof.
  intros Hi Hj. cbv zeta. unfold uint64, uint32.
  change (2 ^ 32) with 4294967296 in *. change (2 ^ 64) with 18446744073709551616.
  rewrite (Z.mod_small j) by lia. rewrite Z.shiftl_mul_pow2 by lia.
  change (2 ^ 32) with 4294967296.
  rewrite (Z.mod_small (j * 4294967296)) by lia. rewrite (Z.mod_small i) by lia.
  rewrite (Z.mod_small (j * 4294967296 + i)) by lia.
  rewrite Z.shiftr_div_pow2 by lia. change (2 ^ 32) with 4294967296.
  split; Z.to_euclidean_division_equations; lia.
Qed.

Lemma for_each_push {A B} (f : B → A) (l : list B) (acc : list A) :
  for_each l (λ j acc, Ok (acc ++ [f j])) acc = Ok (acc ++ (f <$> l)).
Proof.
  revert acc. induction l as [|x l IH]; intros acc; simpl.
  - now rewrite app_nil_r.
  - rewrite IH. now rewrite <- app_assoc.
Qed.

Section AppendBlocks.
Context {T : Type} `{ElemType T}.
Variables (srcs : list (Array1 T)) (contents : list (list T)).
Hypothesis Hholds : Forall2 Array1_holds srcs contents.
Variable block_dim : Z.
Hypothesis Hbd : 256 ≤ block_dim ≤ 8192.


Lemma num_blocks_of_spec (a : Array1 T) (j : Z) :
  0 ≤ Dim a → 0 ≤ j →
  (j < num_blocks_of block_dim a ↔ j * block_dim < Dim a).
Proof.
  intros Hd Hj. unfold num_blocks_of. rewrite Z.quot_div_nonneg by lia.
  Z.to_euclidean_division_equations. nia.
Qed.

(** The index map lists exactly the blocks of the sources. *)
Lemma Append_index_map_loop :
  Z.of_nat (length (concat contents)) + 8192 < 2 ^ 31 →
  ∃ index_map,
    for_each (seqZ 0 (Z.of_nat (length srcs)))
      (λ i index_map,
         bind (load (Ptr srcs 0) i) (λ src_i,
           let this_array_size := Dim src_i in
           let this_num_blocks :=
             int32 (int32 (this_array_size + block_dim) - 1) `quot` block_dim in
           for_each (seqZ 0 this_num_blocks) (λ j index_map,
             Ok (index_map ++ [uint64 (uint64 (Z.shiftl (uint64 j) 32) + uint64 i)]))
             index_map)) [] = Ok index_map ∧
    (∀ x, x ∈ index_map →
       ∃ (i : nat) a j, srcs !! i = Some a ∧ 0 ≤ j < num_blocks_of block_dim a ∧
                        x = index_word (Z.of_nat i) j) ∧
    (∀ (i : nat) a j, srcs !! i = Some a → 0 ≤ j < num_blocks_of block_dim a →
       index_word (Z.of_nat i) j ∈ index_map).
Proof.
  intros Htot.
  match goal with |- context [for_each ?l ?body ?s0] =>
    destruct (for_each_inv
      (λ done (im : list Z),
         (∀ x, x ∈ im →
            ∃ (i : nat) a j, srcs !! i = Some a ∧ 0 ≤ j < num_blocks_of block_dim a ∧
                             x = index_word (Z.of_nat i) j) ∧
         (∀ (i : nat) a j, (i < length done)%nat → srcs !! i = Some a →
            0 ≤ j < num_blocks_of block_dim a → index_word (Z.of_nat i) j ∈ im))
      l body s0) as (im & E & Hin & Hall)
  end.
  - split; [intros x Hx; inversion Hx|]. cbn [length]. intros; lia.
  - intros done i im [Hin Hall] [rest [-> Hlt]%seqZ_split]. rewrite Z.add_0_l.
    destruct (Append_src_lookup srcs contents Hholds (length done))
      as (a & l & Ha & Hl & [Hdim _] & Hload); [lia|].
    rewrite Hload. cbn [bind]. cbv zeta.
    pose proof (sizes_upto_succ_le contents _ _ Hl) as Hfit.
    pose proof (sizes_upto_nonneg contents (length done)) as Hnn.
    rewrite (int32_small (Dim a + block_dim)) by lia.
    rewrite (int32_small (Dim a + block_dim - 1)) by lia.
    rewrite (for_each_push (λ j, uint64 (uint64 (Z.shiftl (uint64 j) 32)
                                         + uint64 (Z.of_nat (length done))))).
    eexists. split; [done|]. split.
    + intros x [Hx|Hx]%elem_of_app; [now apply Hin|].
      apply list_elem_of_fmap in Hx as (j & -> & Hj%elem_of_seqZ).
      exists (length done), a, j. split; [done|]. split; [|done].
      unfold num_blocks_of. lia.
    + intros i a' j Hi Ha' Hj. rewrite length_app in Hi. cbn [length] in Hi.
      apply elem_of_app. destruct (decide (i = length done)) as [->|Hne].
      * right. assert (a' = a) as -> by congruence.
        apply list_elem_of_fmap. exists j. split; [done|].
        apply elem_of_seqZ. unfold num_blocks_of in Hj. lia.
      * left. apply (Hall i a' j); [lia|done..].
  - exists im. split; [done|]. split; [done|].
    intros i a j Ha Hj. apply (Hall i a j); [|done..].
    rewrite length_seqZ. apply lookup_lt_Some in Ha. lia.
Qed.

(** The block-balanced strategy. *)
Lemma Append_block_balanced (c : Context) (index_map : list Z) (row_splits_data : ptr Z)
    (src_ptrs_data : ptr (ptr T)) (ans_data : ptr T) :
  Z.of_nat (length srcs) < 2 ^ 31 →
  Z.of_nat (length (concat contents)) + 8192 < 2 ^ 31 →
  p_pos ans_data = 0 →
  Z.of_nat (length (p_buf ans_data)) = Z.of_nat (length (concat contents)) →
  (∀ k : nat, (k ≤ length srcs)%nat →
     load row_splits_data (Z.of_nat k) = Ok (sizes_upto contents k)) →
  (∀ (i : nat) a, srcs !! i = Some a → load src_ptrs_data (Z.of_nat i) = Ok (Array1_Data a)) →
  (∀ x, x ∈ index_map →
     ∃ (i : nat) a j, srcs !! i = Some a ∧ 0 ≤ j < num_blocks_of block_dim a ∧
                      x = index_word (Z.of_nat i) j) →
  (∀ (i : nat) a j, srcs !! i = Some a → 0 ≤ j < num_blocks_of block_dim a →
     index_word (Z.of_nat i) j ∈ index_map) →
  ∃ out,
    Eval2 c (Z.of_nat (length index_map)) block_dim
      (λ (i j : Z) (ans_data : ptr T),
         bind (load (Ptr index_map 0) i) (λ index,
           let orig_i := uint32 index in
           let block_index := uint32 (Z.shiftr index 32) in
           bind (load row_splits_data orig_i) (λ row_start,
           bind (load row_splits_data (uint32 (orig_i + 1))) (λ row_end,
             let orig_j :=
               int32 (uint32 (uint32 (block_index * uint32 block_dim) + uint32 j)) in
             bind (load src_ptrs_data orig_i) (λ src_ptr,
               if orig_j <? int32 (row_end - row_start) then
                 bind (load src_ptr orig_j)
                      (λ v, store ans_data (int32 (row_start + orig_j)) v)
               else Ok ans_data))))) ans_data = Ok out ∧
    length (p_buf out) = length (p_buf ans_data) ∧
    ∀ (k : nat) v, concat contents !! k = Some v → load (Ptr (p_buf out) 0) (Z.of_nat k) = Ok v.
Proof.
  intros Hn Htot Hp0 Hl0 Hrs Hsp Hsound Hcomplete.
  change (2 ^ 31) with 2147483648 in *.
  pose (arr := λ i : Z, from_option id (Array1_new GetCpuContext 0) (srcs !! Z.to_nat i)).
  pose (im_at := λ a : Z, from_option id 0 (index_map !! Z.to_nat a)).
  pose (oi := λ ij : Z * Z, uint32 (im_at ij.1)).
  pose (oj := λ ij : Z * Z,
          int32 (uint32 (uint32 (uint32 (Z.shiftr (im_at ij.1) 32) * uint32 block_dim)
                         + uint32 ij.2))).
  pose (guard := λ ij : Z * Z, oj ij <? Dim (arr (oi ij))).
  pose (rd := λ ij : Z * Z, load (Array1_Data (arr (oi ij))) (oj ij)).
  pose (wr := λ ij : Z * Z, sizes_upto contents (Z.to_nat (oi ij)) + oj ij).
  assert (Harr : ∀ (i : nat) a, srcs !! i = Some a → arr (Z.of_nat i) = a).
  { intros i a Ha. subst arr. cbv beta. now rewrite Nat2Z.id, Ha. }
  assert (Hdims : ∀ (i : nat) a l, srcs !! i = Some a → contents !! i = Some l →
            Array1_holds a l → 0 ≤ Dim a ≤ Z.of_nat (length (concat contents))).
  { intros i a l Ha Hl [Hdim _]. pose proof (sizes_upto_succ_le contents _ _ Hl).
    pose proof (sizes_upto_nonneg contents i). lia. }
  assert (Hwrap : ∀ j t, 0 ≤ j → 0 ≤ t < block_dim → j * block_dim + t < 2147483648 →
            int32 (uint32 (uint32 (j * uint32 block_dim) + uint32 t))
            = j * block_dim + t).
  { intros j t Hj Ht Hlt. unfold int32, uint32.
    change (2 ^ 32) with 4294967296. change (2 ^ 31) with 2147483648.
    rewrite (Z.mod_small block_dim), (Z.mod_small t) by lia.
    rewrite (Z.mod_small (j * block_dim)) by nia.
    rewrite (Z.mod_small (j * block_dim + t)) by nia.
    rewrite Z.mod_small by nia. lia. }
  assert (Hkey : ∀ ij, ij ∈ index_pairs (Z.of_nat (length index_map)) block_dim →
            ∃ (i : nat) a l j,
              load (Ptr index_map 0) ij.1 = Ok (im_at ij.1) ∧
              srcs !! i = Some a ∧ contents !! i = Some l ∧ Array1_holds a l ∧
              0 ≤ j ∧ j * block_dim < Dim a ∧
              uint32 (im_at ij.1) = Z.of_nat i ∧ oi ij = Z.of_nat i ∧
              oj ij = j * block_dim + ij.2).
  { intros [ai t] [Hai Ht]%elem_of_index_pairs. cbn [fst snd] in *.
    destruct (lookup_lt_is_Some_2 index_map (Z.to_nat ai)) as [x Hx]; [lia|].
    assert (Him : im_at ai = x) by (subst im_at; cbv beta; now rewrite Hx).
    destruct (Hsound x) as (i & a & j & Ha & Hj & ->).
    { apply list_elem_of_lookup. eauto. }
    pose proof (lookup_lt_Some _ _ _ Ha) as Hi.
    destruct (Append_src_lookup srcs contents Hholds i Hi) as (a' & l & Ha' & Hl & Hal & _).
    assert (a' = a) as -> by congruence.
    pose proof (Hdims _ _ _ Ha Hl Hal) as Hd.
    assert (Hjb : j * block_dim < Dim a) by (apply num_blocks_of_spec; lia).
    destruct (index_map_decode (Z.of_nat i) j) as [Hdi Hdj].
    { change (2 ^ 32) with 4294967296. lia. }
    { change (2 ^ 32) with 4294967296. nia. }
    fold (index_word (Z.of_nat i) j) in Hdi, Hdj.
    exists i, a, l, j. split.
    { rewrite Him. apply load_Ok. cbn [p_pos p_buf]. rewrite Z.add_0_l. split; [lia|done]. }
    split; [done|]. split; [done|]. split; [done|]. split; [lia|]. split; [done|].
    split; [now rewrite Him|]. split; [subst oi; cbv beta; cbn [fst]; now rewrite Him|].
    subst oj. cbv beta. cbn [fst snd]. rewrite Him, Hdj.
    apply Hwrap; [lia|lia|nia]. }
  erewrite Eval2_ext; [apply (Append_scatter contents c _ _ guard rd wr); [done|done| |]|].
  - intros ij Hin Hg.
    destruct (Hkey ij Hin) as (i & a & l & j & _ & Ha & Hl & [Hdim Hget] & Hj & Hjb & _ & Hoi & Hoj).
    apply elem_of_index_pairs in Hin as [_ Ht].
    subst guard rd wr. cbv beta in *. rewrite Hoi, (Harr _ _ Ha) in *.
    apply Z.ltb_lt in Hg. rewrite Hoj in *.
    destruct (lookup_lt_is_Some_2 l (Z.to_nat (j * block_dim + ij.2))) as [v Hv]; [nia|].
    exists i, (Z.to_nat (j * block_dim + ij.2)), l, v.
    split; [done|]. split; [done|]. split.
    + apply Hget in Hv. now rewrite Z2Nat.id in Hv by nia.
    + rewrite Nat2Z.id, Z2Nat.id by nia. done.
  - intros i j0 l v Hi Hj0.
    pose proof (lookup_lt_Some _ _ _ Hi) as Hil.
    rewrite <- (Forall2_length _ _ _ Hholds) in Hil.
    destruct (Append_src_lookup srcs contents Hholds i Hil) as (a & l' & Ha & Hl' & Hal & _).
    assert (l' = l) as -> by congruence.
    pose proof Hal as [Hdim _]. apply lookup_lt_Some in Hj0.
    set (j := Z.of_nat j0 / block_dim). set (t := Z.of_nat j0 mod block_dim).
    assert (Hjt : Z.of_nat j0 = j * block_dim + t ∧ 0 ≤ t < block_dim ∧ 0 ≤ j).
    { subst j t. Z.to_euclidean_division_equations. nia. }
    assert (Hjn : 0 ≤ j < num_blocks_of block_dim a).
    { split; [lia|]. apply num_blocks_of_spec; [lia|lia|]. nia. }
    destruct (proj1 (list_elem_of_lookup _ _) (Hcomplete i a j Ha Hjn)) as [ai Hai].
    pose proof (lookup_lt_Some _ _ _ Hai) as Hail.
    assert (Hin : (Z.of_nat ai, t) ∈ index_pairs (Z.of_nat (length index_map)) block_dim).
    { apply elem_of_index_pairs. cbn [fst snd]. lia. }
    destruct (Hkey _ Hin) as (i' & a' & l' & j' & _ & Ha' & _ & _ & Hj' & _ & Hu & Hoi & Hoj).
    assert (Him : im_at (Z.of_nat ai) = index_word (Z.of_nat i) j).
    { subst im_at. cbv beta. now rewrite Nat2Z.id, Hai. }
    destruct (index_map_decode (Z.of_nat i) j) as [Hdi Hdj].
    { change (2 ^ 32) with 4294967296. lia. }
    { change (2 ^ 32) with 4294967296. pose proof (Hdims _ _ _ Ha Hi Hal). nia. }
    fold (index_word (Z.of_nat i) j) in Hdi, Hdj.
    assert (Hoj' : oj (Z.of_nat ai, t) = j * block_dim + t).
    { subst oj. cbv beta. cbn [fst snd]. rewrite Him, Hdj.
      apply Hwrap; [lia|lia|pose proof (Hdims _ _ _ Ha Hi Hal); nia]. }
    assert (Hoi' : oi (Z.of_nat ai, t) = Z.of_nat i).
    { subst oi. cbv beta. cbn [fst]. now rewrite Him. }
    exists (Z.of_nat ai, t). split; [done|]. split.
    + subst guard. cbv beta. rewrite Hoi', Hoj', (Harr _ _ Ha). apply Z.ltb_lt. lia.
    + subst wr. cbv beta. rewrite Hoi', Hoj', Nat2Z.id. lia.
  - intros ai t s Hai Ht. cbv beta zeta.
    assert (Hin : (ai, t) ∈ index_pairs (Z.of_nat (length index_map)) block_dim).
    { apply elem_of_index_pairs. cbn [fst snd]. lia. }
    destruct (Hkey _ Hin) as (i & a & l & j & Hld & Ha & Hl & [Hdim Hget] & Hj & Hjb & Hu & Hoi & Hoj).
    cbn [fst snd] in *.
    pose proof (lookup_lt_Some _ _ _ Ha) as Hi.
    rewrite Hld. cbn [bind]. rewrite Hu.
    rewrite (Hrs i) by lia. cbn [bind].
    replace (uint32 (Z.of_nat i + 1)) with (Z.of_nat (S i)).
    2:{ unfold uint32. rewrite Z.mod_small; [lia|]. change (2 ^ 32) with 4294967296. lia. }
    rewrite (Hrs (S i)) by lia. cbn [bind].
    rewrite (Hsp _ _ Ha). cbn [bind].
    rewrite (sizes_upto_S _ _ _ Hl).
    replace (sizes_upto contents i + Z.of_nat (length l) - sizes_upto contents i)
      with (Dim a) by lia.
    pose proof (sizes_upto_succ_le contents _ _ Hl) as Hfit.
    pose proof (sizes_upto_nonneg contents i) as Hnn.
    rewrite (int32_small (Dim a)) by lia.
    unfold copy_step. subst guard rd wr. cbv beta.
    rewrite Hoi, (Harr _ _ Ha), Nat2Z.id.
    change (int32 (uint32 (uint32 (uint32 (Z.shiftr (im_at ai) 32) * uint32 block_dim)
                           + uint32 t))) with (oj (ai, t)).
    rewrite Hoj. cbn [snd].
    destruct (Z.ltb_spec (j * block_dim + t) (Dim a)) as [Hjd|_]; [|done].
    rewrite (int32_small (sizes_upto contents i + (j * block_dim + t))) by lia. done.
Qed.

End AppendBlocks.

Section AppendLocals.
Context {T : Type} `{ElemType T}.

(** The locals of Append at its closing brace, for sizes that the
    arithmetic of the branch taken can hold. *)
Lemma Append_locals_spec (srcs : list (Array1 T)) (contents : list (list T))
    (src0 : Array1 T) :
  Forall2 Array1_holds srcs contents → head srcs = Some src0 →
  Z.of_nat (length srcs) + 1 < 2 ^ 31 →
  (GetDeviceType (Array1_Context src0) = kCpu →
     Z.of_nat (length (concat contents)) < 2 ^ 31 ∧
     Z.of_nat (length (concat contents)) * ElementSize < 2 ^ 64) →
  (GetDeviceType (Array1_Context src0) = kCuda →
     Z.of_nat (length (concat contents)) + 256 < 2 ^ 30) →
  ∃ row_splits ans,
    Append_locals (Z.of_nat (length srcs)) srcs = Ok (row_splits, ans) ∧
    length row_splits = S (length srcs) ∧
    (∀ k : nat, (k ≤ length srcs)%nat → row_splits !! k = Some (sizes_upto contents k)) ∧
    Array1_holds ans (concat contents) ∧
    Array1_Context ans = Array1_Context src0.
Proof.
  intros Hholds Hhead Hn Hcpub Hcudab.
  destruct srcs as [|src0' srcs'] eqn:Esrcs; [done|]. rewrite <- Esrcs in *.
  assert (src0' = src0) as -> by (subst srcs; cbn in Hhead; congruence).
  assert (Hlen : (0 < length srcs)%nat) by (subst srcs; cbn; lia).
  assert (Htot : Z.of_nat (length (concat contents)) < 2 ^ 31).
  { destruct (GetDeviceType (Array1_Context src0)) eqn:Ed.
    - now apply Hcpub.
    - specialize (Hcudab eq_refl). change (2 ^ 30) with 1073741824 in Hcudab.
      change (2 ^ 31) with 2147483648. lia. }
  unfold Append_locals, K2_CHECK_GT.
  rewrite K2_CHECK_true by (apply Z.ltb_lt; lia). cbn [bind].
  assert (Hl0 : load (Ptr srcs 0) 0 = Ok src0) by (now subst srcs).
  rewrite Hl0. cbn [bind].
  rewrite (int32_small (Z.of_nat (length srcs) + 1)) by lia.
  rewrite std_vector_Ok by (change (2 ^ 63) with 9223372036854775808;
                            change (2 ^ 31) with 2147483648 in Hn; lia).
  cbn [bind].
  rewrite store_Ok by (cbn [p_pos p_buf]; rewrite length_replicate; lia).
  cbn [bind p_pos p_buf].
  destruct (Append_sizes_loop srcs contents Hholds Htot)
    as (rsv & max_dim & Es & Hrp & Hrl & Hrs & Hmax).
  cbv zeta in Es. rewrite Es. cbn [bind]. cbv zeta.
  set (c := Array1_Context src0) in *.
  set (total := Z.of_nat (length (concat contents))) in *.
  set (ans := Array1_new c total).
  assert (Hp0 : p_pos (Array1_Data ans) = 0).
  { cbn [Array1_Data p_pos ans Array1_new a1_byte_offset].
    apply Z.div_0_l. pose proof (ElementSize_pos (T:=T)). lia. }
  assert (Hal : Z.of_nat (length (p_buf (Array1_Data ans))) = total).
  { cbn [Array1_Data p_buf]. subst ans. rewrite Array1_new_length. lia. }
  assert (Hrs0 : ∀ k : nat, (k ≤ length srcs)%nat →
            load (Ptr (p_buf rsv) 0) (Z.of_nat k) = Ok (sizes_upto contents k)).
  { intros k Hk. rewrite <- (Hrs k Hk). destruct rsv as [b q]. cbn [p_pos p_buf] in *.
    now subst q. }
  assert (Hfin : ∀ out : ptr T,
            length (p_buf out) = length (p_buf (Array1_Data ans)) →
            (∀ (k : nat) v, concat contents !! k = Some v →
               load (Ptr (p_buf out) 0) (Z.of_nat k) = Ok v) →
            ∃ row_splits ans',
              Ok (p_buf rsv, Array1_written ans out) = Ok (row_splits, ans') ∧
              length row_splits = S (length srcs) ∧
              (∀ k : nat, (k ≤ length srcs)%nat →
                 row_splits !! k = Some (sizes_upto contents k)) ∧
              Array1_holds ans' (concat contents) ∧
              Array1_Context ans' = c).
  { intros out Hol Hout. exists (p_buf rsv), (Array1_written ans out).
    split; [done|]. split; [done|]. split; [|split].
    - intros k Hk. specialize (Hrs k Hk). apply load_Ok in Hrs as [_ Hrs].
      rewrite Hrp, Z.add_0_l, Nat2Z.id in Hrs. done.
    - split; [done|]. intros k v Hk. rewrite <- (Hout k v Hk).
      unfold Array1_get, Array1_Data.
      cbn [Array1_written a1_byte_offset a1_region region_data ans Array1_new].
      rewrite Z.div_0_l; [done|]. pose proof (ElementSize_pos (T:=T)). lia.
    - done. }
  destruct (decide (GetDeviceType c = kCpu)) as [Hcpu|Hcuda].
  - destruct (Hcpub Hcpu) as [_ Hbytes].
    destruct (Append_host_loop srcs contents Hholds (Array1_Data ans) rsv Htot Hbytes
                Hp0 Hal Hrs)
      as (out & Eh & Hol & Hout).
    cbv zeta in Eh. rewrite Eh. cbn [bind]. now apply Hfin.
  - assert (Hk : GetDeviceType c = kCuda) by (destruct (GetDeviceType c); done).
    specialize (Hcudab Hk). change (2 ^ 30) with 1073741824 in Hcudab.
    change (2 ^ 31) with 2147483648 in *.
    rewrite K2_CHECK_true by (now apply bool_decide_eq_true_2). cbn [bind].
    rewrite std_vector_Ok by (change (2 ^ 63) with 9223372036854775808; lia).
    cbn [bind].
    destruct (Append_src_ptrs_loop srcs contents Hholds) as (spv & Ep & Hsp).
    rewrite Ep. cbn [bind].
    destruct (max_dim <? int32 (int32 (2 * (total `quot` Z.of_nat (length srcs))) + 512)).
    + destruct (Append_rectangular srcs contents Hholds c max_dim (Ptr (p_buf rsv) 0)
                  (Ptr (p_buf spv) 0) (Array1_Data ans) Htot Hp0 Hal Hrs0 Hsp Hmax)
        as (out & Er & Hol & Hout).
      rewrite Er. cbn [bind]. now apply Hfin.
    + destruct (block_dim_loop_spec (total `quot` Z.of_nat (length srcs))) as (bd & Eb & Hbd).
      rewrite Eb. cbn [bind].
      rewrite (int32_small (2 * total)) by (change (2 ^ 31) with 2147483648; lia).
      rewrite vector_reserve_Ok.
      2:{ change (2 ^ 63) with 9223372036854775808.
          rewrite Z.quot_div_nonneg by lia.
          split; [apply Z.div_pos; lia|].
          assert ((2 * total) `div` bd ≤ 2 * total) by (apply Z.div_le_upper_bound; nia).
          lia. }
      cbn [bind].
      assert (Htot8 : total + 8192 < 2 ^ 31) by (change (2 ^ 31) with 2147483648; lia).
      destruct (Append_index_map_loop srcs contents Hholds bd Hbd Htot8)
        as (im & Ei & Hsound & Hcomp).
      cbv zeta in Ei. rewrite Ei. cbn [bind].
      assert (Hn31 : Z.of_nat (length srcs) < 2 ^ 31) by lia.
      destruct (Append_block_balanced srcs contents Hholds bd Hbd c im (Ptr (p_buf rsv) 0)
                  (Ptr (p_buf spv) 0) (Array1_Data ans) Hn31 Htot8 Hp0 Hal Hrs0 Hsp
                  Hsound Hcomp) as (out & Ek & Hol & Hout).
      cbv zeta in Ek. rewrite Ek. cbn [bind]. now apply Hfin.
Qed.

(** X1. What Append has computed on the host when control reaches its
    closing brace: for sources in a CPU context with the given contents (at
    least one source, the number of sources plus one and the total size
    values of an int32_t, the size of the result in bytes a value of a
    size_t) the local [row_splits_vec] holds the row splits of the contents
    and the local [ans], allocated in the context of the first source,
    holds their concatenation. *)
Theorem Append_locals_concat (srcs : list (Array1 T)) (contents : list (list T))
    (src0 : Array1 T) :
  Forall2 Array1_holds srcs contents → head srcs = Some src0 →
  GetDeviceType (Array1_Context src0) = kCpu →
  Z.of_nat (length srcs) + 1 < 2 ^ 31 →
  Z.of_nat (length (concat contents)) < 2 ^ 31 →
  Z.of_nat (length (concat contents)) * ElementSize < 2 ^ 64 →
  ∃ row_splits ans,
    Append_locals (Z.of_nat (length srcs)) srcs = Ok (row_splits, ans) ∧
    length row_splits = S (length srcs) ∧
    (∀ k : nat, (k ≤ length srcs)%nat → row_splits !! k = Some (sizes_upto contents k)) ∧
    Array1_holds ans (concat contents) ∧
    Array1_Context ans = Array1_Context src0.
Proof.
  intros Hholds Hhead Hcpu Hn Htot Hbytes.
  apply Append_locals_spec; [done..| |]; rewrite Hcpu; done.
Qed.


End AppendLocals.

(** C2 fails: Append (pointer-array form) returns no array for any
    arguments, because its body ends without a return statement. For the
    sources [1,2,3], [], [4,5,6,7,8] the locals at the closing brace are the
    row splits [0,3,3,8] and the concatenation [1,...,8], on the host and on
    the device, and the call itself is undefined. *)
Theorem Append_returns_no_array :
  (∀ (T : Type) (E : ElemType T) (num_arrays : Z) (src : list (Array1 T)) (r : Array1 T),
     Append num_arrays src ≠ Ok r) ∧
  Forall (λ c,
     let src := [array1_of c [1; 2; 3]; array1_of c []; array1_of c [4; 5; 6; 7; 8]] in
     @Append_locals Z int32_elem 3 src
       = Ok ([0; 3; 3; 8], array1_of c [1; 2; 3; 4; 5; 6; 7; 8]) ∧
     @Append Z int32_elem 3 src = Undefined)
    [GetCpuContext; cuda_reversed].
Proof.
  split.
  - intros T E n src r. unfold Append. now destruct (Append_locals n src).
  - repeat constructor.
Qed.

(** ** Further properties *)

Section MoreProperties.
Context {T : Type} `{ElemType T}.

(** X3. Transpose aborts when the destination does not have the swapped
    dimensions of the source. *)
Theorem Transpose_dimension_mismatch (c : Context) (src dest : Array2 T) :
  IsCompatible c (Array2_Context src) = true →
  IsCompatible c (Array2_Context dest) = true →
  Dim0 src ≠ Dim1 dest ∨ Dim1 src ≠ Dim0 dest →
  Transpose c src dest = Fatal "Check failed".
Proof.
  intros Hc1 Hc2 Hne. unfold Transpose. rewrite Hc1, Hc2. cbn [K2_CHECK bind].
  unfold K2_CHECK_EQ.
  destruct (Z.eqb_spec (Dim0 src) (Dim1 dest)) as [E0|N0]; cbn [K2_CHECK bind]; [|done].
  destruct (Z.eqb_spec (Dim1 src) (Dim0 dest)) as [E1|N1]; cbn [K2_CHECK bind]; [|done].
  lia.
Qed.

End MoreProperties.

(** X4. Range with a non-negative length returns, on either backend, an
    array of that length in the given context whose element i is
    first_value + i * inc computed in the element type, that is converted
    to its 8 * sizeof(T) bits: the number first_value + i * inc itself
    whenever that is a value of the element type. *)
Theorem Range_arithmetic_sequence `{ElemType Z} (c : Context) (dim first_value inc : Z) :
  0 ≤ dim →
  ∃ ans, Range c dim first_value inc = Ok ans ∧ Dim ans = dim ∧
    Array1_Context ans = c ∧
    (∀ i, 0 ≤ i < dim → Array1_get ans i = Ok (sint T_bits (first_value + i * inc))) ∧
    (∀ i, 0 ≤ i < dim →
       - 2 ^ (T_bits - 1) ≤ first_value + i * inc < 2 ^ (T_bits - 1) →
       Array1_get ans i = Ok (first_value + i * inc)).
Proof.
  intros Hdim. destruct (Range_spec c dim first_value inc Hdim) as (ans & E & Hd & Hc & Hv).
  assert (Hbits : 0 < T_bits ≤ common_bits).
  { unfold common_bits, T_bits. pose proof ElementSize_pos. lia. }
  assert (Hval : ∀ i, 0 ≤ i < dim →
            Array1_get ans i = Ok (sint T_bits (first_value + i * inc))).
  { intros i Hi. rewrite (Hv i Hi). f_equal. unfold to_T, in_common.
    rewrite sint_add_r by lia. now apply sint_narrow. }
  exists ans. split; [done|]. split; [done|]. split; [done|]. split; [done|].
  intros i Hi Hfit. rewrite (Hval i Hi). f_equal. apply sint_small; [lia|done].
Qed.

(** ** Frames, backends, checks and compositions *)

Section TransposeMore.
Context {T : Type} `{ElemType T}.
Implicit Types (a src dest : Array2 T).

(** Whether an offset from the first element belongs to an element of the
    view can be decided. *)
Lemma view_cell_dec a (k : Z) :
  Dim1 a ≤ ElemStride0 a →
  (∃ i j, 0 ≤ i < Dim0 a ∧ 0 ≤ j < Dim1 a ∧ i * ElemStride0 a + j = k) ∨
  (∀ i j, 0 ≤ i < Dim0 a → 0 ≤ j < Dim1 a → i * ElemStride0 a + j ≠ k).
Proof.
  intros Hs. set (s := ElemStride0 a) in *.
  destruct (decide (0 < s)) as [Hpos|Hnp].
  - destruct (decide (0 ≤ k / s < Dim0 a ∧ k mod s < Dim1 a)) as [[Hi Hj]|Hno].
    + left. exists (k / s), (k mod s).
      pose proof (Z.mod_pos_bound k s Hpos). pose proof (Z.div_mod k s). lia.
    + right. intros i j Hi Hj E. apply Hno.
      assert (k / s = i) as <-.
      { symmetry. apply (Z.div_unique k s i j); lia. }
      assert (k mod s = j) as <-.
      { symmetry. apply (Z.mod_unique k s (k / s) j); [lia|].
        pose proof (Z.div_mod k s). lia. }
      lia.
  - right. intros i j Hi Hj. lia.
Qed.

Lemma load_eq_lookup (b1 b2 : list T) (pos k : Z) :
  length b1 = length b2 → 0 ≤ pos + k →
  load (Ptr b1 pos) k = load (Ptr b2 pos) k →
  b1 !! Z.to_nat (pos + k) = b2 !! Z.to_nat (pos + k).
Proof.
  intros Hl Hk E.
  destruct (b1 !! Z.to_nat (pos + k)) as [v|] eqn:L1.
  - assert (load (Ptr b1 pos) k = Ok v) as E1 by (apply load_Ok; done).
    rewrite E in E1. apply load_Ok in E1 as [_ L2]. done.
  - apply lookup_ge_None in L1. symmetry. apply lookup_ge_None. lia.
Qed.

(** The memory left by a transposition is determined by the elements of the
    source and the memory of the destination. *)
Lemma transposed_unique src1 src2 dest1 dest2 (out1 out2 : ptr T) :
  transposed src1 dest1 out1 → transposed src2 dest2 out2 →
  Dim0 dest1 = Dim0 dest2 → Dim1 dest1 = Dim1 dest2 →
  ElemStride0 dest1 = ElemStride0 dest2 → Array2_Data dest1 = Array2_Data dest2 →
  Dim1 dest1 ≤ ElemStride0 dest1 →
  (∀ i j, 0 ≤ i < Dim0 dest1 → 0 ≤ j < Dim1 dest1 →
     Array2_get src1 j i = Array2_get src2 j i) →
  out1 = out2.
Proof.
  intros (Hp1 & Hl1 & Hv1 & Hf1) (Hp2 & Hl2 & Hv2 & Hf2) E0 E1 Es Ed Hst Hsrc.
  destruct out1 as [b1 q1], out2 as [b2 q2]. cbn [p_pos p_buf] in *.
  assert (q1 = q2) as <- by (rewrite Hp1, Hp2, Ed; done).
  assert (Hl : length b1 = length b2).
  { rewrite Hl1, Hl2. now injection Ed as ->. }
  f_equal. apply list_eq. intros n.
  assert (Hload : ∀ k, load (Ptr b1 q1) k = load (Ptr b2 q1) k).
  { intros k. destruct (view_cell_dec dest1 k Hst) as [(i & j & Hi & Hj & <-)|Hno].
    - rewrite Hv1 by done. rewrite Es, Hv2 by lia. now apply Hsrc.
    - rewrite Hf1 by done. rewrite Hf2, Ed; [done|].
      intros i j Hi Hj. rewrite <- Es. apply Hno; lia. }
  specialize (Hload (Z.of_nat n - q1)).
  apply load_eq_lookup in Hload; [|done|lia].
  replace (Z.to_nat (q1 + (Z.of_nat n - q1))) with n in Hload by lia. done.
Qed.

(** The cells of the region of [dest] that are no element of the view hold
    in [out] what they hold in [dest]. *)
Lemma frame_lookup dest (out : ptr T) :
  p_pos out = p_pos (Array2_Data dest) →
  length (p_buf out) = length (region_data (a2_region dest)) →
  (∀ k, (∀ i j, 0 ≤ i < Dim0 dest → 0 ≤ j < Dim1 dest → i * ElemStride0 dest + j ≠ k) →
     load out k = load (Array2_Data dest) k) →
  ∀ n : nat,
    (∀ i j, 0 ≤ i < Dim0 dest → 0 ≤ j < Dim1 dest →
       a2_byte_offset dest / ElementSize + i * ElemStride0 dest + j ≠ Z.of_nat n) →
    p_buf out !! n = region_data (a2_region dest) !! n.
Proof.
  intros Hp Hl Hf n Hn.
  set (pos := a2_byte_offset dest / ElementSize) in *.
  destruct out as [b q]. cbn [p_pos p_buf Array2_Data] in *. subst q.
  assert (Hld : load (Ptr b pos) (Z.of_nat n - pos)
                = load (Ptr (region_data (a2_region dest)) pos) (Z.of_nat n - pos)).
  { apply Hf. intros i j Hi Hj. specialize (Hn i j Hi Hj). lia. }
  apply load_eq_lookup in Hld; [|done|lia].
  now replace (Z.to_nat (pos + (Z.of_nat n - pos))) with n in Hld by lia.
Qed.

(** X5. Transpose, on either backend, for valid views with compatible
    contexts and swapped dimensions: it returns the destination view (same
    shape, offset, context and region size) whose element (i, j) is element
    (j, i) of the source, and every cell of the destination's region that is
    not an element of the view is as it was. *)
Theorem Transpose_elements_and_frame (c : Context) src dest :
  IsCompatible c (Array2_Context src) = true →
  IsCompatible c (Array2_Context dest) = true →
  Array2_valid src → Array2_valid dest →
  Dim0 src = Dim1 dest → Dim1 src = Dim0 dest →
  ∃ dest',
    Transpose c src dest = Ok dest' ∧
    Dim0 dest' = Dim0 dest ∧ Dim1 dest' = Dim1 dest ∧
    ElemStride0 dest' = ElemStride0 dest ∧ a2_byte_offset dest' = a2_byte_offset dest ∧
    Array2_Context dest' = Array2_Context dest ∧
    length (region_data (a2_region dest')) = length (region_data (a2_region dest)) ∧
    (∀ i j, 0 ≤ i < Dim0 dest → 0 ≤ j < Dim1 dest →
       ∃ v, Array2_get src j i = Ok v ∧ Array2_get dest' i j = Ok v) ∧
    (∀ n : nat,
       (∀ i j, 0 ≤ i < Dim0 dest → 0 ≤ j < Dim1 dest →
          a2_byte_offset dest / ElementSize + i * ElemStride0 dest + j ≠ Z.of_nat n) →
       region_data (a2_region dest') !! n = region_data (a2_region dest) !! n).
Proof.
  intros Hc1 Hc2 Hs Hd E0 E1.
  destruct (Transpose_spec c src dest Hc1 Hc2 Hs Hd E0 E1) as (out & E & Hp & Hl & Hv & Hf).
  exists (Array2_written dest out). split; [done|].
  cbn [Array2_written Dim0 Dim1 ElemStride0 a2_byte_offset a2_region region_data
       Array2_Context region_context].
  do 6 (split; [done|]). split.
  - intros i j Hi Hj. destruct (Array2_get_valid src j i) as [v Hg]; [done|lia|lia|].
    exists v. split; [done|]. rewrite Array2_get_written by done. rewrite Hv by done. done.
  - now apply frame_lookup.
Qed.

(** X6. What Transpose leaves in memory does not depend on the backend nor
    on the order in which the device runs its blocks and threads: with the
    same source and destination placed in any two contexts, the two calls
    return the same array, each in its context. *)
Theorem Transpose_backend_independent (c1 c2 : Context) src dest :
  Array2_valid src → Array2_valid dest →
  Dim0 src = Dim1 dest → Dim1 src = Dim0 dest →
  ∃ out,
    Transpose c1 (Array2_at c1 src) (Array2_at c1 dest) = Ok (Array2_at c1 out) ∧
    Transpose c2 (Array2_at c2 src) (Array2_at c2 dest) = Ok (Array2_at c2 out).
Proof.
  intros Hs Hd E0 E1.
  destruct (Transpose_spec c1 (Array2_at c1 src) (Array2_at c1 dest))
    as (out1 & Et1 & Ht1); [apply IsCompatible_refl..|done|done|done|done|].
  destruct (Transpose_spec c2 (Array2_at c2 src) (Array2_at c2 dest))
    as (out2 & Et2 & Ht2); [apply IsCompatible_refl..|done|done|done|done|].
  assert (out1 = out2) as <-.
  { eapply transposed_unique; [exact Ht1|exact Ht2|done..| |done].
    cbn [Array2_at Dim1 ElemStride0]. now destruct Hd as (_ & _ & ? & _). }
  exists (Array2_written dest out1). rewrite Et1, Et2. done.
Qed.

(** X7. Transpose returns only if both views are compatible with the
    launching context and the destination has the dimensions of the source
    swapped; what it returns has the shape, the offset and the context of
    the destination. *)
Theorem Transpose_succeeds_only_if (c : Context) src dest (r : Array2 T) :
  Transpose c src dest = Ok r →
  IsCompatible c (Array2_Context src) = true ∧
  IsCompatible c (Array2_Context dest) = true ∧
  Dim0 src = Dim1 dest ∧ Dim1 src = Dim0 dest ∧
  Dim0 r = Dim0 dest ∧ Dim1 r = Dim1 dest ∧ ElemStride0 r = ElemStride0 dest ∧
  a2_byte_offset r = a2_byte_offset dest ∧ Array2_Context r = Array2_Context dest.
Proof.
  unfold Transpose, K2_CHECK_EQ.
  destruct (IsCompatible c (Array2_Context src)); [|done].
  destruct (IsCompatible c (Array2_Context dest)); [|done].
  destruct (Z.eqb_spec (Dim0 src) (Dim1 dest)) as [E0|]; [|done].
  destruct (Z.eqb_spec (Dim1 src) (Dim0 dest)) as [E1|]; [|done].
  cbn [K2_CHECK bind]. intros E.
  assert (∃ out, r = Array2_written dest out) as [out ->].
  { destruct (GetDeviceType c); apply bind_Ok_inv in E as (out & _ & [= <-]); eauto. }
  done.
Qed.

(** X8. Transposing the contiguous copy that ToContiguous makes of a view
    leaves the destination exactly as transposing the view itself does. *)
Theorem ToContiguous_then_Transpose (c : Context) src dest :
  IsCompatible c (Array2_Context src) = true →
  IsCompatible c (Array2_Context dest) = true →
  Array2_valid src → Array2_valid dest →
  Dim0 src = Dim1 dest → Dim1 src = Dim0 dest →
  ∃ y r, ToContiguous src = Ok y ∧ Transpose c y dest = Ok r ∧ Transpose c src dest = Ok r.
Proof.
  intros Hc1 Hc2 Hs Hd E0 E1.
  destruct (Transpose_spec c src dest Hc1 Hc2 Hs Hd E0 E1) as (out & Et & Ht).
  destruct (decide (ElemStride0 src = Dim1 src)) as [Heq|Hne].
  { exists src, (Array2_written dest out). split; [|done].
    unfold ToContiguous. now rewrite Heq, Z.eqb_refl. }
  destruct (ToContiguous_noncontiguous src Hs Hne)
    as (y & Ey & Hcy & Hy0 & Hy1 & Hys & Hyo & Hyl & Hyv).
  assert (Hvy : Array2_valid y).
  { destruct Hs as (H0 & H1 & _). unfold Array2_valid.
    rewrite Hy0, Hy1, Hys, Hyo, Hyl.
    rewrite Z.div_0_l by (pose proof ElementSize_pos; lia).
    repeat split; (lia || (intros; nia)). }
  destruct (Transpose_spec c y dest) as (out' & Et' & Ht'); [congruence|done|done|done|lia|lia|].
  exists y, (Array2_written dest out). split; [done|]. split; [|done].
  rewrite Et'. do 2 f_equal.
  eapply transposed_unique; [exact Ht'|exact Ht|done..| |].
  - now destruct Hd as (_ & _ & ? & _).
  - intros i j Hi Hj. destruct (Hyv j i) as (v & -> & ->); [lia|lia|done].
Qed.

End TransposeMore.

Section SumMore.
Context {T : Type} `{ElemType T} `{Numeric T}.
Implicit Types (src dest : Array2 T) (m : Z → Z → T).






(** X10. ExclusiveSum on an Array2 aborts whenever its arguments violate
    one of its checks: an axis other than 0 and 1, incompatible contexts,
    mismatching dimensions, or a source region too small for a destination
    that is one longer. *)
Theorem ExclusiveSum_Array2_rejects src dest (axis : Z) :
  ¬ ExclusiveSum_Array2_pre src dest axis →
  ExclusiveSum_Array2 src dest axis = Fatal "Check failed".
Proof.
  intros Hno. unfold ExclusiveSum_Array2, K2_CHECK_EQ, K2_CHECK_GE.
  destruct ((axis =? 0) || (axis =? 1)) eqn:Ea; [|done].
  destruct (IsCompatible (Array2_Context src) (Array2_Context dest)) eqn:Ec; [|done].
  cbn [K2_CHECK bind].
  assert (Hax : axis = 0 ∨ axis = 1).
  { apply orb_true_iff in Ea. rewrite !Z.eqb_eq in Ea. done. }
  unfold ExclusiveSum_Array2_pre in Hno. rewrite Ec in Hno.
  destruct (axis =? 1); cbv beta iota zeta in *.
  - destruct (Z.eqb_spec (Dim0 dest) (Dim0 src)) as [Emin|]; [|done].
    destruct (Z.eqb_spec (Dim1 dest) (Dim1 src)) as [Emaj|Nmaj];
      destruct (Z.eqb_spec (Dim1 dest) (Dim1 src + 1)) as [Emaj1|Nmaj1];
      cbn [orb K2_CHECK bind]; try done; try (exfalso; apply Hno; auto 6; fail).
    destruct (Z.leb_spec ((Dim1 src * Dim0 src + 1) * ElementSize)
                (num_bytes (a2_region src) - a2_byte_offset src)); [|done].
    exfalso. apply Hno. auto 8.
  - destruct (Z.eqb_spec (Dim1 dest) (Dim1 src)) as [Emin|]; [|done].
    destruct (Z.eqb_spec (Dim0 dest) (Dim0 src)) as [Emaj|Nmaj];
      destruct (Z.eqb_spec (Dim0 dest) (Dim0 src + 1)) as [Emaj1|Nmaj1];
      cbn [orb K2_CHECK bind]; try done; try (exfalso; apply Hno; auto 6; fail).
    destruct (Z.leb_spec ((Dim0 src * Dim1 src + 1) * ElementSize)
                (num_bytes (a2_region src) - a2_byte_offset src)); [|done].
    exfalso. apply Hno. auto 8.
Qed.

End SumMore.

Section DerefProps.
Context {T : Type} `{ElemType T} `{ElemType (ptr T)} `{Numeric T}.

(** Reading the source through an iterator or through a pointer to the
    same values gives the same sums. *)
Lemma ExclusiveSum_iter_values (c : Context) (n : Z) (rd : Z → outcome T) (f : Z → T)
    (dest : ptr T) :
  (∀ k, 0 ≤ k < n - 1 → rd k = Ok (f k)) →
  ExclusiveSum_iter c n rd dest = ExclusiveSum c n (Ptr (f <$> seqZ 0 (n - 1)) 0) dest.
Proof.
  intros Hrd. unfold ExclusiveSum_iter, ExclusiveSum.
  destruct (n <=? 0); [done|].
  destruct (store dest 0 num_zero) as [d0| |]; cbn [bind]; [|done..].
  apply for_each_ext. intros i d [Hi1 Hi2]%elem_of_seqZ.
  destruct (load d (i - 1)) as [prev| |]; cbn [bind]; [|done..].
  rewrite Hrd by lia.
  assert (load (Ptr (f <$> seqZ 0 (n - 1)) 0) (i - 1) = Ok (f (i - 1))) as ->; [|done].
  apply load_Ok. cbn [p_pos p_buf]. split; [lia|].
  rewrite list_lookup_fmap, lookup_seqZ_lt by lia. cbn. do 2 f_equal. lia.
Qed.

Lemma ExclusiveSum_iter_spec (c : Context) (n : Z) (rd : Z → outcome T) (f : Z → T)
    (dest : ptr T) :
  (∀ k, 0 ≤ k < n - 1 → rd k = Ok (f k)) →
  (∀ k, 0 ≤ k < n → 0 ≤ p_pos dest + k < Z.of_nat (length (p_buf dest))) →
  ∃ dest', ExclusiveSum_iter c n rd dest = Ok dest' ∧
    p_pos dest' = p_pos dest ∧ length (p_buf dest') = length (p_buf dest) ∧
    (∀ j, 0 ≤ j < n → load dest' j = Ok (sum_upto f j)) ∧
    (∀ k, ¬ (0 ≤ k < n) → load dest' k = load dest k).
Proof.
  intros Hrd Hdest. rewrite (ExclusiveSum_iter_values c n rd f dest Hrd).
  apply ExclusiveSum_spec; [|done].
  intros k Hk. apply load_Ok. cbn [p_pos p_buf]. split; [lia|].
  rewrite list_lookup_fmap, lookup_seqZ_lt by lia. cbn. do 2 f_equal. lia.
Qed.

(** X14. The iterator laws of PtrPtr: indexing after an advance by n
    reads the element n places on, and two advances add up. *)
Theorem PtrPtr_add_index (p : PtrPtr T) (n m i : Z) :
  PtrPtr_index (PtrPtr_add p n) i = PtrPtr_index p (n + i) ∧
  PtrPtr_add (PtrPtr_add p n) m = PtrPtr_add p (n + m).
Proof.
  split.
  - unfold PtrPtr_index, PtrPtr_add. cbn [pp_data]. now rewrite load_ptr_add.
  - unfold PtrPtr_add, ptr_add. cbn [pp_data p_buf p_pos]. do 2 f_equal. lia.
Qed.

(** X12. ExclusiveSumDeref, for arguments that pass its checks and source
    pointers that can be read: element j of the destination is the sum of
    the values the first j pointers of the source point to (so element 0 is
    zero and, for the longer destination, the last element is the total);
    cells of the destination's region outside the view are as they were. *)
Theorem ExclusiveSumDeref_sums (src : Array1 (ptr T)) (dest : Array1 T) (f : Z → T) :
  ExclusiveSumDeref_pre src dest →
  Array1_valid dest →
  (∀ k, 0 ≤ k < Dim src → ∃ q, Array1_get src k = Ok q ∧ load q 0 = Ok (f k)) →
  ∃ dest',
    ExclusiveSumDeref src dest = Ok dest' ∧
    Dim dest' = Dim dest ∧ a1_byte_offset dest' = a1_byte_offset dest ∧
    Array1_Context dest' = Array1_Context dest ∧
    length (region_data (a1_region dest')) = length (region_data (a1_region dest)) ∧
    (∀ j, 0 ≤ j < Dim dest → Array1_get dest' j = Ok (sum_upto f j)) ∧
    (∀ n : nat,
       ¬ (0 ≤ Z.of_nat n - a1_byte_offset dest / ElementSize (T:=T) < Dim dest) →
       region_data (a1_region dest') !! n = region_data (a1_region dest) !! n).
Proof.
  intros (Hc & Hdim) Hd Hsrc. unfold ExclusiveSumDeref.
  rewrite Hc. cbn [K2_CHECK bind].
  rewrite K2_CHECK_true by (apply orb_true_iff; rewrite !Z.eqb_eq; lia). cbn [bind].
  assert (Hchk : (if Dim dest =? Dim src + 1
                  then K2_CHECK_GE (num_bytes (a1_region src) - a1_byte_offset src)
                         (Dim dest * ElementSize (T:=ptr T))
                  else Ok ()) = Ok ()).
  { destruct (Z.eqb_spec (Dim dest) (Dim src + 1)) as [Heq|Hne]; [|done].
    apply K2_CHECK_true, Z.leb_le. lia. }
  rewrite Hchk. cbn [bind].
  destruct (ExclusiveSum_iter_spec (Array1_Context src) (Dim dest)
              (PtrPtr_index {| pp_data := Array1_Data src |}) f (Array1_Data dest))
    as (out & E & Hp & Hl & Hv & Hf).
  { intros k Hk. destruct (Hsrc k) as (q & Hq & Hfk); [lia|].
    unfold PtrPtr_index. cbn [pp_data]. unfold Array1_get in Hq. now rewrite Hq. }
  { intros k Hk. now apply Array1_valid_cell. }
  rewrite E. cbn [bind]. eexists. split; [done|].
  cbn [Array1_written Dim a1_byte_offset a1_region region_data Array1_Context region_context].
  do 4 (split; [done|]). split.
  - intros j Hj. rewrite Array1_get_written by done. now apply Hv.
  - intros n Hn.
    specialize (Hf (Z.of_nat n - a1_byte_offset dest / ElementSize (T:=T)) Hn).
    destruct out as [b q]. unfold Array1_Data in *. cbn [p_pos p_buf] in *. subst q.
    set (pos := a1_byte_offset dest / ElementSize) in *. clearbody pos.
    apply load_eq_lookup in Hf; [|done|lia].
    now replace (Z.to_nat (pos + (Z.of_nat n - pos))) with n in Hf by lia.
Qed.

(** X13. ExclusiveSumDeref aborts whenever its arguments violate one of
    its checks: incompatible contexts, a destination that has neither the
    length of the source nor one more, or a source region too small for the
    longer destination. *)
Theorem ExclusiveSumDeref_rejects (src : Array1 (ptr T)) (dest : Array1 T) :
  ¬ ExclusiveSumDeref_pre src dest →
  ExclusiveSumDeref src dest = Fatal "Check failed".
Proof.
  intros Hno. unfold ExclusiveSumDeref, K2_CHECK_GE. unfold ExclusiveSumDeref_pre in Hno.
  destruct (IsCompatible (Array1_Context src) (Array1_Context dest)); [|done].
  cbn [K2_CHECK bind].
  destruct (Z.eqb_spec (Dim dest) (Dim src)) as [Eq|Ne];
    destruct (Z.eqb_spec (Dim dest) (Dim src + 1)) as [Eq1|Ne1];
    cbn [orb K2_CHECK bind]; try done; try (exfalso; apply Hno; auto; fail).
  destruct (Z.leb_spec (Dim dest * ElementSize (T:=ptr T))
              (num_bytes (a1_region src) - a1_byte_offset src)); [|done].
  exfalso. apply Hno. auto.
Qed.

End DerefProps.

Section MaxMore.
Context {T : Type} `{ElemType T} `{Numeric T} `{ElemType Z}.

(** X15. MaxPerSublist aborts when the ragged array does not have exactly
    two axes, when the output array does not have one element per row, or
    when the contexts are incompatible. *)
Theorem MaxPerSublist_rejects (src : Ragged T) (default_value : T) (max_values : Array1 T) :
  NumAxes (shape src) ≠ 2 ∨ Shape_Dim0 (shape src) ≠ Dim max_values ∨
  IsCompatible (Shape_Context (shape src)) (Array1_Context max_values) = false →
  MaxPerSublist src default_value max_values = Fatal "Check failed".
Proof.
  intros Hbad. unfold MaxPerSublist, K2_CHECK_EQ.
  destruct (Z.eqb_spec (NumAxes (shape src)) 2) as [E2|]; [|done].
  destruct (Z.eqb_spec (Shape_Dim0 (shape src)) (Dim max_values)) as [Ed|]; [|done].
  destruct (IsCompatible (Shape_Context (shape src)) (Array1_Context max_values)); [|done].
  destruct Hbad as [?|[?|?]]; done.
Qed.

End MaxMore.

Section MaxFrame.
Context `{ElemType Z}.

Lemma MaxPerSublist_spec_frame (src : Ragged Z) (default : Z) (max_values : Array1 Z)
    (splits vals : list Z) :
  Ragged_valid src splits vals → Array1_valid max_values →
  Dim max_values = Z.of_nat (length splits) - 1 →
  IsCompatible (Shape_Context (shape src)) (Array1_Context max_values) = true →
  ∃ out, MaxPerSublist src default max_values = Ok (Array1_written max_values out) ∧
    p_pos out = p_pos (Array1_Data max_values) ∧
    length (p_buf out) = length (p_buf (Array1_Data max_values)) ∧
    ∀ k, ¬ (0 ≤ k < Dim max_values) → load out k = load (Array1_Data max_values) k.
Proof.
  intros Hv Hmv Hdim Hc.
  pose proof Hv as (Hmore & Hsp & Hvals & H0 & Hmono & Hlast).
  pose proof Hsp as [Hsplen _].
  unfold MaxPerSublist, NumAxes, Shape_Dim0, RowSplits. rewrite Hmore, Hc.
  cbn [length K2_CHECK bind]. unfold K2_CHECK_EQ.
  rewrite (K2_CHECK_true (2 + Z.of_nat 0 =? 2)) by done. cbn [bind].
  rewrite K2_CHECK_true by (apply Z.eqb_eq; lia).
  cbn [bind]. change (load _ (1 - 1)) with (Ok (row_splits1 (shape src))). cbn [bind].
  set (rs := Array1_Data (row_splits1 (shape src))).
  set (num_rows := Dim (row_splits1 (shape src)) - 1).
  assert (Hnr : num_rows = Dim max_values) by (subst num_rows; lia).
  assert (Hrow : ∀ (i : nat), Z.of_nat i < num_rows →
            ∃ b e, splits !! i = Some b ∧ splits !! S i = Some e ∧
                   load rs (Z.of_nat i) = Ok b ∧ load rs (Z.of_nat i + 1) = Ok e).
  { intros i Hi.
    destruct (lookup_lt_is_Some_2 splits i) as [b Hb]; [lia|].
    destruct (lookup_lt_is_Some_2 splits (S i)) as [e He]; [lia|].
    exists b, e. split; [done|]. split; [done|]. split.
    - eapply Array1_holds_lookup; [done|lia|]. now rewrite Nat2Z.id.
    - eapply Array1_holds_lookup; [done|lia|].
      now replace (Z.to_nat (Z.of_nat i + 1)) with (S i) by lia. }
  destruct (decide (GetDeviceType (Shape_Context (shape src)) = kCpu)) as [Hcpu|Hcuda].
  - (* the host loop *)
    assert (Hj0 : load rs 0 = Ok 0).
    { eapply Array1_holds_lookup; [done|lia|done]. }
    rewrite Hj0. cbn [bind].
    match goal with |- context [for_each ?l ?body ?s0] =>
      destruct (for_each_inv
        (λ done (st : Z * ptr Z),
           splits !! length done = Some st.1 ∧
           p_pos st.2 = p_pos (Array1_Data max_values) ∧
           length (p_buf st.2) = length (p_buf (Array1_Data max_values)) ∧
           ∀ k, ¬ (0 ≤ k < Z.of_nat (length done)) →
             load st.2 k = load (Array1_Data max_values) k)
        l body s0) as ([j out] & E & Hj & Hpos & Hlen & Hfr)
    end.
    + cbn [fst snd length]. repeat split; auto.
    + intros done i [j od] (Hj & Hpos & Hlen & Hfr) [rest [-> Hlt]%seqZ_split].
      cbn [fst snd] in *. rewrite Z.add_0_l.
      destruct (Hrow (length done)) as (b & e & Hb & He & _ & Hle); [lia|].
      assert (b = j) as -> by congruence.
      rewrite Hle. cbn [bind].
      rewrite (row_reduce (λ max_val elem, if num_gt elem max_val then elem else max_val)
                 src splits vals (length done) j e default Hv) by (auto using host_max_Z).
      cbn [bind].
      rewrite store_Ok by (rewrite Hpos, Hlen; apply Array1_valid_cell; [done|lia]).
      cbn [bind]. eexists. split; [done|]. cbn [fst snd p_pos p_buf].
      rewrite length_app, length_insert. cbn [length].
      specialize (Hmono _ _ _ Hb He).
      split. { rewrite Z.max_r by lia. now rewrite Nat.add_1_r. }
      split; [done|]. split; [done|].
      intros k Hk. rewrite load_store_ne; [apply Hfr; lia| |lia].
      rewrite Hpos. apply (Array1_valid_cell max_values); [done|lia].
    + rewrite E. cbn [bind]. exists out. cbn [fst snd] in *. split; [done|]. split; [done|].
      split; [done|]. intros k Hk. apply Hfr. rewrite length_seqZ. lia.
  - (* the segmented reduction on the device *)
    assert (Hk : GetDeviceType (Shape_Context (shape src)) = kCuda)
      by (destruct (GetDeviceType _); done).
    rewrite K2_CHECK_true by (now apply bool_decide_eq_true_2). cbn [bind].
    unfold cub_DeviceSegmentedReduce.
    set (c := Shape_Context (shape src)).
    pose (rd := λ seg : Z * Z,
      bind (load rs seg.1) (λ segment_begin,
      bind (load (ptr_add rs 1) seg.1) (λ segment_end,
        for_each (seqZ segment_begin (segment_end - segment_begin))
          (λ k acc, bind (load (Array1_Data (values src)) k) (λ v, Ok (MaxOp acc v)))
          default))).
    assert (Hrd : ∀ seg, seg ∈ schedule c (index_pairs num_rows 1) →
              0 ≤ seg.1 < num_rows ∧ ∃ v, rd seg = Ok v).
    { intros seg [Hs1 _]%elem_of_schedule%elem_of_index_pairs. split; [done|].
      destruct (Hrow (Z.to_nat seg.1)) as (b & e & Hb & He & Hlb & Hle); [lia|].
      rewrite Z2Nat.id in Hlb, Hle by lia.
      eexists. subst rd. cbv beta. rewrite Hlb. cbn [bind].
      rewrite load_ptr_add, Z.add_comm, Hle. cbn [bind].
      apply (row_reduce MaxOp src splits vals (Z.to_nat seg.1)); auto using MaxOp_Z. }
    destruct (copy_loop (λ _, true) rd (λ seg : Z * Z, seg.1)
                (schedule c (index_pairs num_rows 1)) (Array1_Data max_values))
      as (out & E & Hpos & Hlen & Hsame & _).
    { intros seg Hin _. destruct (Hrd seg Hin) as (Hi & v & Hr).
      split; [eauto|]. apply Array1_valid_cell; [done|lia]. }
    exists out. split.
    { etrans; [|exact (f_equal (λ o, bind o (λ out, Ok (Array1_written max_values out))) E)].
      f_equal. apply for_each_ext. intros seg d_out _. unfold copy_step. subst rd. cbv beta.
      destruct (load rs seg.1) as [b| |]; cbn [bind]; [|done..].
      destruct (load (ptr_add rs 1) seg.1) as [e| |]; cbn [bind]; done. }
    split; [done|]. split; [done|].
    intros k Hnk. apply Hsame. intros seg Hin _ <-.
    destruct (Hrd seg Hin) as (Hi & _). lia.
Qed.

(** X16. MaxPerSublist, on either backend, returns the output view with
    its shape, offset, context and region size, and writes no cell of the
    output's region outside the view. *)
Theorem MaxPerSublist_frame (src : Ragged Z) (default : Z) (max_values : Array1 Z)
    (splits vals : list Z) :
  Ragged_valid src splits vals → Array1_valid max_values →
  Dim max_values = Z.of_nat (length splits) - 1 →
  IsCompatible (Shape_Context (shape src)) (Array1_Context max_values) = true →
  ∃ res, MaxPerSublist src default max_values = Ok res ∧
    Dim res = Dim max_values ∧ a1_byte_offset res = a1_byte_offset max_values ∧
    Array1_Context res = Array1_Context max_values ∧
    length (region_data (a1_region res)) = length (region_data (a1_region max_values)) ∧
    ∀ n : nat,
      ¬ (0 ≤ Z.of_nat n - a1_byte_offset max_values / ElementSize < Dim max_values) →
      region_data (a1_region res) !! n = region_data (a1_region max_values) !! n.
Proof.
  intros Hv Hmv Hdim Hc.
  destruct (MaxPerSublist_spec_frame src default max_values splits vals Hv Hmv Hdim Hc)
    as (out & E & Hp & Hl & Hf).
  exists (Array1_written max_values out). split; [done|].
  cbn [Array1_written Dim a1_byte_offset a1_region region_data Array1_Context region_context].
  do 4 (split; [done|]).
  intros n Hn. specialize (Hf (Z.of_nat n - a1_byte_offset max_values / ElementSize) Hn).
  destruct out as [b q]. unfold Array1_Data in *. cbn [p_pos p_buf] in *. subst q.
  set (pos := a1_byte_offset max_values / ElementSize) in *. clearbody pos.
  apply load_eq_lookup in Hf; [|done|lia].
  now replace (Z.to_nat (pos + (Z.of_nat n - pos))) with n in Hf by lia.
Qed.

End MaxFrame.

Section RandMore.
Context `{ElemType Z}.

(** X17. With distinct bounds that fit the types the code computes in,
    RandUniformArray1 calls rand() exactly once per element, in index
    order: element i is computed from the result of call number calls + i,
    and dim calls have been made when it returns the array of dim elements
    in the requested context. *)
Theorem RandUniformArray1_draws (g : RandGen) (calls : nat) (c : Context)
    (dim min_value max_value : Z) :
  0 ≤ dim → min_value < max_value → rand_bounds_fit g min_value max_value →
  ∃ a, RandUniformArray1 g calls c dim min_value max_value
       = Ok (a, (calls + Z.to_nat dim)%nat) ∧
    Dim a = dim ∧ Array1_Context a = c ∧
    ∀ i : nat, Z.of_nat i < dim →
      Array1_get a (Z.of_nat i)
      = Ok (rand_value g min_value max_value (rand_draw g (calls + i))).
Proof. apply RandUniformArray1_spec. Qed.

(** X18. RandUniformArray1 aborts when max_value < min_value; with equal
    bounds it returns dim zeros without calling rand(). *)
Theorem RandUniformArray1_degenerate_bounds (g : RandGen) (calls : nat) (c : Context)
    (dim min_value max_value : Z) :
  (max_value < min_value →
     RandUniformArray1 g calls c dim min_value max_value = Fatal "Check failed") ∧
  (0 ≤ dim → max_value = min_value →
     ∃ a, RandUniformArray1 g calls c dim min_value max_value = Ok (a, calls) ∧
       Dim a = dim ∧ Array1_Context a = c ∧
       ∀ i, 0 ≤ i < dim → Array1_get a i = Ok 0).
Proof.
  split.
  - intros Hlt. unfold RandUniformArray1.
    now rewrite K2_CHECK_false by (apply Z.leb_gt; lia).
  - intros Hdim ->. now apply RandUniformArray1_equal_bounds.
Qed.

End RandMore.

(** X19. The index map of Append: the 64-bit word packed from a source
    index i and a block number j (both below 2^32) gives back i as its low
    and j as its high 32 bits. *)
Theorem Append_index_word_round_trip (i j : Z) :
  0 ≤ i < 2 ^ 32 → 0 ≤ j < 2 ^ 32 →
  uint32 (index_word i j) = i ∧ uint32 (Z.shiftr (index_word i j) 32) = j.
Proof. intros Hi Hj. exact (index_map_decode i j Hi Hj). Qed.

(** X20. The block size Append chooses for its block-balanced launch: the
    doubling loop ends with 256 * 2^k for some k <= 5; a result below 8192
    is at least a quarter of the average source size, and a result above
    256 is less than half of it. *)
Theorem Append_block_dim_choice (avg_input_size : Z) :
  ∃ (block_dim : Z) (k : nat),
    block_dim_loop 32 256 avg_input_size = Ok block_dim ∧
    block_dim = 256 * 2 ^ Z.of_nat k ∧ (k ≤ 5)%nat ∧
    (block_dim < 8192 → avg_input_size ≤ block_dim * 4) ∧
    (256 < block_dim → block_dim * 2 < avg_input_size).
Proof.
  assert (G : ∀ (fuel k : nat) bd,
            bd = 256 * 2 ^ Z.of_nat k → (k ≤ 5)%nat → (5 - k < fuel)%nat →
            (256 < bd → bd * 2 < avg_input_size) →
            ∃ (r : Z) (k' : nat), block_dim_loop fuel bd avg_input_size = Ok r ∧
              r = 256 * 2 ^ Z.of_nat k' ∧ (k' ≤ 5)%nat ∧
              (r < 8192 → avg_input_size ≤ r * 4) ∧
              (256 < r → r * 2 < avg_input_size)).
  { induction fuel as [|fuel IH]; intros k bd Hbd Hk Hf Hprev; [lia|].
    cbn [block_dim_loop].
    destruct ((bd * 4 <? avg_input_size) && (bd <? 8192)) eqn:Hc.
    - apply andb_true_iff in Hc as [Hlt4%Z.ltb_lt Hlt%Z.ltb_lt].
      assert (k < 5)%nat.
      { destruct (decide (k < 5)%nat) as [|Hge]; [done|]. assert (k = 5%nat) as -> by lia.
        subst bd. change (256 * 2 ^ Z.of_nat 5) with 8192 in Hlt. lia. }
      apply (IH (S k) (bd * 2)); [|lia|lia|lia].
      rewrite Nat2Z.inj_succ, Z.pow_succ_r by lia. lia.
    - exists bd, k. split; [done|]. split; [done|]. split; [done|]. split; [|done].
      intros Hlt. apply andb_false_iff in Hc as [Hc%Z.ltb_ge|Hc%Z.ltb_ge]; lia. }
  apply (G 32%nat 0%nat 256); [reflexivity|lia|lia|lia].
Qed.

(** ** The theorems at concrete inputs *)

#[local] Existing Instance int32_elem.

Ltac solve_valid :=
  unfold Array2_valid, Array1_valid; cbn; Z.to_euclidean_division_equations; lia.

Ltac solve_lookups :=
  let i := fresh "i" in
  intros i; intros;
  repeat (destruct i as [|i]; simplify_eq/=; try first [reflexivity|lia]).

Lemma Transpose_round_trip_witness :
  ∃ D1' D2',
    @Transpose Z int32_elem cuda_reversed (strided_2x3 cuda_reversed)
       (array2_of cuda_reversed 3 2 2 0 [0; 0; 0; 0; 0; 0]) = Ok D1' ∧
    @Transpose Z int32_elem cuda_reversed D1'
       (array2_of cuda_reversed 2 3 5 0 [0; 0; 0; 0; 0; 0; 0; 0; 0; 0]) = Ok D2' ∧
    Dim0 D2' = 2 ∧ Dim1 D2' = 3 ∧
    ∀ i j, 0 ≤ i < 2 → 0 ≤ j < 3 →
      ∃ v, Array2_get (strided_2x3 cuda_reversed) i j = Ok v ∧ Array2_get D2' i j = Ok v.
Proof.
  apply (@Transpose_round_trip Z int32_elem cuda_reversed (strided_2x3 cuda_reversed));
    first [reflexivity | solve_valid].
Defined.

Lemma ToContiguous_copies_witness :
  ∃ ans,
    @ToContiguous Z int32_elem (strided_2x3 cuda_reversed) = Ok ans ∧
    Array2_Context ans = cuda_reversed ∧
    Dim0 ans = 2 ∧ Dim1 ans = 3 ∧ ElemStride0 ans = 3 ∧
    a2_byte_offset ans = 0 ∧
    length (region_data (a2_region ans)) = 6%nat ∧
    ∀ i j, 0 ≤ i < 2 → 0 ≤ j < 3 →
      ∃ v, Array2_get (strided_2x3 cuda_reversed) i j = Ok v ∧ Array2_get ans i j = Ok v.
Proof.
  apply (@ToContiguous_copies Z int32_elem (strided_2x3 cuda_reversed));
    [solve_valid | cbn; lia].
Defined.

Lemma ToContiguous_idempotent_witness :
  ∃ y, @ToContiguous Z int32_elem (strided_2x3 cuda_reversed) = Ok y ∧
       @ToContiguous Z int32_elem y = Ok y.
Proof.
  apply (proj1 (proj2 (@ToContiguous_idempotent Z int32_elem))). solve_valid.
Defined.

Lemma ExclusiveSum_prefix_sums_witness :
  ∃ dest',
    @ExclusiveSumPerRow Z int32_elem int32_numeric
      (array2_of GetCpuContext 1 4 4 0 [1; 2; 3; 4; 0])
      (array2_of GetCpuContext 1 5 5 0 [7; 7; 7; 7; 7]) = Ok dest' ∧
    (0 < 5 → Array2_get dest' 0 0 = Ok 0) ∧
    (∀ j : nat, Z.of_nat j < 5 →
       Array2_get dest' 0 (Z.of_nat j) = Ok (@sum_of Z int32_numeric (take j [1; 2; 3; 4]))) ∧
    (5 = 4 + 1 → Array2_get dest' 0 4 = Ok (@sum_of Z int32_numeric [1; 2; 3; 4])).
Proof.
  apply (proj1 (@ExclusiveSum_prefix_sums Z int32_elem int32_numeric)
           (array2_of GetCpuContext 1 4 4 0 [1; 2; 3; 4; 0])
           (array2_of GetCpuContext 1 5 5 0 [7; 7; 7; 7; 7]) 0 [1; 2; 3; 4]).
  - solve_valid.
  - solve_valid.
  - reflexivity.
  - right. reflexivity.
  - cbn. lia.
  - reflexivity.
  - solve_lookups.
Defined.


Lemma MaxPerSublist_rows_witness :
  ∃ res,
    @MaxPerSublist Z int32_elem _ int32_elem
      (ragged_of cuda_reversed [0; 2; 2; 5] [1; 2; -3; -1; -2]) 0
      (array1_of cuda_reversed [9; 9; 9]) = Ok res ∧
    Dim res = 3 ∧
    ∀ (i : nat) b e, [0; 2; 2; 5] !! i = Some b → [0; 2; 2; 5] !! S i = Some e →
      let row := row_between [1; 2; -3; -1; -2] b e in
      (row = [] → Array1_get res (Z.of_nat i) = Ok 0) ∧
      (row ≠ [] → Array1_get res (Z.of_nat i) = Ok (Z.max 0 (max_of row))) ∧
      (row ≠ [] → 0 ≤ max_of row → Array1_get res (Z.of_nat i) = Ok (max_of row)).
Proof.
  apply (@MaxPerSublist_rows int32_elem
           (ragged_of cuda_reversed [0; 2; 2; 5] [1; 2; -3; -1; -2]) 0
           (array1_of cuda_reversed [9; 9; 9]) [0; 2; 2; 5] [1; 2; -3; -1; -2]).
  - split; [reflexivity|]. split; [apply array1_of_holds|]. split; [apply array1_of_holds|].
    split; [reflexivity|]. split; [solve_lookups|reflexivity].
  - apply array1_of_valid.
  - reflexivity.
  - reflexivity.
Defined.

Lemma count_checks_witness :
  @Range int32_elem cuda_reversed (-1) 0 1 = Fatal "Check failed".
Proof. apply (proj1 (@count_checks Z int32_elem int32_elem)). lia. Defined.

Lemma unimplemented_calls_abort_witness :
  @Append_flat Z 2 [array1_of GetCpuContext [1; 2]; array1_of GetCpuContext [3]]
    = Fatal "Not Implemented" ∧
  ∀ r, @Append_flat Z 2 [array1_of GetCpuContext [1; 2]; array1_of GetCpuContext [3]] ≠ Ok r.
Proof. apply (proj1 (@unimplemented_calls_abort Z)). lia. Defined.

Lemma Append_locals_concat_witness :
  ∃ row_splits ans,
    Append_locals 3 [array1_of GetCpuContext [1; 2; 3]; array1_of GetCpuContext [];
                     array1_of GetCpuContext [4; 5; 6; 7; 8]] = Ok (row_splits, ans) ∧
    length row_splits = 4%nat ∧
    (∀ k : nat, (k ≤ 3)%nat →
       row_splits !! k = Some (sizes_upto [[1; 2; 3]; []; [4; 5; 6; 7; 8]] k)) ∧
    Array1_holds ans [1; 2; 3; 4; 5; 6; 7; 8] ∧
    Array1_Context ans = GetCpuContext.
Proof.
  apply (@Append_locals_concat Z int32_elem
           [array1_of GetCpuContext [1; 2; 3]; array1_of GetCpuContext [];
            array1_of GetCpuContext [4; 5; 6; 7; 8]]
           [[1; 2; 3]; []; [4; 5; 6; 7; 8]] (array1_of GetCpuContext [1; 2; 3])).
  - repeat constructor; apply array1_of_holds.
  - reflexivity.
  - reflexivity.
  - cbn. lia.
  - cbn. lia.
  - cbn. lia.
Defined.


Lemma RandUniformArray1_distinct_bounds_witness :
  ∃ a calls', RandUniformArray1 lcg_rand 0 cuda_reversed 4 (-3) 10 = Ok (a, calls') ∧
    ∀ i, 0 ≤ i < 4 → ∃ v, Array1_get a i = Ok v ∧ -3 ≤ v ≤ 10.
Proof.
  apply (@RandUniformArray1_distinct_bounds int32_elem lcg_rand 0 cuda_reversed 4 (-3) 10);
    [lia|lia|]. repeat split; vm_compute; done.
Defined.

Lemma Transpose_dimension_mismatch_witness :
  Transpose GetCpuContext (strided_2x3 GetCpuContext)
    (array2_of GetCpuContext 2 3 3 0 [0; 0; 0; 0; 0; 0]) = Fatal "Check failed".
Proof.
  apply (@Transpose_dimension_mismatch Z int32_elem); [reflexivity|reflexivity|].
  left. cbn. lia.
Defined.

Lemma Range_arithmetic_sequence_witness :
  ∃ ans, Range cuda_reversed 3 2147483647 1 = Ok ans ∧ Dim ans = 3 ∧
    Array1_Context ans = cuda_reversed ∧
    (∀ i, 0 ≤ i < 3 → Array1_get ans i = Ok (sint T_bits (2147483647 + i * 1))) ∧
    (∀ i, 0 ≤ i < 3 →
       - 2 ^ (T_bits - 1) ≤ 2147483647 + i * 1 < 2 ^ (T_bits - 1) →
       Array1_get ans i = Ok (2147483647 + i * 1)).
Proof. apply (@Range_arithmetic_sequence int32_elem cuda_reversed 3 2147483647 1). lia. Defined.

Lemma Transpose_elements_and_frame_witness :
  ∃ dest',
    Transpose cuda_reversed (strided_2x3 cuda_reversed) (padded_3x2 cuda_reversed) = Ok dest' ∧
    Dim0 dest' = 3 ∧ Dim1 dest' = 2 ∧ ElemStride0 dest' = 4 ∧ a2_byte_offset dest' = 4 ∧
    Array2_Context dest' = cuda_reversed ∧
    length (region_data (a2_region dest')) = 12%nat ∧
    (∀ i j, 0 ≤ i < 3 → 0 ≤ j < 2 →
       ∃ v, Array2_get (strided_2x3 cuda_reversed) j i = Ok v ∧ Array2_get dest' i j = Ok v) ∧
    (∀ n : nat,
       (∀ i j, 0 ≤ i < 3 → 0 ≤ j < 2 → 4 / 4 + i * 4 + j ≠ Z.of_nat n) →
       region_data (a2_region dest') !! n
       = [7; 0; 0; 7; 7; 0; 0; 7; 7; 0; 0; 7] !! n).
Proof.
  apply (@Transpose_elements_and_frame Z int32_elem cuda_reversed
           (strided_2x3 cuda_reversed) (padded_3x2 cuda_reversed));
    first [reflexivity | solve_valid].
Defined.

Lemma Transpose_backend_independent_witness :
  ∃ out,
    Transpose GetCpuContext (Array2_at GetCpuContext (strided_2x3 GetCpuContext))
      (Array2_at GetCpuContext (padded_3x2 GetCpuContext))
    = Ok (Array2_at GetCpuContext out) ∧
    Transpose cuda_reversed (Array2_at cuda_reversed (strided_2x3 GetCpuContext))
      (Array2_at cuda_reversed (padded_3x2 GetCpuContext))
    = Ok (Array2_at cuda_reversed out).
Proof.
  apply (@Transpose_backend_independent Z int32_elem GetCpuContext cuda_reversed
           (strided_2x3 GetCpuContext) (padded_3x2 GetCpuContext));
    first [reflexivity | solve_valid].
Defined.

Lemma Transpose_succeeds_only_if_witness :
  IsCompatible cuda_reversed (Array2_Context (strided_2x3 cuda_reversed)) = true ∧
  IsCompatible cuda_reversed (Array2_Context (padded_3x2 cuda_reversed)) = true ∧
  Dim0 (strided_2x3 cuda_reversed) = Dim1 (padded_3x2 cuda_reversed) ∧
  Dim1 (strided_2x3 cuda_reversed) = Dim0 (padded_3x2 cuda_reversed) ∧
  Dim0 (array2_of cuda_reversed 3 2 4 4 [7; 1; 4; 7; 7; 2; 5; 7; 7; 3; 6; 7]) = 3 ∧
  Dim1 (array2_of cuda_reversed 3 2 4 4 [7; 1; 4; 7; 7; 2; 5; 7; 7; 3; 6; 7]) = 2 ∧
  ElemStride0 (array2_of cuda_reversed 3 2 4 4 [7; 1; 4; 7; 7; 2; 5; 7; 7; 3; 6; 7]) = 4 ∧
  a2_byte_offset (array2_of cuda_reversed 3 2 4 4 [7; 1; 4; 7; 7; 2; 5; 7; 7; 3; 6; 7]) = 4 ∧
  Array2_Context (array2_of cuda_reversed 3 2 4 4 [7; 1; 4; 7; 7; 2; 5; 7; 7; 3; 6; 7])
  = cuda_reversed.
Proof.
  apply (@Transpose_succeeds_only_if Z int32_elem cuda_reversed
           (strided_2x3 cuda_reversed) (padded_3x2 cuda_reversed)).
  reflexivity.
Defined.

Lemma ToContiguous_then_Transpose_witness :
  ∃ y r,
    ToContiguous (strided_2x3 cuda_reversed) = Ok y ∧
    Transpose cuda_reversed y (padded_3x2 cuda_reversed) = Ok r ∧
    Transpose cuda_reversed (strided_2x3 cuda_reversed) (padded_3x2 cuda_reversed) = Ok r.
Proof.
  apply (@ToContiguous_then_Transpose Z int32_elem cuda_reversed
           (strided_2x3 cuda_reversed) (padded_3x2 cuda_reversed));
    first [reflexivity | solve_valid].
Defined.


Lemma ExclusiveSum_Array2_rejects_witness :
  ExclusiveSum_Array2 (strided_2x3 cuda_reversed)
    (array2_of cuda_reversed 2 3 3 0 [9; 9; 9; 9; 9; 9]) 2 = Fatal "Check failed".
Proof.
  apply (@ExclusiveSum_Array2_rejects Z int32_elem _).
  intros [[Hax|Hax] _]; discriminate Hax.
Defined.


Lemma PtrPtr_witness_values :
  ∀ k, 0 ≤ k < Dim (three_pointers GetCpuContext) →
    ∃ q, @Array1_get (ptr Z) ptr_elem (three_pointers GetCpuContext) k = Ok q ∧
         load q 0 = Ok (if k =? 0 then 5 else if k =? 1 then 7 else 6).
Proof.
  intros k Hk. cbn in Hk.
  assert (k = 0 ∨ k = 1 ∨ k = 2) as [-> | [-> | ->]] by lia; eexists; split; reflexivity.
Qed.

Lemma ExclusiveSumDeref_sums_witness :
  ∃ dest',
    @ExclusiveSumDeref Z int32_elem ptr_elem _ (three_pointers GetCpuContext)
      (array1_of GetCpuContext [9; 9; 9; 9]) = Ok dest' ∧
    Dim dest' = 4 ∧ a1_byte_offset dest' = 0 ∧
    Array1_Context dest' = GetCpuContext ∧
    length (region_data (a1_region dest')) = 4%nat ∧
    (∀ j, 0 ≤ j < 4 →
       Array1_get dest' j
       = Ok (sum_upto (λ k, if k =? 0 then 5 else if k =? 1 then 7 else 6) j)) ∧
    (∀ n : nat, ¬ (0 ≤ Z.of_nat n - 0 / 4 < 4) →
       region_data (a1_region dest') !! n = [9; 9; 9; 9] !! n).
Proof.
  apply (@ExclusiveSumDeref_sums Z int32_elem ptr_elem _ (three_pointers GetCpuContext)
           (array1_of GetCpuContext [9; 9; 9; 9])
           (λ k, if k =? 0 then 5 else if k =? 1 then 7 else 6)).
  - split; [reflexivity|]. right. split; [reflexivity|]. unfold num_bytes. cbn. lia.
  - apply array1_of_valid.
  - exact PtrPtr_witness_values.
Defined.

Lemma ExclusiveSumDeref_rejects_witness :
  @ExclusiveSumDeref Z int32_elem ptr_elem _ (three_pointers GetCpuContext)
    (array1_of GetCpuContext [9; 9]) = Fatal "Check failed".
Proof.
  apply (@ExclusiveSumDeref_rejects Z int32_elem ptr_elem _).
  intros [_ [Hd | [Hd _]]]; discriminate Hd.
Defined.

Lemma MaxPerSublist_rejects_witness :
  @MaxPerSublist Z int32_elem _ int32_elem
    (ragged_of cuda_reversed [0; 2] [1; 2]) 0 (array1_of cuda_reversed [0; 0])
  = Fatal "Check failed".
Proof.
  apply (@MaxPerSublist_rejects Z int32_elem _ int32_elem). right. left. discriminate.
Defined.

Lemma MaxPerSublist_frame_witness :
  ∃ res,
    @MaxPerSublist Z int32_elem _ int32_elem
      (ragged_of cuda_reversed [0; 2; 3] [1; 5; 2]) 0 (middle_two cuda_reversed) = Ok res ∧
    Dim res = 2 ∧ a1_byte_offset res = 4 ∧ Array1_Context res = cuda_reversed ∧
    length (region_data (a1_region res)) = 4%nat ∧
    ∀ n : nat, ¬ (0 ≤ Z.of_nat n - 4 / 4 < 2) →
      region_data (a1_region res) !! n = [7; 0; 0; 7] !! n.
Proof.
  apply (@MaxPerSublist_frame int32_elem
           (ragged_of cuda_reversed [0; 2; 3] [1; 5; 2]) 0 (middle_two cuda_reversed)
           [0; 2; 3] [1; 5; 2]).
  - split; [reflexivity|]. split; [apply array1_of_holds|]. split; [apply array1_of_holds|].
    split; [reflexivity|]. split; [solve_lookups|reflexivity].
  - solve_valid.
  - reflexivity.
  - reflexivity.
Defined.

Lemma RandUniformArray1_draws_witness :
  ∃ a, RandUniformArray1 lcg_rand 2 cuda_reversed 4 (-3) 10 = Ok (a, (2 + Z.to_nat 4)%nat) ∧
    Dim a = 4 ∧ Array1_Context a = cuda_reversed ∧
    ∀ i : nat, Z.of_nat i < 4 →
      Array1_get a (Z.of_nat i) = Ok (rand_value lcg_rand (-3) 10 (rand_draw lcg_rand (2 + i))).
Proof.
  apply (@RandUniformArray1_draws int32_elem lcg_rand 2 cuda_reversed 4 (-3) 10);
    [lia|lia|]. repeat split; vm_compute; done.
Defined.

Lemma RandUniformArray1_degenerate_bounds_witness :
  RandUniformArray1 lcg_rand 0 cuda_reversed 4 10 (-3) = Fatal "Check failed".
Proof.
  apply (proj1 (@RandUniformArray1_degenerate_bounds int32_elem lcg_rand 0 cuda_reversed
                  4 10 (-3))). lia.
Defined.

Lemma Append_index_word_round_trip_witness :
  uint32 (index_word 3 5) = 3 ∧ uint32 (Z.shiftr (index_word 3 5) 32) = 5.
Proof. apply (Append_index_word_round_trip 3 5); cbn; lia. Defined.
